(** * The GCS transfer module of NodeODM-ASC (libs/gcs.js)

    A shallow embedding of [initialize], [uploadPaths], [cleanupLocalPaths],
    [enabled] and [getContentType], together with the part of the [async]
    2.x library ([async.queue], [async.eachSeries]) that they drive.  The
    options of ODM (libs/odmInfo.js) follow in a module of their own.

    Conventions of the embedding:
    - every call that the module makes on one of its collaborators (the
      logger, the [onOutput] and [cb] callbacks, the write stream of the
      bucket, [setTimeout], [rimraf], [fs.unlink]) and every call of a
      worker's [done] is recorded, oldest first, in a trace of [Event]s;
    - a JavaScript exception that leaves a function is an explicit result
      ([Threw], [Uncaught], [Dies]): nothing in the module catches one;
    - Node's [path] module, the [glob] library, the file system and the
      rendering of floating point numbers are parameters of the
      development;
    - the event loop is a labelled transition function [step]: one label per
      callback that Node may run next (a pending [setImmediate], the
      ['finish'] or ['error'] event of a write stream, the ['error'] of a
      read stream, an expired timer);
      JavaScript runs one callback at a time, so the workers of the pool
      interleave at the grain of these callbacks;
    - a callback of the event loop that an exception leaves is the last
      one of the batch: Node ends the process on an uncaught exception, and
      the module has no handler of its own for it. *)

From Stdlib Require Import List String Ascii ZArith Lia Bool Arith PeanoNat.
From Stdlib Require Import DecimalString Permutation.
Import ListNotations.

Local Open Scope list_scope.
Local Infix "+:+" := String.append (at level 60, right associativity).

(** ** Values *)

(** The message of a JavaScript [Error]. *)
Definition Exn := string.

(** The result of a synchronous call that may throw. *)
Definition Try (A : Type) : Type := (Exn + A)%type.

(** Template literals print integers in decimal. *)
Definition show (n : nat) : string := NilZero.string_of_uint (Nat.to_uint n).

(** The object built at lines 549-554 and 557-562. *)
Record File := mkFile {
  src : string;
  dest : string;
  relativePath : string;
  retries : nat
}.

(** A [File] object together with its identity (its index in [uploadList]):
    the queue, the streams and the timers hold references to the same
    object, and [file.retries++] mutates it in place.  At any time an
    object is referenced from at most one of them, so the embedding moves
    the value along with its reference. *)
Record Task := mkTask {
  ref : nat;
  file : File
}.

(** What [fs.lstatSync] and [fs.statSync] return, as far as the module looks. *)
Record Stats := mkStats {
  isDirectory : bool;
  size : Z
}.

(** The [uploadOptions] object of lines 587-598. *)
Record UploadOptions := mkUploadOptions {
  resumable : bool;
  validation : string;
  contentType : string;
  chunkSize : option Z
}.

(** The calls recorded in the trace. *)
Inductive Event : Type :=
| LoggerDebug (msg : string)
| LoggerWarn (msg : string)
| OnOutput (msg : string)
| Cb (err : option Exn)
| CreateWriteStream (t : Task) (opts : UploadOptions)
| SetTimeout (delay : Z) (t : Task)
| Done (t : Task) (err : option Exn)
| Rimraf (fullPath : string) (err : option Exn)
| Unlink (fullPath : string) (err : option Exn).

Definition Trace := list Event.

(** The arguments of the [cb] calls of a trace, oldest first. *)
Fixpoint callbacks (tr : Trace) : list (option Exn) :=
  match tr with
  | [] => []
  | Cb e :: tr' => e :: callbacks tr'
  | _ :: tr' => callbacks tr'
  end.

(** The errors passed to [done], oldest first: the fatal errors of a batch. *)
Fixpoint fatals (tr : Trace) : list Exn :=
  match tr with
  | [] => []
  | Done _ (Some e) :: tr' => e :: fatals tr'
  | _ :: tr' => fatals tr'
  end.

(** The references of the tasks handed to a write stream, oldest first. *)
Fixpoint started (tr : Trace) : list nat :=
  match tr with
  | [] => []
  | CreateWriteStream t _ :: tr' => ref t :: started tr'
  | _ :: tr' => started tr'
  end.

(** The delays passed to [setTimeout] for the task [r], oldest first. *)
Fixpoint delays (r : nat) (tr : Trace) : list Z :=
  match tr with
  | [] => []
  | SetTimeout d t :: tr' =>
      if Nat.eqb (ref t) r then d :: delays r tr' else delays r tr'
  | _ :: tr' => delays r tr'
  end.

(** Events that leave every reading of a trace as it is: lines for the
    logger or for [onOutput], calls of [done] without an error. *)
Definition quiet (tr : Trace) : Prop :=
  callbacks tr = [] /\ fatals tr = [] /\ started tr = [] /\
  forall r, delays r tr = [].

(** Every failed deletion of a trace has its warning. *)
Definition warned (tr : Trace) : Prop :=
  forall fullPath e,
    (In (Rimraf fullPath (Some e)) tr ->
     In (LoggerWarn ("Failed to delete directory " +:+ fullPath +:+ ": " +:+ e)) tr) /\
    (In (Unlink fullPath (Some e)) tr ->
     In (LoggerWarn ("Failed to delete file " +:+ fullPath +:+ ": " +:+ e)) tr).

(** ** The module's variables and configuration *)

Inductive StorageClient := TheStorage.
Inductive BucketHandle := TheBucket.

(** [let storage = null; let bucket = null;] (lines 468-469). *)
Record GcsModule := mkGcsModule {
  storage : option StorageClient;
  bucket : option BucketHandle
}.

(** The two fields of [config] that the transfer reads.  A number of
    parallel uploads is a count; [0] and an absent value are both falsy. *)
Record Config := mkConfig {
  gcsBucket : string;
  gcsParallelUploads : option nat
}.

(** [enabled] (lines 472-474). *)
Definition enabled (m : GcsModule) : bool :=
  match storage m, bucket m with
  | Some _, Some _ => true
  | _, _ => false
  end.

(** [config.gcsParallelUploads || 16] (line 528). *)
Definition PARALLEL_UPLOADS (config : Config) : nat :=
  match gcsParallelUploads config with
  | Some (S n) => S n
  | _ => 16
  end.

(** Line 529. *)
Definition MAX_RETRIES : nat := 5.

(** ** Content types (lines 700-727) *)

Definition lower_ascii (c : ascii) : ascii :=
  let n := nat_of_ascii c in
  if (65 <=? n) && (n <=? 90) then ascii_of_nat (n + 32) else c.

(** [String.prototype.toLowerCase], on ASCII letters. *)
Fixpoint toLowerCase (s : string) : string :=
  match s with
  | EmptyString => EmptyString
  | String c s' => String (lower_ascii c) (toLowerCase s')
  end.

Definition contentTypes : list (string * string) :=
  [ (".tif", "image/tiff");
    (".tiff", "image/tiff");
    (".png", "image/png");
    (".jpg", "image/jpeg");
    (".jpeg", "image/jpeg");
    (".json", "application/json");
    (".xml", "application/xml");
    (".zip", "application/zip");
    (".las", "application/octet-stream");
    (".laz", "application/octet-stream");
    (".ply", "application/octet-stream");
    (".obj", "model/obj");
    (".mtl", "model/mtl");
    (".glb", "model/gltf-binary");
    (".pdf", "application/pdf");
    (".txt", "text/plain");
    (".csv", "text/csv");
    (".geojson", "application/geo+json");
    (".gpkg", "application/geopackage+sqlite3");
    (".mbtiles", "application/x-sqlite3");
    (".kmz", "application/vnd.google-earth.kmz") ]%string.

Fixpoint lookup (k : string) (tbl : list (string * string)) : option string :=
  match tbl with
  | [] => None
  | (k', v) :: tbl' => if String.eqb k' k then Some v else lookup k tbl'
  end.

(** ** Upload options (lines 586-598) *)

Definition MiB : Z := 1024 * 1024.

Definition uploadOptions (fileSize : Z) (ctype : string) : UploadOptions :=
  {| resumable := (5 * MiB <? fileSize)%Z;
     validation := "crc32c";
     contentType := ctype;
     chunkSize := if (10 * MiB <? fileSize)%Z then Some (10 * MiB)%Z else None |}.

(** ** The state of one batch

    The variables that the closures of [uploadPaths] share, the internals of
    the [async.queue] object [q], and what Node's event loop holds for the
    batch. *)
Record State := mkState {
  q_tasks : list Task;          (* q._tasks, head first *)
  numRunning : nat;             (* workers whose [done] is still to be called *)
  processingScheduled : bool;   (* a [setImmediate] of [_insert] is pending *)
  q_drain : bool;               (* [true]: the handler of line 643; [false]: noop *)
  cbCalled : bool;
  completedUploads : nat;
  streams : list Task;          (* write streams that have emitted nothing yet *)
  timers : list (Z * Task);     (* pending [setTimeout] callbacks of line 612 *)
  trace : Trace
}.

Definition set_q_tasks (v : list Task) (s : State) : State :=
  mkState v (numRunning s) (processingScheduled s) (q_drain s) (cbCalled s)
          (completedUploads s) (streams s) (timers s) (trace s).

Definition set_numRunning (v : nat) (s : State) : State :=
  mkState (q_tasks s) v (processingScheduled s) (q_drain s) (cbCalled s)
          (completedUploads s) (streams s) (timers s) (trace s).

Definition set_processingScheduled (v : bool) (s : State) : State :=
  mkState (q_tasks s) (numRunning s) v (q_drain s) (cbCalled s)
          (completedUploads s) (streams s) (timers s) (trace s).

Definition set_q_drain (v : bool) (s : State) : State :=
  mkState (q_tasks s) (numRunning s) (processingScheduled s) v (cbCalled s)
          (completedUploads s) (streams s) (timers s) (trace s).

Definition set_cbCalled (v : bool) (s : State) : State :=
  mkState (q_tasks s) (numRunning s) (processingScheduled s) (q_drain s) v
          (completedUploads s) (streams s) (timers s) (trace s).

Definition set_completedUploads (v : nat) (s : State) : State :=
  mkState (q_tasks s) (numRunning s) (processingScheduled s) (q_drain s)
          (cbCalled s) v (streams s) (timers s) (trace s).

Definition set_streams (v : list Task) (s : State) : State :=
  mkState (q_tasks s) (numRunning s) (processingScheduled s) (q_drain s)
          (cbCalled s) (completedUploads s) v (timers s) (trace s).

Definition set_timers (v : list (Z * Task)) (s : State) : State :=
  mkState (q_tasks s) (numRunning s) (processingScheduled s) (q_drain s)
          (cbCalled s) (completedUploads s) (streams s) v (trace s).

(** Record one call. *)
Definition emit (e : Event) (s : State) : State :=
  mkState (q_tasks s) (numRunning s) (processingScheduled s) (q_drain s)
          (cbCalled s) (completedUploads s) (streams s) (timers s)
          (trace s ++ [e]).

Arguments set_q_tasks _ !s /.
Arguments set_numRunning _ !s /.
Arguments set_processingScheduled _ !s /.
Arguments set_q_drain _ !s /.
Arguments set_cbCalled _ !s /.
Arguments set_completedUploads _ !s /.
Arguments set_streams _ !s /.
Arguments set_timers _ !s /.
Arguments emit _ !s /.

(** [if (onOutput) onOutput(msg)]. *)
Definition output (onOutput : bool) (msg : string) (s : State) : State :=
  if onOutput then emit (OnOutput msg) s else s.

(** The first task with reference [r], and the others. *)
Fixpoint take (r : nat) (l : list Task) : option (Task * list Task) :=
  match l with
  | [] => None
  | t :: l' =>
      if Nat.eqb (ref t) r then Some (t, l')
      else match take r l' with
           | Some (t', rest) => Some (t', t :: rest)
           | None => None
           end
  end.

Fixpoint take_timer (r : nat) (l : list (Z * Task))
  : option (Task * list (Z * Task)) :=
  match l with
  | [] => None
  | (d, t) :: l' =>
      if Nat.eqb (ref t) r then Some (t, l')
      else match take_timer r l' with
           | Some (t', rest) => Some (t', (d, t) :: rest)
           | None => None
           end
  end.

(** What the event loop may run next for the batch. *)
Inductive Label : Type :=
| Immediate                                  (* the callback of [setImmediate] *)
| StreamFinish (r : nat) (elapsed : string)  (* 'finish', with the elapsed seconds as printed *)
| StreamError (r : nat) (message : string)   (* 'error', with [err.message] *)
| ReadError (r : nat) (message : string)     (* 'error' of the read stream of line 602 *)
| TimerFires (r : nat).                      (* the callback of line 612 *)

(** How a callback of the event loop ends: it returns, or an exception
    leaves it, with the variables of the batch as they are by then.  The
    handlers of lines 604 and 620 listen to the write stream, which is what
    [pipe] returns: the read stream has no listener for ['error'], and for
    Node an ['error'] that nobody listens to is an exception. *)
Inductive Turn : Type :=
| Goes (s : State)
| Dies (e : Exn) (s : State).

Definition landing (t : Turn) : State :=
  match t with
  | Goes s => s
  | Dies _ s => s
  end.

(** What a call of [uploadPaths] leaves behind. *)
Inductive Outcome : Type :=
| Threw (e : Exn) (tr : Trace)   (* the exception [e] leaves [uploadPaths] *)
| Returned (tr : Trace)          (* returned before any queue was created *)
| Queued (s : State).            (* the queue is created and holds [uploadList] *)

(** [file.retries++]. *)
Definition bump (t : Task) : Task :=
  {| ref := ref t;
     file := {| src := src (file t);
                dest := dest (file t);
                relativePath := relativePath (file t);
                retries := S (retries (file t)) |} |}.

(** [Math.pow(2, file.retries) * 1000]. *)
Definition backoff (retries : nat) : Z := (2 ^ Z.of_nat retries * 1000)%Z.

(** ** What the proofs measure and maintain *)

(** The tasks that the batch still holds: queued, being transferred, or
    waiting for their timer. *)
Definition live (s : State) : list Task :=
  q_tasks s ++ streams s ++ map snd (timers s).

(** The trace before the first call of [cb] with an error, and after it. *)
Fixpoint before_abort (tr : Trace) : Trace :=
  match tr with
  | [] => []
  | Cb (Some _) :: _ => []
  | e :: tr' => e :: before_abort tr'
  end.

Fixpoint after_abort (tr : Trace) : option Trace :=
  match tr with
  | [] => None
  | Cb (Some _) :: tr' => Some tr'
  | _ :: tr' => after_abort tr'
  end.

(** A bound on the callbacks that a task can still cause, by where it is. *)
Definition cost (base : nat) (t : Task) : nat :=
  8 * (MAX_RETRIES - retries (file t)) + base.

Definition weight (s : State) : nat :=
  list_sum (map (cost 3) (q_tasks s)) +
  list_sum (map (cost 1) (streams s)) +
  list_sum (map (cost 6) (map snd (timers s))) +
  (if processingScheduled s then 1 else 0).

(** The invariant of a batch of [totalFiles] tasks.  [settled] is [true]
    between two callbacks of the event loop, [false] inside one, before the
    call of [q.process] that ends it. *)
Record Inv (settled : bool) (totalFiles : nat) (s : State) : Prop := {
  inv_running :
    numRunning s = List.length (streams s) + List.length (timers s);
  inv_nodup :
    NoDup (map ref (live s));
  inv_retries :
    Forall (fun t => retries (file t) <= MAX_RETRIES) (live s);
  inv_delays :
    Forall (fun t => delays (ref t) (trace s) =
                     map backoff (seq 1 (retries (file t)))) (live s);
  inv_started :
    forall t, In t (streams s ++ map snd (timers s)) ->
              In (ref t) (started (trace s));
  inv_before :
    cbCalled s = false ->
    q_drain s = true /\ callbacks (trace s) = [] /\ fatals (trace s) = [] /\
    (0 < numRunning s \/
     (q_tasks s <> [] /\ (settled = true -> processingScheduled s = true)));
  inv_count :
    q_drain s = true ->
    completedUploads s + List.length (q_tasks s) + numRunning s = totalFiles;
  inv_after :
    cbCalled s = true ->
    (q_drain s = true /\ callbacks (trace s) = [None] /\
     fatals (trace s) = [] /\ q_tasks s = [] /\ numRunning s = 0) \/
    (q_drain s = false /\
     exists e rest, fatals (trace s) = e :: rest /\
                    callbacks (trace s) = [Some e]);
  inv_abort :
    match after_abort (trace s) with
    | Some post =>
        (forall t, In t (live s) ->
                   In (ref t) (started (before_abort (trace s)))) /\
        incl (started post) (started (before_abort (trace s)))
    | None => True
    end
}.

(** What C1 expects of a batch when its last callback has run: the
    completion callback called exactly once. *)
Definition called_once (tr : Trace) : Prop :=
  exists c, callbacks tr = [c].

(** What C3 expects of the trace of a batch: nothing is handed to a write
    stream once the completion callback has received an error. *)
Definition closed_after_abort (tr : Trace) : Prop :=
  forall post, after_abort tr = Some post -> started post = [].


(** What C7 expects of a call that meets an error of the file system: the
    completion callback called once, with an error, and no queue. *)
Definition failed_early (o : Outcome) : Prop :=
  match o with
  | Returned tr => exists e, callbacks tr = [Some e]
  | Threw _ _ | Queued _ => False
  end.

(** ** The collaborators

    Node's [path] module; the file system as the calls of the module see it,
    over a type of file system states that the deletions change; the
    rendering of the two floating point numbers that the progress lines
    print.

    [glob_sync w pattern cwd] is [glob.sync(pattern, { cwd, nodir: true,
    nosort: true })].  [existsSync] never throws; [lstatSync], [glob_sync]
    and [statSync] may.  [rimraf] and [unlink] hand the error of the
    deletion, if any, to their callback. *)
Class Env := {
  path_join : string -> string -> string;
  path_basename : string -> string;
  path_extname : string -> string;
  World : Type;
  existsSync : World -> string -> bool;
  lstatSync : World -> string -> Try Stats;
  glob_sync : World -> string -> string -> Try (list string);
  statSync : World -> string -> Try Stats;
  rimraf : World -> string -> option Exn * World;
  unlink : World -> string -> option Exn * World;
  fileSizeMB : Z -> string;      (* (fileSize / (1024 * 1024)).toFixed(2) *)
  progress : nat -> nat -> string (* Math.round((completedUploads / totalFiles) * 100) *)
}.

Section Transfer.

Context `{Env}.

(** [getContentType] (lines 700-727). *)
Definition getContentType (filePath : string) : string :=
  let ext := toLowerCase (path_extname filePath) in
  match lookup ext contentTypes with
  | Some ct => ct
  | None => "application/octet-stream"%string
  end.

(** *** Building the upload list (lines 535-564) *)

(** One turn of [paths.forEach]: the new [uploadList] unless a call threw,
    and the trace. *)
Definition expand_path (w : World) (srcFolder dstFolder p : string)
           (uploadList : list File) (tr : Trace) : Try (list File) * Trace :=
  let fullPath := path_join srcFolder p in
  if negb (existsSync w fullPath) then
    (inr uploadList,
     tr ++ [LoggerDebug ("Skipping non-existent path: " +:+ fullPath)])
  else
    match lstatSync w fullPath with
    | inl e => (inl e, tr)
    | inr st =>
        if isDirectory st then
          match glob_sync w (p +:+ "/**") srcFolder with
          | inl e => (inl e, tr)
          | inr globPaths =>
              (inr (uploadList ++
                    map (fun gp => {| src := path_join srcFolder gp;
                                      dest := path_join dstFolder gp;
                                      relativePath := gp;
                                      retries := 0 |}) globPaths),
               tr)
          end
        else
          (inr (uploadList ++ [ {| src := fullPath;
                                   dest := path_join dstFolder p;
                                   relativePath := p;
                                   retries := 0 |} ]),
           tr)
    end.

Fixpoint expand_paths (w : World) (srcFolder dstFolder : string)
         (paths : list string) (uploadList : list File) (tr : Trace)
  : Try (list File) * Trace :=
  match paths with
  | [] => (inr uploadList, tr)
  | p :: paths' =>
      match expand_path w srcFolder dstFolder p uploadList tr with
      | (inl e, tr') => (inl e, tr')
      | (inr uploadList', tr') =>
          expand_paths w srcFolder dstFolder paths' uploadList' tr'
      end
  end.

(** The objects of [uploadList] with their identities. *)
Fixpoint number (i : nat) (l : list File) : list Task :=
  match l with
  | [] => []
  | f :: l' => {| ref := i; file := f |} :: number (S i) l'
  end.

(** [if (onOutput) onOutput(msg)], before the queue exists. *)
Definition say (onOutput : bool) (msg : string) : Trace :=
  if onOutput then [OnOutput msg] else [].

(** *** The queue and its worker (lines 575-651)

    [async.queue(worker, concurrency)] of async 2.x, the major version
    whose queue takes its [drain] handler by assignment.  [saturated],
    [unsaturated], [empty] and [error] stay noops, the queue is never
    paused and has no payload; [workersList] is not read.  Every item of
    [q._tasks] carries [errHandler] as its callback. *)
Section Batch.

Variable w : World.
Variable config : Config.
Variable onOutput : bool.
Variable totalFiles : nat.

(** [q.kill]: [q.drain = noop; q._tasks.empty()]. *)
Definition q_kill (s : State) : State :=
  set_q_tasks [] (set_q_drain false s).

(** [errHandler] (lines 633-641). *)
Definition errHandler (err : option Exn) (s : State) : State :=
  match err with
  | Some e =>
      let s := q_kill s in
      if cbCalled s then s
      else emit (Cb (Some e)) (set_cbCalled true s)
  | None => s
  end.

(** The handler assigned to [q.drain] (lines 643-649). *)
Definition drain (s : State) : State :=
  if cbCalled s then s
  else
    let s := set_cbCalled true s in
    let s := output onOutput
               ("Successfully uploaded " +:+ show totalFiles +:+
                " files to GCS!") s in
    emit (Cb None) s.

(** [q.idle]: [q._tasks.length + numRunning === 0]. *)
Definition q_idle (s : State) : bool :=
  List.length (q_tasks s) + numRunning s =? 0.

(** [fileSize], the variable of the worker's closure (line 579), as the
    handlers of the streams read it later.  The file system of a batch is
    the one value [w], so it is what [fs.statSync] answers on the file
    again; a task has streams only once [fs.statSync] has answered on its
    file. *)
Definition fileSize (t : Task) : Z :=
  match statSync w (src (file t)) with
  | inr st => size st
  | inl _ => 0%Z
  end.

(** [fs.statSync] answers on the file of the task. *)
Definition readable (t : Task) : Prop :=
  exists st, statSync w (src (file t)) = inr st.

(** What a worker calls before it returns. *)
Definition worker_events (t : Task) : Trace :=
  let fileSize := fileSize t in
  [ LoggerDebug ("Uploading " +:+ src (file t) +:+ " --> gs://" +:+
                 gcsBucket config +:+ "/" +:+ dest (file t) +:+ " (" +:+
                 fileSizeMB fileSize +:+ " MB)");
    CreateWriteStream t (uploadOptions fileSize
                                       (getContentType (src (file t)))) ].

(** The worker up to the creation of the streams (lines 577-603), or the
    exception of [fs.statSync] (line 579), which the worker does not
    catch. *)
Definition worker (t : Task) (s : State) : Try State :=
  let f := file t in
  match statSync w (src f) with
  | inl e => inl e
  | inr st =>
      let fileSize := size st in
      let s := emit (LoggerDebug
                       ("Uploading " +:+ src f +:+ " --> gs://" +:+
                        gcsBucket config +:+ "/" +:+ dest f +:+ " (" +:+
                        fileSizeMB fileSize +:+ " MB)")) s in
      let opts := uploadOptions fileSize (getContentType (src f)) in
      let s := emit (CreateWriteStream t opts) s in
      inr (set_streams (streams s ++ [t]) s)
  end.

(** The loop of [q.process]:
    [while (numRunning < q.concurrency && q._tasks.length)], each turn
    shifting one task and handing it to the worker.  [pending] is
    [q._tasks] at the head of the turn.  The loop has no [try]: an
    exception of the worker leaves [q.process], and with it the callback
    that called it. *)
Fixpoint process_loop (pending : list Task) (s : State) : Turn :=
  match pending with
  | [] => Goes s
  | t :: rest =>
      if numRunning s <? PARALLEL_UPLOADS config then
        let s := set_q_tasks rest s in
        let s := set_numRunning (S (numRunning s)) s in
        match worker t s with
        | inr s' => process_loop rest s'
        | inl e => Dies e s
        end
      else Goes s
  end.

Definition q_process (s : State) : Turn :=
  process_loop (q_tasks s) s.

(** The function that [_next] builds for one worker:
    [numRunning -= 1], the task's callback, [q.drain] when idle, then
    [q.process].  A worker whose [done] is called is counted in
    [numRunning] ([inv_running] below), so the subtraction on [nat] is the
    one on numbers. *)
Definition q_next (err : option Exn) (s : State) : Turn :=
  let s := set_numRunning (numRunning s - 1) s in
  let s := errHandler err s in
  let s := if q_idle s then (if q_drain s then drain s else s) else s in
  q_process s.

(** A call of the worker's [done]. *)
Definition done (t : Task) (err : option Exn) (s : State) : Turn :=
  q_next err (emit (Done t err) s).

(** [q.push(data, errHandler)], through [_insert]: the tasks go to the
    tail of [q._tasks], and [q.process] is scheduled with [setImmediate]
    unless it already is.  Both calls of the module pass at least one task,
    so the shortcut of [_insert] for an empty array is not taken. *)
Definition q_push (data : list Task) (s : State) : State :=
  let s := set_q_tasks (q_tasks s ++ data) s in
  if processingScheduled s then s else set_processingScheduled true s.

(** The ['error'] handler (lines 604-619). *)
Definition on_error (t : Task) (message : string) (s : State) : Turn :=
  let filename := path_basename (dest (file t)) in
  let s := emit (LoggerDebug
                   ("Upload error for " +:+ filename +:+ ": " +:+ message)) s in
  if retries (file t) <? MAX_RETRIES then
    let t := bump t in
    let delay := backoff (retries (file t)) in
    let s := output onOutput
               ("Retrying " +:+ filename +:+ " (attempt " +:+
                show (retries (file t)) +:+ "/" +:+ show MAX_RETRIES +:+
                ") in " +:+ show (Z.to_nat (delay / 1000)) +:+ "s...") s in
    let s := emit (SetTimeout delay t) s in
    Goes (set_timers (timers s ++ [(delay, t)]) s)
  else
    done t (Some ("Failed to upload " +:+ filename +:+ " after " +:+
                  show MAX_RETRIES +:+ " retries: " +:+ message)) s.

(** The callback of [setTimeout] (lines 612-615). *)
Definition on_timeout (t : Task) (s : State) : Turn :=
  done t None (q_push [t] s).

(** The ['finish'] handler (lines 620-630). *)
Definition on_finish (t : Task) (elapsed : string) (s : State) : Turn :=
  let filename := path_basename (dest (file t)) in
  let fileSize := fileSize t in
  let s := set_completedUploads (S (completedUploads s)) s in
  let s := output onOutput
             ("[" +:+ progress (completedUploads s) totalFiles +:+
              "%] Uploaded " +:+ filename +:+ " (" +:+
              fileSizeMB fileSize +:+ " MB in " +:+ elapsed +:+ "s)") s in
  done t None s.

(** One callback of the event loop; [None] when the label names a
    callback that is not pending.  A write stream emits one of ['finish']
    and ['error'], once; timers may expire in any order; the read stream of
    a transfer may fail as long as its write stream has emitted nothing. *)
Definition step (l : Label) (s : State) : option Turn :=
  match l with
  | Immediate =>
      if processingScheduled s
      then Some (q_process (set_processingScheduled false s))
      else None
  | StreamFinish r elapsed =>
      match take r (streams s) with
      | Some (t, rest) => Some (on_finish t elapsed (set_streams rest s))
      | None => None
      end
  | StreamError r message =>
      match take r (streams s) with
      | Some (t, rest) => Some (on_error t message (set_streams rest s))
      | None => None
      end
  | ReadError r message =>
      match take r (streams s) with
      | Some _ => Some (Dies message s)
      | None => None
      end
  | TimerFires r =>
      match take_timer r (timers s) with
      | Some (t, rest) => Some (on_timeout t (set_timers rest s))
      | None => None
      end
  end.

(** The callbacks [ls], one after the other, each of them returning. *)
Fixpoint run (ls : list Label) (s : State) : option State :=
  match ls with
  | [] => Some s
  | l :: ls' =>
      match step l s with
      | Some (Goes s') => run ls' s'
      | _ => None
      end
  end.

(** Nothing is pending for the batch in the event loop. *)
Definition quiescent (s : State) : Prop :=
  processingScheduled s = false /\ streams s = [] /\ timers s = [].

(** The queue object as [async.queue] returns it, with the callers'
    variables of lines 532 and 575. *)
Definition new_queue (tr : Trace) : State :=
  {| q_tasks := [];
     numRunning := 0;
     processingScheduled := false;
     q_drain := false;
     cbCalled := false;
     completedUploads := 0;
     streams := [];
     timers := [];
     trace := tr |}.

(** The options of a transfer follow from the size of its file, as
    [fs.statSync] gives it. *)
Definition moded (e : Event) : Prop :=
  match e with
  | CreateWriteStream t opts =>
      exists st,
        statSync w (src (file t)) = inr st /\
        opts = uploadOptions (size st) (getContentType (src (file t)))
  | _ => True
  end.

(** [fs.statSync] has answered on the file of every task that is with a
    worker, in flight or waiting for its retry. *)
Definition Readable (s : State) : Prop :=
  Forall readable (streams s ++ map snd (timers s)).

(** [s'] comes after [s]: the measure has gone down by [slack] at least, no
    task has come to life, and the trace has grown at its end. *)
Definition follows (slack : nat) (s s' : State) : Prop :=
  weight s' + slack <= weight s /\
  incl (map ref (live s')) (map ref (live s)) /\
  exists x, trace s' = trace s ++ x /\ Forall moded x.

End Batch.

(** The callbacks [ls] of the event loop, run on the batch that
    [uploadPaths] has left in [s0]: [totalFiles] is the length of the
    upload list, all of it in the queue. *)
Definition batch_run (w : World) (config : Config) (onOutput : bool)
           (s0 : State) (ls : list Label) : option State :=
  run w config onOutput (List.length (q_tasks s0)) ls s0.

(** *** [uploadPaths] (lines 523-652) *)
Definition uploadPaths (m : GcsModule) (config : Config) (w : World)
           (srcFolder bucketName dstFolder : string) (paths : list string)
           (onOutput : bool) : Outcome :=
  match storage m, bucket m with
  | Some _, Some _ =>
      match expand_paths w srcFolder dstFolder paths [] [] with
      | (inl e, tr) => Threw e tr
      | (inr uploadList, tr) =>
          let totalFiles := List.length uploadList in
          if totalFiles =? 0 then
            Returned (tr ++ say onOutput "No files to upload to GCS" ++
                      [Cb None])
          else
            let tr := tr ++ say onOutput
                        ("Uploading " +:+ show totalFiles +:+
                         " files to GCS bucket '" +:+ gcsBucket config +:+
                         "'...") in
            let s := new_queue tr in
            let s := set_q_drain true s in
            Queued (q_push (number 0 uploadList) s)
      end
  | _, _ => Returned [Cb (Some "GCS is not initialized"%string)]
  end.

(** *** [cleanupLocalPaths] (lines 661-694) *)

(** What a call of [cleanupLocalPaths] leaves behind: an exception that
    nothing catches, or the end of the series. *)
Inductive Cleanup : Type :=
| Uncaught (e : Exn) (tr : Trace) (w : World)
| Completed (tr : Trace) (w : World).

(** [async.eachSeries]: the iteratee runs on one element at a time and
    answers with what it hands to [done]; the first error ends the series.
    The result is the argument of the final callback. *)
Fixpoint eachSeries {A : Type}
         (iteratee : A -> World -> Trace -> Try (option Exn) * Trace * World)
         (coll : list A) (w : World) (tr : Trace)
  : Try (option Exn) * Trace * World :=
  match coll with
  | [] => (inr None, tr, w)
  | x :: coll' =>
      match iteratee x w tr with
      | (inl e, tr', w') => (inl e, tr', w')
      | (inr (Some err), tr', w') => (inr (Some err), tr', w')
      | (inr None, tr', w') => eachSeries iteratee coll' w' tr'
      end
  end.

(** The iteratee of lines 664-690. *)
Definition cleanup_path (srcFolder p : string) (w : World) (tr : Trace)
  : Try (option Exn) * Trace * World :=
  let fullPath := path_join srcFolder p in
  if negb (existsSync w fullPath) then (inr None, tr, w)
  else
    match lstatSync w fullPath with
    | inl e => (inl e, tr, w)
    | inr st =>
        if isDirectory st then
          let (err, w') := rimraf w fullPath in
          let tr := tr ++ [Rimraf fullPath err] in
          let tr :=
            match err with
            | Some e => tr ++ [LoggerWarn ("Failed to delete directory " +:+
                                           fullPath +:+ ": " +:+ e)]
            | None => tr ++ [LoggerDebug ("Deleted directory: " +:+ fullPath)]
            end in
          (inr None, tr, w')
        else
          let (err, w') := unlink w fullPath in
          let tr := tr ++ [Unlink fullPath err] in
          let tr :=
            match err with
            | Some e => tr ++ [LoggerWarn ("Failed to delete file " +:+
                                           fullPath +:+ ": " +:+ e)]
            | None => tr ++ [LoggerDebug ("Deleted file: " +:+ fullPath)]
            end in
          (inr None, tr, w')
    end.

Definition cleanupLocalPaths (srcFolder : string) (paths : list string)
           (onOutput : bool) (w : World) : Cleanup :=
  let tr := say onOutput "Cleaning up local files after GCS upload..." in
  match eachSeries (cleanup_path srcFolder) paths w tr with
  | (inl e, tr, w') => Uncaught e tr w'
  | (inr err, tr, w') =>
      Completed (tr ++ say onOutput "Local cleanup completed" ++ [Cb err]) w'
  end.

Definition cleanup_trace (c : Cleanup) : Trace :=
  match c with
  | Uncaught _ tr _ => tr
  | Completed tr _ => tr
  end.


(** One path of the series, for a loop that has no way out: the trace and
    the file system after the iteratee. *)
Definition cleanup_visit (srcFolder : string) (acc : Trace * World)
           (p : string) : Trace * World :=
  let '(_, tr, w) := cleanup_path srcFolder p (snd acc) (fst acc) in (tr, w).

(** [fs.lstatSync] answers for every path that [fs.existsSync] sees: no
    path vanishes between the two calls. *)
Definition lstat_answers (srcFolder : string) : Prop :=
  forall (w : World) (p : string),
    existsSync w (path_join srcFolder p) = true ->
    exists st, lstatSync w (path_join srcFolder p) = inr st.

(** *** The path expander, as the specification words it

    Per input path: nothing when the path does not exist under the root
    (with a debug line), one task per file listed beneath a directory,
    with [relativePath] the file's path relative to the root, and exactly
    one task for anything else that exists. *)
Definition task_for (srcFolder dstFolder rel : string) : File :=
  {| src := path_join srcFolder rel;
     dest := path_join dstFolder rel;
     relativePath := rel;
     retries := 0 |}.

Definition spec_tasks (w : World) (srcFolder dstFolder p : string) : list File :=
  if existsSync w (path_join srcFolder p) then
    match lstatSync w (path_join srcFolder p) with
    | inr st =>
        if isDirectory st then
          match glob_sync w (p +:+ "/**") srcFolder with
          | inr listed => map (task_for srcFolder dstFolder) listed
          | inl _ => []
          end
        else [task_for srcFolder dstFolder p]
    | inl _ => []
    end
  else [].

Definition spec_skipped (w : World) (srcFolder p : string) : Trace :=
  if existsSync w (path_join srcFolder p) then []
  else [LoggerDebug ("Skipping non-existent path: " +:+ path_join srcFolder p)].

End Transfer.

(** ** A small concrete environment, for the examples

    Paths are joined with a slash.  A file system state lists its entries by
    full path, the answers of [glob.sync] by pattern, the paths whose
    deletion fails, and the paths that another process removes right after
    [fs.existsSync] has seen them. *)
Module Demo.

Inductive Node : Type :=
| RegularFile (bytes : Z)
| Directory.

Record Disk := mkDisk {
  nodes : list (string * Node);
  globs : list (string * list string);
  locked : list string;
  vanishing : list string
}.

Fixpoint find {A : Type} (k : string) (l : list (string * A)) : option A :=
  match l with
  | [] => None
  | (k', v) :: l' => if String.eqb k' k then Some v else find k l'
  end.

Fixpoint remove (k : string) (l : list (string * Node)) : list (string * Node) :=
  match l with
  | [] => []
  | (k', v) :: l' =>
      if String.eqb k' k then remove k l' else (k', v) :: remove k l'
  end.

(** The characters after the last [sep] of [s]; all of [s] without one. *)
Fixpoint after_last (sep : ascii) (s : string) : string :=
  match s with
  | EmptyString => EmptyString
  | String c s' =>
      if existsb (Ascii.eqb sep) (list_ascii_of_string s')
      then after_last sep s'
      else if Ascii.eqb c sep then s' else s
  end.

Definition basename (p : string) : string := after_last "/" p.

Definition extname (p : string) : string :=
  let b := basename p in
  if existsb (Ascii.eqb ".") (list_ascii_of_string b)
  then String "." (after_last "." b)
  else EmptyString.

Definition exists_ (d : Disk) (p : string) : bool :=
  match find p (nodes d) with
  | Some _ => true
  | None => false
  end.

Definition lstat (d : Disk) (p : string) : Try Stats :=
  match find p (nodes d) with
  | Some (RegularFile n) => inr {| isDirectory := false; size := n |}
  | Some Directory => inr {| isDirectory := true; size := 4096 |}
  | None => inl ("ENOENT: no such file or directory, lstat '" +:+ p +:+ "'")
  end.

(** [lstat] on a disk where the [vanishing] paths are gone by the time of
    the call. *)
Definition lstat_late (d : Disk) (p : string) : Try Stats :=
  if existsb (String.eqb p) (vanishing d)
  then inl ("ENOENT: no such file or directory, lstat '" +:+ p +:+ "'")
  else lstat d p.

Definition stat (d : Disk) (p : string) : Try Stats :=
  match find p (nodes d) with
  | Some (RegularFile n) => inr {| isDirectory := false; size := n |}
  | Some Directory => inr {| isDirectory := true; size := 4096 |}
  | None => inl ("ENOENT: no such file or directory, stat '" +:+ p +:+ "'")
  end.

(** [stat] on a disk where the [vanishing] paths are gone by the time of
    the call. *)
Definition stat_late (d : Disk) (p : string) : Try Stats :=
  if existsb (String.eqb p) (vanishing d)
  then inl ("ENOENT: no such file or directory, stat '" +:+ p +:+ "'")
  else stat d p.

Definition glob (d : Disk) (pattern cwd : string) : Try (list string) :=
  match find pattern (globs d) with
  | Some l => inr l
  | None => inr []
  end.

Definition delete (d : Disk) (p : string) : option Exn * Disk :=
  if existsb (String.eqb p) (locked d)
  then (Some "EACCES: permission denied"%string, d)
  else (None, {| nodes := remove p (nodes d);
                 globs := globs d;
                 locked := locked d;
                 vanishing := vanishing d |}).




(** A file system on which nothing happens between two calls. *)
Definition steady : Env :=
  {| path_join := fun a b => a +:+ "/" +:+ b;
     path_basename := basename;
     path_extname := extname;
     World := Disk;
     existsSync := exists_;
     lstatSync := lstat;
     glob_sync := glob;
     statSync := stat;
     rimraf := delete;
     unlink := delete;
     fileSizeMB := fun n => show (Z.to_nat (n / MiB));
     progress := fun c t => show (c * 100 / t) |}.

(** The same, with the [vanishing] paths removed under the caller's feet. *)
Definition racy : Env :=
  {| path_join := fun a b => a +:+ "/" +:+ b;
     path_basename := basename;
     path_extname := extname;
     World := Disk;
     existsSync := exists_;
     lstatSync := lstat_late;
     glob_sync := glob;
     statSync := stat_late;
     rimraf := delete;
     unlink := delete;
     fileSizeMB := fun n => show (Z.to_nat (n / MiB));
     progress := fun c t => show (c * 100 / t) |}.


Definition ready : GcsModule :=
  {| storage := Some TheStorage; bucket := Some TheBucket |}.

Definition asleep : GcsModule :=
  {| storage := None; bucket := None |}.

Definition config : Config :=
  {| gcsBucket := "odm-results"; gcsParallelUploads := Some 2 |}.

(** [/data] holds an archive of 12 MiB, a directory of two files that
    cannot be deleted, and a lock file that is about to vanish. *)
Definition disk : Disk :=
  {| nodes := [ ("/data/all.zip", RegularFile (12 * MiB));
                ("/data/odm_report", Directory);
                ("/data/odm_report/report.pdf", RegularFile 2048);
                ("/data/odm_report/stats.json", RegularFile 512);
                ("/data/tmp.lock", RegularFile 0) ]%string;
     globs := [ ("odm_report/**",
                 ["odm_report/report.pdf"; "odm_report/stats.json"]) ]%string;
     locked := [ "/data/odm_report" ]%string;
     vanishing := [ "/data/tmp.lock" ]%string |}.

(** The same, when the second file of the report is gone by the time a
    worker asks for its size. *)
Definition shrinking : Disk :=
  {| nodes := nodes disk;
     globs := globs disk;
     locked := locked disk;
     vanishing := [ "/data/odm_report/stats.json" ]%string |}.


(** The batch of the archive alone, as [uploadPaths] leaves it. *)
Definition batch : State :=
  match @uploadPaths steady ready config disk "/data" "" "task1"
                     ["all.zip"%string] true with
  | Queued s => s
  | _ => new_queue []
  end.

(** The task of the archive, with [n] retries behind it. *)
Definition archive (n : nat) : Task :=
  {| ref := 0;
     file := {| src := "/data/all.zip"; dest := "task1/all.zip";
                relativePath := "all.zip"; retries := n |} |}.

(** The callbacks of the event loop when the transfer of the archive fails
    [n] times with "reset" and every timer fires. *)
Fixpoint failing (n : nat) : list Label :=
  match n with
  | 0 => []
  | S n' => StreamError 0 "reset" :: TimerFires 0 :: failing n'
  end.

(** The state of the batch after [ls]. *)
Definition after (ls : list Label) : State :=
  match @batch_run steady disk config true batch ls with
  | Some s => s
  | None => batch
  end.

(** The batch of the two files of the report. *)
Definition reports : State :=
  match @uploadPaths steady ready config disk "/data" "" "task1"
                     ["odm_report"%string] true with
  | Queued s => s
  | _ => new_queue []
  end.

End Demo.

(** The references of the tasks handed to a write stream with no retry
    behind them: the first attempts, oldest first. *)
Fixpoint first_attempts (tr : Trace) : list nat :=
  match tr with
  | [] => []
  | CreateWriteStream t _ :: tr' =>
      if retries (file t) =? 0 then ref t :: first_attempts tr'
      else first_attempts tr'
  | _ :: tr' => first_attempts tr'
  end.

Definition retried (t : Task) : Prop := 0 < retries (file t).

(** The queue is first in, first out: the files that no worker has had
    yet wait in the order of the upload list, ahead of the tasks that come
    back from a retry; [q.kill] drops them.  As long as such a file waits,
    no retry is with a write stream. *)
Definition Fifo (uploadList : list File) (s : State) : Prop :=
  exists pre fs R,
    uploadList = pre ++ fs /\
    first_attempts (trace s) = seq 0 (List.length pre) /\
    (q_tasks s = number (List.length pre) fs ++ R \/
     (q_drain s = false /\ q_tasks s = R)) /\
    Forall retried R /\
    Forall retried (map snd (timers s)) /\
    (fs = [] \/
     (q_drain s = true /\
      Forall (fun t => retries (file t) = 0) (streams s))).

(** Once the completion callback has received an error, every file of the
    upload list has had its first attempt, and had it before. *)
Definition Aborted (uploadList : list File) (s : State) : Prop :=
  match after_abort (trace s) with
  | Some post =>
      first_attempts (before_abort (trace s))
      = seq 0 (List.length uploadList) /\
      first_attempts post = []
  | None => True
  end.

Definition Slots (config : Config) (totalFiles : nat) (s : State) : Prop :=
  numRunning s <= PARALLEL_UPLOADS config /\
  completedUploads s + List.length (q_tasks s) + numRunning s <= totalFiles /\
  (q_tasks s = [] \/ PARALLEL_UPLOADS config <= numRunning s \/
   (numRunning s = 0 /\ processingScheduled s = true)) /\
  (q_drain s = false -> q_tasks s = []).

(** An ['error'] event of a write stream. *)
Definition fails (l : Label) : bool :=
  match l with
  | StreamError _ _ => true
  | _ => false
  end.

(** The write streams of a trace are for tasks that satisfy [P]. *)
Definition streams_for (P : Task -> Prop) (e : Event) : Prop :=
  match e with
  | CreateWriteStream t _ => P t
  | _ => True
  end.

(** The task's file is the entry of the upload list that its reference
    names, up to the count of retries. *)
Definition listed (uploadList : list File) (t : Task) : Prop :=
  exists f,
    nth_error uploadList (ref t) = Some f /\
    src (file t) = src f /\
    dest (file t) = dest f /\
    relativePath (file t) = relativePath f.

(** No transfer has failed, and none will be retried. *)
Definition Calm (s : State) : Prop :=
  timers s = [] /\
  fatals (trace s) = [] /\
  started (trace s) = first_attempts (trace s) /\
  Forall (fun t => retries (file t) = 0) (q_tasks s).

(** The paths handed to [rimraf] or to [fs.unlink], oldest first. *)
Fixpoint deletions (tr : Trace) : list string :=
  match tr with
  | [] => []
  | Rimraf p _ :: tr' => p :: deletions tr'
  | Unlink p _ :: tr' => p :: deletions tr'
  | _ :: tr' => deletions tr'
  end.

(** The elements of [l] that [mask] marks, in order. *)
Fixpoint pick {A : Type} (mask : list bool) (l : list A) : list A :=
  match mask, l with
  | b :: mask', x :: l' => if b then x :: pick mask' l' else pick mask' l'
  | _, _ => []
  end.

(** ** [initialize] (lines 476-512) *)

(** The fields of [config] that only [initialize] reads.  An absent field
    and an empty string are both falsy. *)
Record Credentials := mkCredentials {
  gcsKeyPath : option string;
  gcsProjectId : option string
}.

Definition truthy (v : option string) : bool :=
  match v with
  | Some s => negb (String.eqb s "")
  | None => false
  end.

(** The [storageConfig] object of lines 478-489. *)
Record StorageConfig := mkStorageConfig {
  keyFilename : option string;
  projectId : option string
}.

(** The client library.  [new Storage(storageConfig)] and
    [storage.bucket(name)] return or throw; [bucket.exists(callback)]
    throws or keeps the callback for later. *)
Class Cloud := {
  new_Storage : StorageConfig -> Try StorageClient;
  storage_bucket : StorageClient -> string -> Try BucketHandle;
  bucket_exists : BucketHandle -> Try unit
}.

(** What [bucket.exists] hands to its callback: [err], by its message, or
    [exists]. *)
Inductive Existence : Type :=
| ExistsError (message : string)
| Exists (found : bool).

(** The calls that [initialize] makes on the logger and on [cb]. *)
Inductive InitEvent : Type :=
| LoggerInfo (msg : string)
| InitCb (err : option Exn).

Fixpoint answers (tr : list InitEvent) : list (option Exn) :=
  match tr with
  | [] => []
  | InitCb e :: tr' => e :: answers tr'
  | _ :: tr' => answers tr'
  end.

(** What a call of [initialize] leaves behind when it returns: the
    module's variables, and either the calls made or the callback of
    [bucket.exists] still to come. *)
Inductive Connection : Type :=
| Answered (m : GcsModule) (tr : list InitEvent)
| Asked (m : GcsModule).

Section Initialize.

Context `{Cloud}.

Definition storageConfig_of (keys : Credentials) : StorageConfig :=
  {| keyFilename := if truthy (gcsKeyPath keys) then gcsKeyPath keys else None;
     projectId := if truthy (gcsProjectId keys) then gcsProjectId keys else None |}.

(** [initialize], up to its return. *)
Definition initialize (config : Config) (keys : Credentials) (m : GcsModule)
  : Connection :=
  if negb (String.eqb (gcsBucket config) "") then
    let storageConfig := storageConfig_of keys in
    let failed m e :=
      Answered m [InitCb (Some ("Failed to initialize GCS: " +:+ e))] in
    match new_Storage storageConfig with
    | inl e => failed m e
    | inr st =>
        let m := {| storage := Some st; bucket := bucket m |} in
        match storage_bucket st (gcsBucket config) with
        | inl e => failed m e
        | inr b =>
            let m := {| storage := storage m; bucket := Some b |} in
            match bucket_exists b with
            | inl e => failed m e
            | inr _ => Asked m
            end
        end
    end
  else Answered m [InitCb None].

(** The callback given to [bucket.exists] (lines 496-505). *)
Definition exists_callback (config : Config) (answer : Existence)
  : list InitEvent :=
  match answer with
  | ExistsError message =>
      [InitCb (Some ("Cannot connect to GCS: " +:+ message))]
  | Exists false =>
      [InitCb (Some ("GCS bucket '" +:+ gcsBucket config +:+
                     "' does not exist or is not accessible"))]
  | Exists true =>
      [LoggerInfo ("Connected to GCS bucket: " +:+ gcsBucket config);
       InitCb None]
  end.

(** [initialize] and, when [bucket.exists] has kept its callback, the
    call of that callback with [answer]. *)
Definition connect (config : Config) (keys : Credentials) (m : GcsModule)
           (answer : Existence) : GcsModule * list InitEvent :=
  match initialize config keys m with
  | Answered m' tr => (m', tr)
  | Asked m' => (m', exists_callback config answer)
  end.

End Initialize.

(** The number of write streams created for the task [r]. *)
Definition attempts (r : nat) (tr : Trace) : nat :=
  count_occ Nat.eq_dec (started tr) r.

(** Every task has had as many write streams as it has retries behind
    it, and one more while it is with a worker. *)
Definition Tally (s : State) : Prop :=
  Forall (fun t => attempts (ref t) (trace s) = retries (file t))
         (q_tasks s ++ map snd (timers s)) /\
  Forall (fun t => attempts (ref t) (trace s) = S (retries (file t)))
         (streams s) /\
  forall r, attempts r (trace s) <= S MAX_RETRIES.

(** ** More of the small environment *)
Module Samples.

(** The state of the batch of the report after [ls]. *)
Definition report_after (ls : list Label) : State :=
  match @batch_run Demo.steady Demo.disk Demo.config true Demo.reports ls with
  | Some s => s
  | None => Demo.reports
  end.

(** The second file of the report, with [n] retries behind it. *)
Definition stats (n : nat) : Task :=
  {| ref := 1;
     file := {| src := "/data/odm_report/stats.json";
                dest := "task1/odm_report/stats.json";
                relativePath := "odm_report/stats.json"; retries := n |} |}.

(** The first file of the report fails for good while the second waits
    for its first retry. *)
Definition aborted : list Label :=
  Immediate :: StreamError 1 "reset" :: Demo.failing 5 ++
  [StreamError 0 "reset"].

(** The batch of the archive listed twice. *)
Definition twice : State :=
  match @uploadPaths Demo.steady Demo.ready Demo.config Demo.disk "/data" ""
                     "task1" ["all.zip"; "all.zip"]%string true with
  | Queued s => s
  | _ => new_queue []
  end.

(** The batch of the report on the disk where its second file vanishes,
    and what is left of it when the exception of [fs.statSync] has left
    the first callback of the event loop. *)
Definition fleeting : State :=
  match @uploadPaths Demo.racy Demo.ready Demo.config Demo.shrinking "/data"
                     "" "task1" ["odm_report"%string] true with
  | Queued s => s
  | _ => new_queue []
  end.

Definition left_behind : State :=
  match @step Demo.racy Demo.shrinking Demo.config true 2 Immediate
              fleeting with
  | Some turn => landing turn
  | None => fleeting
  end.

(** A client library whose calls all return. *)
Definition online : Cloud :=
  {| new_Storage := fun _ => inr TheStorage;
     storage_bucket := fun _ _ => inr TheBucket;
     bucket_exists := fun _ => inr tt |}.

Definition keys : Credentials :=
  {| gcsKeyPath := Some "/etc/gcs.json"%string; gcsProjectId := None |}.

End Samples.

(** ** The options of ODM (libs/odmInfo.js, lines 1-440)

    [getVersion], [getEngine], [getOptions], [supportsOption],
    [initialize] and [filterOptions], with the module's variables
    [odmOptions], [odmVersion] and [engine].

    Strings are ASCII.  JavaScript's numbers with their arithmetic and
    their conversions from and to strings, [JSON.parse], [JSON.stringify]
    and the memory of the host are parameters.  The object that
    [odmRunner.getJsonOptions] hands over lists, for each option of ODM, the
    fields that the helper script prints, each of them a string when it is
    there. *)
Module OdmInfo.

(** JavaScript's numbers. *)
Class Numbers := {
  Num : Type;
  lit : string -> Num;             (* the number that a literal denotes *)
  nan : Num;
  num_eqb : Num -> Num -> bool;    (* a === b *)
  num_leb : Num -> Num -> bool;    (* a <= b *)
  num_ltb : Num -> Num -> bool;    (* a < b *)
  num_truthy : Num -> bool;        (* neither 0 nor NaN *)
  isInteger : Num -> bool;         (* Number.isInteger *)
  isFinite : Num -> bool;          (* Number.isFinite *)
  num_min : Num -> Num -> Num;     (* Math.min *)
  num_max : Num -> Num -> Num;     (* Math.max *)
  num_floor : Num -> Num;          (* Math.floor *)
  num_sub : Num -> Num -> Num;
  num_mul : Num -> Num -> Num;
  num_div : Num -> Num -> Num;
  parseInt : string -> Num;
  parseFloat : string -> Num;
  Number_ : string -> Num;         (* Number(s) *)
  String_ : Num -> string;         (* String(n) *)
  toFixed1 : Num -> string         (* n.toFixed(1) *)
}.

Section Values.

Context {numbers : Numbers}.

(** The values of a request, as [JSON.parse] builds them; [JUndefined]
    is what reading an absent property gives.  An object lists each of
    its keys once. *)
#[warnings="-register-all"]
Inductive Json : Type :=
| JUndefined
| JNull
| JBool (b : bool)
| JNum (n : Num)
| JStr (s : string)
| JArr (items : list Json)
| JObj (fields : list (string * Json)).

(** ToString. *)
Fixpoint to_string (v : Json) : string :=
  match v with
  | JUndefined => "undefined"
  | JNull => "null"
  | JBool true => "true"
  | JBool false => "false"
  | JNum n => String_ n
  | JStr s => s
  | JArr items =>
      (fix join (l : list Json) : string :=
         match l with
         | [] => ""
         | x :: l' =>
             let item := match x with
                         | JUndefined | JNull => ""
                         | _ => to_string x
                         end in
             match l' with
             | [] => item
             | _ => item +:+ "," +:+ join l'
             end
         end) items
  | JObj _ => "[object Object]"
  end%string.

(** ToNumber. *)
Definition to_number (v : Json) : Num :=
  match v with
  | JUndefined => nan
  | JNull => lit "0"
  | JBool true => lit "1"
  | JBool false => lit "0"
  | JNum n => n
  | JStr s => Number_ s
  | JArr _ | JObj _ => Number_ (to_string v)
  end.

(** [a === b].  Two arrays or two objects are equal when they are one
    object, which a value of a request and a value of [odmOptions] never
    are. *)
Definition strict_eq (a b : Json) : bool :=
  match a, b with
  | JUndefined, JUndefined => true
  | JNull, JNull => true
  | JBool x, JBool y => Bool.eqb x y
  | JNum x, JNum y => num_eqb x y
  | JStr x, JStr y => String.eqb x y
  | _, _ => false
  end.

(** [o.name], [o.value]: reading a property of a value that is neither
    [null] nor [undefined]. *)
Fixpoint field (k : string) (fields : list (string * Json)) : Json :=
  match fields with
  | [] => JUndefined
  | (k', v) :: fields' => if String.eqb k' k then v else field k fields'
  end.

Definition property (k : string) (v : Json) : Json :=
  match v with
  | JObj fields => field k fields
  | _ => JUndefined
  end.

End Values.

Arguments Json {_}.

(** [JSON.parse]; [JSON.stringify] on the array of errors of
    [filterOptions], each with its [name] and its [error]; the message of
    the [TypeError] for reading a property of [null] or [undefined]; and
    [os.totalmem()]. *)
Class Host {numbers : Numbers} := {
  JSON_parse : string -> Try Json;
  JSON_stringify_errors : list (string * string) -> string;
  unreadable : Json -> string -> Exn;
  totalmem : Num
}.

(** *** Strings *)

Definition is_space (c : ascii) : bool :=
  let n := nat_of_ascii c in
  ((9 <=? n) && (n <=? 13)) || (n =? 32).

Fixpoint trim_start (s : string) : string :=
  match s with
  | EmptyString => EmptyString
  | String c s' => if is_space c then trim_start s' else s
  end.

Fixpoint trim_end (s : string) : string :=
  match s with
  | EmptyString => EmptyString
  | String c s' =>
      match trim_end s' with
      | EmptyString => if is_space c then EmptyString else String c EmptyString
      | t => String c t
      end
  end.

(** [String.prototype.trim]. *)
Definition trim (s : string) : string := trim_end (trim_start s).

(** [option.replace(/^--/, "")]. *)
Definition strip_dashes (s : string) : string :=
  match s with
  | String "-" (String "-" s') => s'
  | _ => s
  end.

Definition is_angle (c : ascii) : bool :=
  Ascii.eqb c "<" || Ascii.eqb c ">".

(** [s.replace(/^[<>]/g, "")]. *)
Definition strip_angle_start (s : string) : string :=
  match s with
  | String c s' => if is_angle c then s' else s
  | EmptyString => EmptyString
  end.

(** [s.replace(/[<>]$/g, "")]. *)
Fixpoint strip_angle_end (s : string) : string :=
  match s with
  | EmptyString => EmptyString
  | String c EmptyString => if is_angle c then EmptyString else s
  | String c s' => String c (strip_angle_end s')
  end.

(** Every apostrophe replaced by a double quote (line 129). *)
Fixpoint double_quotes (s : string) : string :=
  match s with
  | EmptyString => EmptyString
  | String c s' =>
      String (if Ascii.eqb c "'" then ascii_of_nat 34 else c) (double_quotes s')
  end.

(** [s] without the prefix [p], when it starts with it. *)
Fixpoint after_prefix (p s : string) : option string :=
  match p, s with
  | EmptyString, _ => Some s
  | String a p', String b s' => if Ascii.eqb a b then after_prefix p' s' else None
  | String _ _, EmptyString => None
  end.

(** *** What the runner reports and what the module keeps *)

(** The fields of one option in the object of [odmRunner.getJsonOptions]. *)
Record Values := mkValues {
  v_help : option string;
  v_metavar : option string;
  v_type : option string;
  v_default : option string;
  v_choices : option string
}.

Inductive OptionType : Type := TInt | TFloat | TString | TBool | TEnum.

Section Module_.

Context {numbers : Numbers} {host : Host}.

(** The [domain] of an option: a string, or the array of its choices. *)
Inductive Domain : Type :=
| DomainText (s : string)
| DomainList (choices : list Json).

(** An element of [odmOptions]; [value] is a string (line 143). *)
Record OdmOption := mkOdmOption {
  name : string;
  type : OptionType;
  value : string;
  domain : Domain;
  help : string
}.

(** [let odmOptions = null; let odmVersion = null; let engine = null;]
    (lines 26-28).  [odmVersion] and [engine] hold whatever the runner
    hands over. *)
Record Vars := mkVars {
  odmOptions : option (list OdmOption);
  odmVersion : Json;
  engine : Json
}.

(** ToBoolean. *)
Definition truthy (v : Json) : bool :=
  match v with
  | JUndefined | JNull => false
  | JBool b => b
  | JNum n => num_truthy n
  | JStr s => negb (String.eqb s EmptyString)
  | JArr _ | JObj _ => true
  end.

(** A call of one of the lookups: the callback has been called before
    the function returns, or the runner has been asked and holds the
    callback. *)
Inductive Lookup (A : Type) : Type :=
| Answer (r : A)
| Asking.

Arguments Answer {A} r.
Arguments Asking {A}.

(** *** [getVersion] and [getEngine] (lines 37-59) *)

Definition getVersion (m : Vars) : Lookup (option Exn * Json) :=
  if truthy (odmVersion m) then Answer (None, odmVersion m) else Asking.

(** The callback given to [odmRunner.getVersion]: the new variables and
    the arguments of [done]. *)
Definition getVersion_callback (err : option Exn) (version : Json) (m : Vars)
  : Vars * (option Exn * Json) :=
  ({| odmOptions := odmOptions m; odmVersion := version; engine := engine m |},
   (None, version)).






(** *** [getOptions] (lines 70-163) *)

(** The options that are of no use to the end user (lines 82-87). *)
Definition hidden : list string :=
  [ "-h"; "--project-path"; "--cmvs-maxImages"; "--time";
    "--zip-results"; "--pmvs-num-cores";
    "--start-with"; "--gcp"; "--images"; "--geo"; "--align";
    "--split-image-groups"; "--copy-to";
    "--rerun-all"; "--rerun";
    "--slam-config"; "--video"; "--version"; "name" ]%string.

Definition is_hidden (option : string) : bool :=
  existsb (String.eqb option) hidden.

(** The value of [values.choices] after lines 127-133, and the warning. *)
Inductive Choices : Type :=
| NoChoices                      (* absent, empty, or not an array *)
| ChoiceList (items : list Json).

Definition parse_choices (choices : option string)
  : Choices * list string :=
  match choices with
  | Some s =>
      if String.eqb s EmptyString then (NoChoices, [])
      else
        match JSON_parse (double_quotes s) with
        | inl _ => (NoChoices, [("Cannot parse choices: " +:+ s)%string])
        | inr (JArr items) => (ChoiceList items, [])
        | inr _ => (NoChoices, [])
        end
  | None => (NoChoices, [])
  end.

(** One turn of the loop of lines 79-148 on an option that is not
    hidden: the element pushed, and the warnings. *)
Definition describe (option : string) (values : Values)
  : OdmOption * list string :=
  let name := strip_dashes option in
  let help := match v_help values with Some s => s | None => EmptyString end in
  let domain :=
    match v_metavar values with
    | Some s => trim (strip_angle_end (strip_angle_start s))
    | None => EmptyString
    end in
  let declared :=
    trim (match v_type values with Some s => s | None => EmptyString end) in
  let '(type, value) :=
    if String.eqb declared "<type 'int'>" || String.eqb declared "<class 'int'>"
    then (TInt, match v_default values with
                | Some d => String_ (parseInt d)
                | None => String_ (lit "0")
                end)
    else if String.eqb declared "<type 'float'>" ||
            String.eqb declared "<class 'float'>"
    then (TFloat, match v_default values with
                  | Some d => String_ (parseFloat d)
                  | None => String_ (lit "0.0")
                  end)
    else (TString, match v_default values with
                   | Some d => trim d
                   | None => EmptyString
                   end) in
  let '(type, value) :=
    match v_default values with
    | Some d =>
        if String.eqb d "True" then (TBool, "true"%string)
        else if String.eqb d "False" then (TBool, "false"%string)
        else (type, value)
    | None => (type, value)
    end in
  let '(choices, warnings) := parse_choices (v_choices values) in
  match choices with
  | ChoiceList items =>
      let items :=
        if existsb (strict_eq (JStr value)) items then items
        else JStr value :: items in
      ({| name := name; type := TEnum; value := value;
          domain := DomainList items; help := help |}, warnings)
  | NoChoices =>
      ({| name := name; type := type; value := value;
          domain := DomainText domain; help := help |}, warnings)
  end.

(** The loop, over the properties of [json] in the order of [for ... in]. *)
Fixpoint describe_all (json : list (string * Values))
  : list OdmOption * list string :=
  match json with
  | [] => ([], [])
  | (option, values) :: json' =>
      if is_hidden option then describe_all json'
      else
        let '(o, warnings) := describe option values in
        let '(os, warnings') := describe_all json' in
        (o :: os, warnings ++ warnings')
  end.

Definition getOptions (m : Vars) : Lookup (Exn + list OdmOption) :=
  match odmOptions m with
  | Some options => Answer (inr options)
  | None => Asking
  end.

(** The callback given to [odmRunner.getJsonOptions]: the new variables,
    the warnings, and what [done] receives, [done(err)] or
    [done(null, odmOptions)]. *)
Definition getOptions_callback (answer : Exn + list (string * Values))
           (m : Vars) : Vars * list string * (Exn + list OdmOption) :=
  match answer with
  | inl err => (m, [], inl err)
  | inr json =>
      let '(options, warnings) := describe_all json in
      ({| odmOptions := Some options;
          odmVersion := odmVersion m;
          engine := engine m |},
       warnings, inr options)
  end.

(** *** [supportsOption] (lines 61-68) *)

(** What [cb] receives once [getOptions] has answered: [cb(err)] or
    [cb(null, found)]. *)
Definition supportsOption_callback (optName : string)
           (answer : Exn + list OdmOption) : Exn + bool :=
  match answer with
  | inl err => inl err
  | inr json =>
      inr (existsb (fun opt => String.eqb (name opt) optName) json)
  end.

(** *** [initialize] (lines 30-35)

    [async.parallel] over [getOptions] and [getVersion]: each result goes
    to its place in [results]; the final callback is called with the first
    error, or when both lookups have completed, and once only. *)
Record Parallel := mkParallel {
  results : option (list OdmOption) * option Json;
  completed : nat;
  calls : list (option Exn * (option (list OdmOption) * option Json))
}.

Inductive Completion : Type :=
| OptionsCompleted (r : Exn + list OdmOption)
| VersionCompleted (err : option Exn) (version : Json).

(** The callback that [async.parallel] hands to a task. *)
Definition complete (c : Completion) (p : Parallel) : Parallel :=
  let '(err, results) :=
    match c with
    | OptionsCompleted (inl e) => (Some e, (None, snd (results p)))
    | OptionsCompleted (inr options) =>
        (None, (Some options, snd (results p)))
    | VersionCompleted err version =>
        (err, (fst (results p), Some version))
    end in
  match err with
  | Some e =>
      {| results := results;
         completed := completed p;
         calls := match calls p with
                  | [] => [(Some e, results)]
                  | _ => calls p
                  end |}
  | None =>
      {| results := results;
         completed := S (completed p);
         calls := if S (completed p) =? 2
                  then match calls p with
                       | [] => [(None, results)]
                       | _ => calls p
                       end
                  else calls p |}
  end.

(** Which of the two answers of the runner comes first, when both
    lookups wait for one. *)
Inductive Arrival : Type := OptionsFirst | VersionFirst.

(** [initialize]: the lookups whose result is known complete at once, in
    the order of the array; the others when the runner answers.  The
    result: the variables, the warnings, and the calls of [done]. *)
Definition initialize (m : Vars)
           (runner_options : Exn + list (string * Values))
           (runner_version : option Exn * Json) (arrival : Arrival)
  : Vars * list string * Parallel :=
  let p := {| results := (None, None); completed := 0; calls := [] |} in
  let options_arrive (st : Vars * list string * Parallel) :=
    let '(m, warnings, p) := st in
    let '(m', warnings', r) := getOptions_callback runner_options m in
    (m', warnings ++ warnings', complete (OptionsCompleted r) p) in
  let version_arrives (st : Vars * list string * Parallel) :=
    let '(m, warnings, p) := st in
    let '(m', (err, version)) :=
      getVersion_callback (fst runner_version) (snd runner_version) m in
    (m', warnings, complete (VersionCompleted err version) p) in
  match getOptions m, getVersion m with
  | Answer r, Answer (err, version) =>
      (m, [], complete (VersionCompleted err version)
                       (complete (OptionsCompleted r) p))
  | Answer r, Asking =>
      version_arrives (m, [], complete (OptionsCompleted r) p)
  | Asking, Answer (err, version) =>
      options_arrive (m, [], complete (VersionCompleted err version) p)
  | Asking, Asking =>
      match arrival with
      | OptionsFirst => version_arrives (options_arrive (m, [], p))
      | VersionFirst => options_arrive (version_arrives (m, [], p))
      end
  end.

(** *** [filterOptions] (lines 167-439) *)

(** [config.maxConcurrency]: a number, when it is set. *)
Record Limits := mkLimits {
  maxConcurrency : option Num
}.

(** [typeConversion[type](value)] (lines 183-200). *)
Definition typeConversion (t : OptionType) (value : Json) : Try Json :=
  match t with
  | TFloat => inr (JNum (parseFloat (to_string value)))
  | TInt => inr (JNum (parseInt (to_string value)))
  | TBool =>
      if strict_eq value (JStr "true") || strict_eq value (JStr "1")
      then inr (JBool true)
      else if strict_eq value (JStr "false") || strict_eq value (JStr "0")
      then inr (JBool false)
      else match value with
           | JBool _ => inr value
           | _ => inl ("Cannot convert " +:+ to_string value +:+
                       " to boolean")%string
           end
  | TString | TEnum => inr value
  end.

(** The regular expressions of [domainChecks] (lines 202-266), by what
    they capture. *)
Inductive Oper : Type := Ge | Gt | Lt | Le.

Inductive DomainCheck : Type :=
| SignKind (sign : option bool) (is_integer : bool)
    (* /^(positive |negative )?(integer|float)$/; [Some true]: positive *)
| Percent
| Range (is_float : bool) (lower upper : string)
| Bound (is_float : bool) (oper : Oper) (bound : string)
| IsJson
| Anything.

(** [[\-\+\.\d]]. *)
Definition in_class (c : ascii) : bool :=
  Ascii.eqb c "-" || Ascii.eqb c "+" || Ascii.eqb c "." ||
  (let n := nat_of_ascii c in (48 <=? n) && (n <=? 57)).

Fixpoint span_class (s : string) : string * string :=
  match s with
  | EmptyString => (EmptyString, EmptyString)
  | String c s' =>
      if in_class c
      then let '(a, b) := span_class s' in (String c a, b)
      else (EmptyString, s)
  end.

Fixpoint all_class (s : string) : bool :=
  match s with
  | EmptyString => true
  | String c s' => in_class c && all_class s'
  end.

(** [(float|integer)] followed by [sep]. *)
Definition after_kind (sep domain : string) : option (bool * string) :=
  match after_prefix ("float" +:+ sep) domain with
  | Some rest => Some (true, rest)
  | None =>
      match after_prefix ("integer" +:+ sep) domain with
      | Some rest => Some (false, rest)
      | None => None
      end
  end.

Definition match_sign_kind (domain : string) : option DomainCheck :=
  if String.eqb domain "integer" then Some (SignKind None true)
  else if String.eqb domain "float" then Some (SignKind None false)
  else if String.eqb domain "positive integer"
  then Some (SignKind (Some true) true)
  else if String.eqb domain "positive float"
  then Some (SignKind (Some true) false)
  else if String.eqb domain "negative integer"
  then Some (SignKind (Some false) true)
  else if String.eqb domain "negative float"
  then Some (SignKind (Some false) false)
  else None.

Definition match_range (domain : string) : option DomainCheck :=
  match after_kind ": " domain with
  | Some (is_float, rest) =>
      let '(lower, rest) := span_class rest in
      match lower, after_prefix " <= x <= " rest with
      | String _ _, Some (String c upper) =>
          if all_class (String c upper)
          then Some (Range is_float lower (String c upper))
          else None
      | _, _ => None
      end
  | None => None
  end.

Definition match_bound (domain : string) : option DomainCheck :=
  match after_kind " " domain with
  | Some (is_float, rest) =>
      let oper :=
        match after_prefix ">= " rest with
        | Some b => Some (Ge, b)
        | None =>
            match after_prefix "> " rest with
            | Some b => Some (Gt, b)
            | None =>
                match after_prefix "< " rest with
                | Some b => Some (Lt, b)
                | None =>
                    match after_prefix "<= " rest with
                    | Some b => Some (Le, b)
                    | None => None
                    end
                end
            end
        end in
      match oper with
      | Some (o, String c bound) =>
          if all_class (String c bound)
          then Some (Bound is_float o (String c bound))
          else None
      | _ => None
      end
  | None => None
  end.

(** [domainChecks.find(dc => matches = domain.match(dc.regex))]. *)
Definition find_check (domain : string) : option DomainCheck :=
  match match_sign_kind domain with
  | Some c => Some c
  | None =>
      if String.eqb domain "percent" then Some Percent
      else
        match match_range domain with
        | Some c => Some c
        | None =>
            match match_bound domain with
            | Some c => Some c
            | None =>
                if String.eqb domain "json" then Some IsJson
                else if String.eqb domain "string" || String.eqb domain "path"
                then Some Anything
                else None
            end
        end
  end.

(** [value >= bound] and the like, [bound] a number. *)
Definition ge (value : Json) (bound : Num) : bool :=
  num_leb bound (to_number value).

Definition gt (value : Json) (bound : Num) : bool :=
  num_ltb bound (to_number value).

Definition le (value : Json) (bound : Num) : bool :=
  num_leb (to_number value) bound.

Definition lt (value : Json) (bound : Num) : bool :=
  num_ltb (to_number value) bound.

(** [dc.validate(matches, value)]. *)
Definition validate (c : DomainCheck) (value : Json) : bool :=
  match c with
  | SignKind (Some true) _ => ge value (lit "0")
  | SignKind (Some false) _ => le value (lit "0")
  | SignKind None true =>
      match value with JNum n => isInteger n | _ => false end
  | SignKind None false =>
      match value with JNum n => isFinite n | _ => false end
  | Percent => ge value (lit "0") && le value (lit "100")
  | Range is_float lower upper =>
      let parseFunc := if is_float then parseFloat else parseInt in
      ge value (parseFunc lower) && le value (parseFunc upper)
  | Bound is_float oper bound =>
      let parseFunc := if is_float then parseFloat else parseInt in
      match oper with
      | Ge => ge value (parseFunc bound)
      | Gt => gt value (parseFunc bound)
      | Le => le value (parseFunc bound)
      | Lt => lt value (parseFunc bound)
      end
  | IsJson =>
      match value with
      | JStr s => match JSON_parse s with inr _ => true | inl _ => false end
      | _ => false
      end
  | Anything => true
  end.

(** [checkDomain] (lines 268-282): the message of the error thrown, if
    any. *)
Definition checkDomain (d : Domain) (value : Json) : option Exn :=
  match d with
  | DomainList choices =>
      if existsb (strict_eq value) choices then None
      else Some ("Invalid value " +:+ to_string value +:+
                 " (not in enum)")%string
  | DomainText s =>
      match find_check s with
      | Some dc =>
          if validate dc value then None
          else Some ("Invalid value " +:+ to_string value +:+
                     " (out of range)")%string
      | None =>
          Some ("Domain value cannot be handled: '" +:+ s +:+ "' : '" +:+
                to_string value +:+ "'")%string
      end
  end.

(** [if (odmOption.domain)]: an array is truthy, a string unless empty. *)
Definition has_domain (d : Domain) : bool :=
  match d with
  | DomainList _ => true
  | DomainText s => negb (String.eqb s EmptyString)
  end.

(** The five options that the function follows, as the [...IsAnOption]
    and the [...Found] variables of lines 285-294. *)
Record Flags := mkFlags {
  f_maxConcurrency : bool;
  f_tiles : bool;
  f_cog : bool;
  f_matcherNeighbors : bool;
  f_orthophotoResolution : bool
}.

Definition no_flag : Flags := mkFlags false false false false false.

(** The flag of the option [n], when it is one of the five, set. *)
Definition mark (n : string) (f : Flags) : Flags :=
  {| f_maxConcurrency :=
       if String.eqb n "max-concurrency" then true else f_maxConcurrency f;
     f_tiles := if String.eqb n "tiles" then true else f_tiles f;
     f_cog := if String.eqb n "cog" then true else f_cog f;
     f_matcherNeighbors :=
       if String.eqb n "matcher-neighbors" then true
       else f_matcherNeighbors f;
     f_orthophotoResolution :=
       if String.eqb n "orthophoto-resolution" then true
       else f_orthophotoResolution f |}.

(** The names of the five options, in the order of lines 359-432, and
    the flag that goes with a name. *)
Definition five : list string :=
  [ "max-concurrency"; "tiles"; "cog"; "matcher-neighbors";
    "orthophoto-resolution" ]%string.

Definition flag (n : string) (f : Flags) : bool :=
  if String.eqb n "max-concurrency" then f_maxConcurrency f
  else if String.eqb n "tiles" then f_tiles f
  else if String.eqb n "cog" then f_cog f
  else if String.eqb n "matcher-neighbors" then f_matcherNeighbors f
  else if String.eqb n "orthophoto-resolution" then f_orthophotoResolution f
  else false.

(** The values that lines 402-432 give to four of them. *)
Definition defaults : list (string * Json) :=
  [ ("tiles", JBool true); ("cog", JBool true);
    ("matcher-neighbors", JNum (lit "8"));
    ("orthophoto-resolution", JNum (lit "0.1")) ]%string.

(** The variables of the loop of lines 296-357. *)
Record Scan := mkScan {
  result : list (string * Json);
  errors : list (string * string);
  isAnOption : Flags;
  found : Flags
}.

(** [options.find(o => o.name === name)].  Reading [o.name] throws when
    [o] is [null] or [undefined]. *)
Fixpoint find_option (n : string) (options : list Json) : Try (option Json) :=
  match options with
  | [] => inr None
  | o :: options' =>
      match o with
      | JNull | JUndefined => inl (unreadable o "name")
      | _ =>
          if strict_eq (property "name" o) (JStr n) then inr (Some o)
          else find_option n options'
      end
  end.

(** The name of an element of a request, when it is an object with a
    string for its name. *)
Definition named (o : Json) : option string :=
  match o with
  | JObj fields =>
      match field "name" fields with
      | JStr s => Some s
      | _ => None
      end
  | _ => None
  end.

(** [Math.min(value, config.maxConcurrency)], when the limit is truthy. *)
Definition capped (limits : Limits) (value : Json) : Json :=
  match maxConcurrency limits with
  | Some cap =>
      if num_truthy cap then JNum (num_min (to_number value) cap) else value
  | None => value
  end.

(** The [try] block of lines 309-352: the entry of the result, or the
    message of the error caught. *)
Definition accept (limits : Limits) (odmOption : OdmOption) (opt : Json)
  : Try (string * Json) :=
  match typeConversion (type odmOption) (property "value" opt) with
  | inl e => inl e
  | inr value =>
      match (if has_domain (domain odmOption)
             then checkDomain (domain odmOption) value else None) with
      | Some e => inl e
      | None =>
          let value :=
            if String.eqb (name odmOption) "max-concurrency"
            then capped limits value else value in
          inr (name odmOption, value)
      end
  end.

(** One turn of the loop; [inl] when [options.find] throws. *)
Definition scan_option (limits : Limits) (options : list Json) (sc : Scan)
           (odmOption : OdmOption) : Try Scan :=
  let isAnOption := mark (name odmOption) (isAnOption sc) in
  match find_option (name odmOption) options with
  | inl e => inl e
  | inr None =>
      inr {| result := result sc; errors := errors sc;
             isAnOption := isAnOption; found := found sc |}
  | inr (Some opt) =>
      match accept limits odmOption opt with
      | inr entry =>
          inr {| result := result sc ++ [entry]; errors := errors sc;
                 isAnOption := isAnOption;
                 found := mark (name odmOption) (found sc) |}
      | inl e =>
          inr {| result := result sc;
                 errors := errors sc ++ [(name odmOption, e)];
                 isAnOption := isAnOption; found := found sc |}
      end
  end.

Fixpoint scan (limits : Limits) (options : list Json)
         (odmOptions : list OdmOption) (sc : Scan) : Try Scan :=
  match odmOptions with
  | [] => inr sc
  | odmOption :: odmOptions' =>
      match scan_option limits options sc odmOption with
      | inl e => inl e
      | inr sc' => scan limits options odmOptions' sc'
      end
  end.

(** The options of ODM that the request sets to a value that is
    refused, each with the message of its error. *)
Definition refusals (limits : Limits) (options : list Json)
           (odmOptions : list OdmOption) : list (string * string) :=
  flat_map (fun odmOption =>
              match find_option (name odmOption) options with
              | inr (Some opt) =>
                  match accept limits odmOption opt with
                  | inl e => [(name odmOption, e)]
                  | inr _ => []
                  end
              | _ => []
              end) odmOptions.

(** [result.find(r => r.name === n)]. *)
Fixpoint find_entry (n : string) (result : list (string * Json))
  : option Json :=
  match result with
  | [] => None
  | (n', v) :: result' =>
      if String.eqb n' n then Some v else find_entry n result'
  end.

(** The value of the first entry named [n] replaced by its image. *)
Fixpoint update_entry (n : string) (f : Json -> Json)
         (result : list (string * Json)) : list (string * Json) :=
  match result with
  | [] => []
  | (n', v) :: result' =>
      if String.eqb n' n then (n', f v) :: result'
      else (n', v) :: update_entry n f result'
  end.

(** [config.maxConcurrency && config.maxConcurrency > 0]. *)
Definition positive_limit (limits : Limits) : option Num :=
  match maxConcurrency limits with
  | Some cap =>
      if num_truthy cap && num_ltb (lit "0") cap then Some cap else None
  | None => None
  end.

(** Lines 359-400: the entry for [max-concurrency], and the line for the
    logger. *)
Definition settle_concurrency (limits : Limits) (sc : Scan)
  : list (string * Json) * list string :=
  let resolution :=
    match find_entry "orthophoto-resolution" (result sc) with
    | Some v => parseFloat (to_string v)
    | None => lit "5.0"
    end in
  if negb (f_maxConcurrency (found sc)) && f_maxConcurrency (isAnOption sc)
  then
    let '(calculated, info) :=
      match positive_limit limits with
      | Some cap => (cap, [])
      | None =>
          let totalMemoryGB :=
            num_div totalmem
                    (num_mul (num_mul (lit "1024") (lit "1024")) (lit "1024")) in
          let memoryPerThreadGB :=
            if num_leb resolution (lit "0.2") then lit "2.5" else lit "1.2" in
          let systemReserveGB :=
            if num_leb resolution (lit "0.2") then lit "4" else lit "2" in
          let availableMemoryGB := num_sub totalMemoryGB systemReserveGB in
          let calculated :=
            num_max (lit "1")
                    (num_floor (num_div availableMemoryGB memoryPerThreadGB)) in
          (calculated,
           [("Auto-calculated max-concurrency: " +:+ String_ calculated +:+
             " (resolution: " +:+ String_ resolution +:+
             " cm/pixel, total memory: " +:+ toFixed1 totalMemoryGB +:+
             "GB, available: " +:+ toFixed1 availableMemoryGB +:+
             "GB)")%string])
      end in
    (if num_truthy calculated
     then result sc ++ [("max-concurrency"%string, JNum calculated)]
     else result sc,
     info)
  else
    match (if f_maxConcurrency (found sc) then positive_limit limits
           else None) with
    | Some cap =>
        (update_entry "max-concurrency"
                      (fun v => JNum (num_min (to_number v) cap))
                      (result sc), [])
    | None => (result sc, [])
    end.

(** Lines 402-432: the options that are switched on unless the request
    sets them. *)
Definition fill_defaults (sc : Scan) (result : list (string * Json))
  : list (string * Json) :=
  let add (flag : Flags -> bool) (n : string) (v : Json)
          (result : list (string * Json)) :=
    if negb (flag (found sc)) && flag (isAnOption sc)
    then result ++ [(n, v)] else result in
  let result := add f_tiles "tiles"%string (JBool true) result in
  let result := add f_cog "cog"%string (JBool true) result in
  let result := add f_matcherNeighbors "matcher-neighbors"%string
                    (JNum (lit "8")) result in
  add f_orthophotoResolution "orthophoto-resolution"%string
      (JNum (lit "0.1")) result.

(** What a call of [filterOptions] does: the assertion fails and its
    exception leaves the function, or [done] is called, after the lines
    for the logger, with an error or with the result. *)
Inductive Filtered : Type :=
| Thrown (e : Exn)
| Done (info : list string) (r : Exn + list (string * Json)).

(** Lines 171-172. *)
Definition request (options : Json) : Try (list Json) :=
  let as_array (v : Json) :=
    match v with
    | JArr items => items
    | _ => []
    end in
  match options with
  | JStr s =>
      match JSON_parse s with
      | inl e => inl e
      | inr v => inr (as_array v)
      end
  | _ => inr (as_array options)
  end.

Definition filterOptions (m : Vars) (limits : Limits) (options : Json)
  : Filtered :=
  match odmOptions m with
  | None =>
      Thrown "odmOptions is not set. Have you initialized odmOptions properly?"%string
  | Some odmOptions =>
      match request options with
      | inl e => Done [] (inl e)
      | inr options =>
          match scan limits options odmOptions
                     {| result := []; errors := [];
                        isAnOption := no_flag; found := no_flag |} with
          | inl e => Done [] (inl e)
          | inr sc =>
              let '(result, info) := settle_concurrency limits sc in
              let result := fill_defaults sc result in
              match errors sc with
              | [] => Done info (inr result)
              | _ => Done info (inl (JSON_stringify_errors (errors sc)))
              end
          end
      end
  end.

End Module_.

End OdmInfo.

(** ** A small host for the examples of the options

    Numbers are counted in thousandths, [None] standing for NaN; a number
    is read from its digits, with up to three decimals; [JSON.parse] reads
    an array of strings and nothing else. *)
Module Host1.

Import OdmInfo.

Definition digit (c : ascii) : option Z :=
  let n := nat_of_ascii c in
  if (48 <=? n) && (n <=? 57) then Some (Z.of_nat (n - 48)) else None.

(** The number that the leading digits of [s] spell, and what follows. *)
Fixpoint whole (s : string) (acc : option Z) : option Z * string :=
  match s with
  | EmptyString => (acc, s)
  | String c s' =>
      match digit c with
      | Some d =>
          whole s' (Some (10 * match acc with Some a => a | None => 0 end + d)%Z)
      | None => (acc, s)
      end
  end.

(** Up to three decimals, in thousandths. *)
Fixpoint decimals (s : string) (unit_ : Z) : Z :=
  match s with
  | EmptyString => 0
  | String c s' =>
      match digit c with
      | Some d => (d * unit_ + decimals s' (unit_ / 10))%Z
      | None => 0%Z
      end
  end.

Definition read (s : string) : option Z :=
  match whole s None with
  | (Some a, String "." rest) => Some (a * 1000 + decimals rest 100)%Z
  | (Some a, _) => Some (a * 1000)%Z
  | (None, _) => None
  end.

Definition read_whole (s : string) : option Z :=
  match whole s None with
  | (Some a, _) => Some (a * 1000)%Z
  | (None, _) => None
  end.

Definition write (n : option Z) : string :=
  match n with
  | None => "NaN"
  | Some z =>
      if (z mod 1000 =? 0)%Z then show (Z.to_nat (z / 1000))
      else show (Z.to_nat (z / 1000)) +:+ "." +:+ show (Z.to_nat (z mod 1000))
  end.

Definition lift (f : Z -> Z -> Z) (a b : option Z) : option Z :=
  match a, b with
  | Some x, Some y => Some (f x y)
  | _, _ => None
  end.

Definition test (f : Z -> Z -> bool) (a b : option Z) : bool :=
  match a, b with
  | Some x, Some y => f x y
  | _, _ => false
  end.

Definition thousandths : Numbers :=
  {| Num := option Z;
     lit := read;
     nan := None;
     num_eqb := test Z.eqb;
     num_leb := test Z.leb;
     num_ltb := test Z.ltb;
     num_truthy := fun n => match n with
                            | Some z => negb (z =? 0)%Z
                            | None => false
                            end;
     isInteger := fun n => match n with
                           | Some z => (z mod 1000 =? 0)%Z
                           | None => false
                           end;
     isFinite := fun n => match n with Some _ => true | None => false end;
     num_min := lift Z.min;
     num_max := lift Z.max;
     num_floor := fun n => match n with
                           | Some z => Some (z - z mod 1000)%Z
                           | None => None
                           end;
     num_sub := lift Z.sub;
     num_mul := lift (fun x y => x * y / 1000)%Z;
     num_div := fun a b => match a, b with
                           | Some x, Some y =>
                               if (y =? 0)%Z then None
                               else Some (x * 1000 / y)%Z
                           | _, _ => None
                           end;
     parseInt := read_whole;
     parseFloat := read;
     Number_ := fun s => if String.eqb s "" then Some 0%Z else read s;
     String_ := write;
     toFixed1 := write |}.

(** The strings between double quotes of [s], in order. *)
Fixpoint quoted (s : string) (inside : option string) : list string :=
  match s with
  | EmptyString => []
  | String c s' =>
      if Ascii.eqb c (ascii_of_nat 34) then
        match inside with
        | Some w => w :: quoted s' None
        | None => quoted s' (Some EmptyString)
        end
      else
        match inside with
        | Some w => quoted s' (Some (w +:+ String c EmptyString))
        | None => quoted s' None
        end
  end.

Definition parse (s : string) : Try (Json (numbers := thousandths)) :=
  match s with
  | String "[" _ => inr (JArr (map JStr (quoted s None)))
  | _ => inl "Unexpected token"%string
  end.

Definition host : Host (numbers := thousandths) :=
  {| JSON_parse := parse;
     JSON_stringify_errors :=
       fun errors =>
         String.concat "; " (map (fun e => fst e +:+ ": " +:+ snd e) errors);
     unreadable :=
       fun _ k => ("Cannot read properties of null (reading '" +:+ k +:+ "')")%string;
     totalmem := Some 17179869184000%Z |}.

(** What the runner reports for four options of ODM. *)
Definition reported : list (string * Values) :=
  [ ("--project-path",
     {| v_help := Some "Path to the project folder";
        v_metavar := Some "<path>"; v_type := None;
        v_default := None; v_choices := None |});
    ("--tiles",
     {| v_help := Some "Generate static tiles";
        v_metavar := None; v_type := None;
        v_default := Some "False"; v_choices := None |});
    ("--max-concurrency",
     {| v_help := Some "The maximum number of processes";
        v_metavar := Some "<positive integer>";
        v_type := Some "<class 'int'>";
        v_default := Some "4"; v_choices := None |});
    ("--feature-type",
     {| v_help := Some "Choose the algorithm for extracting keypoints";
        v_metavar := Some "<string>"; v_type := Some "<class 'str'>";
        v_default := Some "sift";
        v_choices := Some "['akaze', 'orb', 'sift']" |}) ]%string.

#[local] Existing Instance thousandths.
#[local] Existing Instance host.

Definition unset : Vars :=
  {| odmOptions := None; odmVersion := JNull; engine := JNull |}.

(** The variables once [getOptions] has had the report. *)
Definition informed : Vars :=
  fst (fst (getOptions_callback (inr reported) unset)).

(** A limit of two processes. *)
Definition limits : Limits :=
  {| maxConcurrency := Some (Some 2000%Z : Num) |}.

Definition unlimited : Limits := {| maxConcurrency := None |}.

Definition setting (n : string) (v : Json) : Json :=
  JObj [("name"%string, JStr n); ("value"%string, v)].

End Host1.

(** * Properties *)

(** ** Traces *)

Lemma callbacks_app (tr1 tr2 : Trace) :
  callbacks (tr1 ++ tr2) = callbacks tr1 ++ callbacks tr2.
Proof.
  induction tr1 as [|e tr1 IH]; simpl; [reflexivity|].
  destruct e; simpl; rewrite IH; reflexivity.
Qed.

Lemma fatals_app (tr1 tr2 : Trace) :
  fatals (tr1 ++ tr2) = fatals tr1 ++ fatals tr2.
Proof.
  induction tr1 as [|e tr1 IH]; simpl; [reflexivity|].
  destruct e as [| | | | | |t [x|]| |]; simpl; rewrite IH; reflexivity.
Qed.

Lemma started_app (tr1 tr2 : Trace) :
  started (tr1 ++ tr2) = started tr1 ++ started tr2.
Proof.
  induction tr1 as [|e tr1 IH]; simpl; [reflexivity|].
  destruct e; simpl; rewrite IH; reflexivity.
Qed.

Lemma delays_app (r : nat) (tr1 tr2 : Trace) :
  delays r (tr1 ++ tr2) = delays r tr1 ++ delays r tr2.
Proof.
  induction tr1 as [|e tr1 IH]; simpl; [reflexivity|].
  destruct e; simpl; try (rewrite IH; reflexivity).
  destruct (Nat.eqb (ref t) r); simpl; rewrite IH; reflexivity.
Qed.

Lemma callbacks_say (b : bool) (msg : string) : callbacks (say b msg) = [].
Proof. destruct b; reflexivity. Qed.

Lemma started_say (b : bool) (msg : string) : started (say b msg) = [].
Proof. destruct b; reflexivity. Qed.

Lemma fatals_say (b : bool) (msg : string) : fatals (say b msg) = [].
Proof. destruct b; reflexivity. Qed.

Lemma quiet_app (x y : Trace) : quiet x -> quiet y -> quiet (x ++ y).
Proof.
  intros (a1 & b1 & c1 & d1) (a2 & b2 & c2 & d2). unfold quiet.
  rewrite callbacks_app, fatals_app, started_app, a1, a2, b1, b2, c1, c2.
  repeat split; auto. intros r. rewrite delays_app, d1, d2. reflexivity.
Qed.

Lemma quiet_say (b : bool) (msg : string) : quiet (say b msg).
Proof. destruct b; repeat split. Qed.

Section PathExpander.

Context `{Env}.

Variable w : World.
Variables srcFolder dstFolder : string.

Lemma spec_skipped_quiet (p : string) : quiet (spec_skipped w srcFolder p).
Proof.
  unfold spec_skipped, quiet.
  destruct (existsSync w (path_join srcFolder p)); repeat split.
Qed.

(** One turn of the loop against the specification's wording. *)
Lemma expand_path_spec (p : string) (uploadList uploadList' : list File)
      (tr tr' : Trace) :
  expand_path w srcFolder dstFolder p uploadList tr = (inr uploadList', tr') ->
  uploadList' = uploadList ++ spec_tasks w srcFolder dstFolder p /\
  tr' = tr ++ spec_skipped w srcFolder p.
Proof.
  unfold expand_path, spec_tasks, spec_skipped, task_for.
  destruct (existsSync w (path_join srcFolder p)); simpl.
  - destruct (lstatSync w (path_join srcFolder p)) as [e|st]; [discriminate|].
    destruct (isDirectory st).
    + destruct (glob_sync w (p +:+ "/**") srcFolder) as [e|listed];
        [discriminate|].
      intros E; inversion E; subst. rewrite app_nil_r. auto.
    + intros E; inversion E; subst. rewrite app_nil_r. auto.
  - intros E; inversion E; subst. rewrite app_nil_r. auto.
Qed.

Lemma expand_paths_spec (paths : list string) :
  forall (uploadList uploadList' : list File) (tr tr' : Trace),
    expand_paths w srcFolder dstFolder paths uploadList tr
    = (inr uploadList', tr') ->
    uploadList' = uploadList ++ flat_map (spec_tasks w srcFolder dstFolder) paths /\
    tr' = tr ++ flat_map (spec_skipped w srcFolder) paths.
Proof.
  induction paths as [|p paths IH]; simpl; intros ul ul' tr tr' E.
  - inversion E; subst. rewrite !app_nil_r. auto.
  - destruct (expand_path w srcFolder dstFolder p ul tr) as [[e|ul1] tr1] eqn:E1;
      [discriminate|].
    apply expand_path_spec in E1. destruct E1 as [-> ->].
    apply IH in E. destruct E as [-> ->].
    rewrite <- !app_assoc. auto.
Qed.

(** Whatever the expansion does, it only talks to the logger. *)
Lemma expand_paths_quiet (paths : list string) :
  forall (uploadList : list File) (tr : Trace),
    quiet tr ->
    quiet (snd (expand_paths w srcFolder dstFolder paths uploadList tr)).
Proof.
  induction paths as [|p paths IH]; simpl; intros ul tr Q; [exact Q|].
  destruct (expand_path w srcFolder dstFolder p ul tr) as [[e|ul1] tr1] eqn:E1.
  - unfold expand_path in E1.
    destruct (existsSync w (path_join srcFolder p)); simpl in E1;
      [|discriminate].
    destruct (lstatSync w (path_join srcFolder p)) as [e'|st].
    + inversion E1; subst. exact Q.
    + destruct (isDirectory st); [|discriminate].
      destruct (glob_sync w (p +:+ "/**") srcFolder); inversion E1; subst.
      exact Q.
  - apply IH. apply expand_path_spec in E1. destruct E1 as [_ ->].
    apply quiet_app; [exact Q|apply spec_skipped_quiet].
Qed.

(** The expansion of a list of paths is the expansion of its parts, one
    after the other, as long as no call throws. *)
Lemma expand_paths_app (l1 l2 : list string) :
  forall (uploadList : list File) (tr : Trace),
    expand_paths w srcFolder dstFolder (l1 ++ l2) uploadList tr =
    match expand_paths w srcFolder dstFolder l1 uploadList tr with
    | (inl e, tr') => (inl e, tr')
    | (inr uploadList', tr') =>
        expand_paths w srcFolder dstFolder l2 uploadList' tr'
    end.
Proof.
  induction l1 as [|p l1 IH]; simpl; intros ul tr; [reflexivity|].
  destruct (expand_path w srcFolder dstFolder p ul tr) as [[e|ul1] tr1];
    [reflexivity|apply IH].
Qed.

End PathExpander.

(** ** The path expander and the early exits of [uploadPaths] *)

Section UploadPaths.

Context `{Env}.

Variable m : GcsModule.
Variable config : Config.
Variable w : World.
Variables srcFolder bucketName dstFolder : string.
Variable paths : list string.
Variable onOutput : bool.


(** C7, as the code has it.  When [fs.lstatSync] throws on a path that
    [fs.existsSync] has seen, or [glob.sync] throws under a directory, the
    exception leaves [uploadPaths] towards its caller: no queue is
    created, nothing is handed to a write stream, and the completion
    callback is not called, neither before the exception nor with it. *)
Theorem fs_error_leaves_uploadPaths :
  forall before p after e uploadList tr,
    enabled m = true ->
    paths = before ++ p :: after ->
    expand_paths w srcFolder dstFolder before [] [] = (inr uploadList, tr) ->
    existsSync w (path_join srcFolder p) = true ->
    (lstatSync w (path_join srcFolder p) = inl e \/
     exists st, lstatSync w (path_join srcFolder p) = inr st /\
                isDirectory st = true /\
                glob_sync w (p +:+ "/**") srcFolder = inl e) ->
    uploadPaths m config w srcFolder bucketName dstFolder paths onOutput
    = Threw e tr /\
    callbacks tr = [] /\ started tr = [].
Proof.
  intros before p after e ul tr En P E Ex F.
  assert (X : expand_paths w srcFolder dstFolder paths [] [] = (inl e, tr)).
  { rewrite P, expand_paths_app, E. simpl. unfold expand_path. rewrite Ex.
    simpl. destruct F as [-> | (st & -> & -> & ->)]; reflexivity. }
  unfold uploadPaths. unfold enabled in En.
  destruct (storage m); [|discriminate].
  destruct (bucket m); [|discriminate].
  rewrite X. split; [reflexivity|].
  pose proof (expand_paths_quiet w srcFolder dstFolder paths [] []) as Q.
  rewrite X in Q. simpl in Q.
  destruct Q as (Qc & _ & Qs & _); [repeat split|]. auto.
Qed.

(** C4.  When the expansion yields no task, [uploadPaths] calls the
    completion callback once, with no error, as its last act before
    returning, and creates no queue: nothing is handed to a write stream
    and nothing is left pending. *)
Theorem empty_batch_succeeds_at_once :
  forall tr,
    enabled m = true ->
    expand_paths w srcFolder dstFolder paths [] [] = (inr [], tr) ->
    uploadPaths m config w srcFolder bucketName dstFolder paths onOutput
    = Returned (tr ++ say onOutput "No files to upload to GCS" ++ [Cb None]) /\
    callbacks (tr ++ say onOutput "No files to upload to GCS" ++ [Cb None])
    = [None] /\
    started (tr ++ say onOutput "No files to upload to GCS" ++ [Cb None])
    = [].
Proof.
  intros tr En E. unfold uploadPaths. unfold enabled in En.
  destruct (storage m); [|discriminate].
  destruct (bucket m); [|discriminate].
  rewrite E. simpl.
  pose proof (expand_paths_quiet w srcFolder dstFolder paths [] []) as Q.
  rewrite E in Q. simpl in Q.
  destruct Q as (Qc & _ & Qs & _); [repeat split|].
  rewrite !callbacks_app, !started_app, callbacks_say, started_say, Qc, Qs.
  auto.
Qed.

(** C10.  While [storage] or [bucket] is unset, [uploadPaths] does one
    thing: it calls the completion callback with the error "GCS is not
    initialized".  The outcome is the same for every file system and
    every list of paths, and no write stream is created. *)
Theorem uninitialized_module_fails_at_once :
  enabled m = false ->
  uploadPaths m config w srcFolder bucketName dstFolder paths onOutput
  = Returned [Cb (Some "GCS is not initialized"%string)].
Proof.
  unfold enabled, uploadPaths.
  destruct (storage m); [|reflexivity].
  destruct (bucket m); [discriminate|reflexivity].
Qed.

End UploadPaths.

(** ** The cleanup pass *)

Lemma warned_app (tr1 tr2 : Trace) : warned tr1 -> warned tr2 -> warned (tr1 ++ tr2).
Proof.
  intros W1 W2 p e. split; intros I; apply in_app_iff in I; apply in_app_iff;
    destruct I as [I|I];
    solve [left; apply W1; exact I | right; apply W2; exact I].
Qed.

Ltac warned_list :=
  let I := fresh "I" in
  intros ? ?; split; intros I; simpl in I;
  repeat (destruct I as [I|I];
          [try discriminate I; inversion I; subst; simpl; auto|]);
  contradiction.


Section CleanupPass.

Context `{Env}.

Variable srcFolder : string.

(** The iteratee: what it adds to the trace and what it hands to [done]. *)
Lemma cleanup_path_cases (p : string) (w : World) (tr : Trace) :
  exists r added w',
    cleanup_path srcFolder p w tr = (r, tr ++ added, w') /\
    callbacks added = [] /\ warned added /\
    (forall err, r <> inr (Some err)) /\
    ((existsSync w (path_join srcFolder p) = true ->
      exists st, lstatSync w (path_join srcFolder p) = inr st) ->
     r = inr None).
Proof.
  unfold cleanup_path.
  destruct (existsSync w (path_join srcFolder p)); simpl.
  - destruct (lstatSync w (path_join srcFolder p)) as [e|st].
    + exists (inl e), [], w. rewrite app_nil_r.
      split; [reflexivity|]. split; [reflexivity|]. split; [warned_list|].
      split; [discriminate|].
      intros X. destruct (X eq_refl) as (st & X'). discriminate.
    + destruct (isDirectory st).
      * destruct (rimraf w (path_join srcFolder p)) as [[e|] w'];
          eexists (inr None), [_; _], w'; rewrite <- app_assoc;
          (split; [reflexivity|]); (split; [reflexivity|]);
          (split; [warned_list|]); (split; [discriminate|reflexivity]).
      * destruct (unlink w (path_join srcFolder p)) as [[e|] w'];
          eexists (inr None), [_; _], w'; rewrite <- app_assoc;
          (split; [reflexivity|]); (split; [reflexivity|]);
          (split; [warned_list|]); (split; [discriminate|reflexivity]).
  - exists (inr None), [], w. rewrite app_nil_r.
    split; [reflexivity|]. split; [reflexivity|]. split; [warned_list|].
    split; [discriminate|reflexivity].
Qed.

(** The series over the iteratee of the cleanup. *)
Lemma eachSeries_cleanup (paths : list string) :
  forall (w : World) (tr : Trace),
  exists r added w',
    eachSeries (cleanup_path srcFolder) paths w tr = (r, tr ++ added, w') /\
    callbacks added = [] /\ warned added /\
    (forall err, r <> inr (Some err)) /\
    (lstat_answers srcFolder ->
     r = inr None /\
     fold_left (cleanup_visit srcFolder) paths (tr, w) = (tr ++ added, w')).
Proof.
  induction paths as [|p paths IH]; intros w tr; simpl.
  - exists (inr None), [], w. rewrite app_nil_r.
    split; [reflexivity|]. split; [reflexivity|]. split; [warned_list|].
    split; [discriminate|]. auto.
  - destruct (cleanup_path_cases p w tr) as (r & a1 & w1 & E & C & W & N & T).
    unfold cleanup_visit at 2. simpl. rewrite E.
    destruct r as [e|[err|]].
    + exists (inl e), a1, w1.
      split; [reflexivity|]. split; [exact C|]. split; [exact W|].
      split; [discriminate|].
      intros L. specialize (T (L w p)). discriminate.
    + destruct (N err eq_refl).
    + destruct (IH w1 (tr ++ a1)) as (r & a2 & w2 & E2 & C2 & W2 & N2 & T2).
      exists r, (a1 ++ a2), w2. rewrite app_assoc.
      split; [exact E2|].
      split; [rewrite callbacks_app, C, C2; reflexivity|].
      split; [apply warned_app; assumption|].
      split; [exact N2|]. exact T2.
Qed.



End CleanupPass.

(** ** The queue and the event loop *)

(** Reduce the accessors and the updates of a state that is given by its
    fields. *)
Ltac fields :=
  unfold live in *;
  cbn [q_tasks numRunning processingScheduled q_drain cbCalled
       completedUploads streams timers trace
       set_q_tasks set_numRunning set_processingScheduled set_q_drain
       set_cbCalled set_completedUploads set_streams set_timers emit] in *.

(** The callback of the step [St] has returned: what it has computed
    becomes the premise of the goal. *)
Ltac arrive St := injection St as St; revert St.

(** ** Lists of tasks *)

Lemma take_spec (r : nat) (l : list Task) (t : Task) (rest : list Task) :
  take r l = Some (t, rest) ->
  ref t = r /\ exists l1 l2, l = l1 ++ t :: l2 /\ rest = l1 ++ l2.
Proof.
  revert t rest. induction l as [|x l IH]; simpl; intros t rest E; [discriminate|].
  destruct (Nat.eqb (ref x) r) eqn:R.
  - inversion E; subst. apply Nat.eqb_eq in R. split; [exact R|].
    exists [], rest. auto.
  - destruct (take r l) as [[t' rest']|]; [|discriminate].
    inversion E; subst. destruct (IH t rest' eq_refl) as (Rt & l1 & l2 & -> & ->).
    split; [exact Rt|]. exists (x :: l1), l2. auto.
Qed.

Lemma take_timer_spec (r : nat) (l : list (Z * Task)) (t : Task)
      (rest : list (Z * Task)) :
  take_timer r l = Some (t, rest) ->
  ref t = r /\ exists d l1 l2, l = l1 ++ (d, t) :: l2 /\ rest = l1 ++ l2.
Proof.
  revert t rest. induction l as [|[d x] l IH]; simpl; intros t rest E;
    [discriminate|].
  destruct (Nat.eqb (ref x) r) eqn:R.
  - inversion E; subst. apply Nat.eqb_eq in R. split; [exact R|].
    exists d, [], rest. auto.
  - destruct (take_timer r l) as [[t' rest']|]; [|discriminate].
    inversion E; subst.
    destruct (IH t rest' eq_refl) as (Rt & d' & l1 & l2 & -> & ->).
    split; [exact Rt|]. exists d', ((d, x) :: l1), l2. auto.
Qed.

Lemma take_perm (r : nat) (l : list Task) (t : Task) (rest : list Task) :
  take r l = Some (t, rest) -> ref t = r /\ Permutation l (t :: rest).
Proof.
  intros E. apply take_spec in E. destruct E as (R & l1 & l2 & -> & ->).
  split; [exact R|]. symmetry. apply Permutation_middle.
Qed.

Lemma take_timer_perm (r : nat) (l : list (Z * Task)) (t : Task)
      (rest : list (Z * Task)) :
  take_timer r l = Some (t, rest) ->
  ref t = r /\ Permutation (map snd l) (t :: map snd rest) /\
  List.length l = S (List.length rest).
Proof.
  intros E. apply take_timer_spec in E.
  destruct E as (R & d & l1 & l2 & -> & ->).
  split; [exact R|]. rewrite !map_app, !length_app. simpl. split; [|lia].
  symmetry. apply Permutation_middle.
Qed.

Lemma take_enabled (t : Task) (l : list Task) :
  In t l -> exists t' rest, take (ref t) l = Some (t', rest).
Proof.
  induction l as [|x l IH]; simpl; [tauto|]. intros I.
  destruct (Nat.eqb (ref x) (ref t)) eqn:R; [eauto|].
  destruct I as [->|I]; [rewrite Nat.eqb_refl in R; discriminate|].
  destruct (IH I) as (t' & rest & ->). eauto.
Qed.

Lemma take_timer_enabled (d : Z) (t : Task) (l : list (Z * Task)) :
  In (d, t) l -> exists t' rest, take_timer (ref t) l = Some (t', rest).
Proof.
  induction l as [|[d' x] l IH]; simpl; [tauto|]. intros I.
  destruct (Nat.eqb (ref x) (ref t)) eqn:R; [eauto|].
  destruct I as [I|I];
    [inversion I; subst; rewrite Nat.eqb_refl in R; discriminate|].
  destruct (IH I) as (t' & rest & ->). eauto.
Qed.

(** ** The trace around the first error callback *)

Lemma after_abort_app (tr x : Trace) :
  after_abort (tr ++ x) =
  match after_abort tr with
  | Some post => Some (post ++ x)
  | None => after_abort x
  end.
Proof.
  induction tr as [|e tr IH]; simpl; [reflexivity|].
  destruct e as [| | |[err|]| | | | |]; simpl; auto.
Qed.

Lemma before_abort_app (tr x : Trace) :
  before_abort (tr ++ x) =
  match after_abort tr with
  | Some _ => before_abort tr
  | None => tr ++ before_abort x
  end.
Proof.
  induction tr as [|e tr IH]; simpl; [reflexivity|].
  destruct e as [| | |[err|]| | | | |]; simpl; auto;
    rewrite IH; destruct (after_abort tr); reflexivity.
Qed.

Lemma no_abort (x : Trace) :
  (forall e, ~ In (Some e) (callbacks x)) ->
  after_abort x = None /\ before_abort x = x.
Proof.
  induction x as [|e x IH]; simpl; intros N; [auto|].
  destruct e as [| | |[err|]| | | | |]; simpl in *;
    try (destruct IH as [-> ->]; [exact N|auto]).
  - exfalso. apply (N err). left. reflexivity.
  - destruct IH as [-> ->]; [|auto]. intros e I. apply (N e). right. exact I.
Qed.

Lemma no_abort_quiet (x : Trace) :
  callbacks x = [] -> after_abort x = None /\ before_abort x = x.
Proof. intros C. apply no_abort. rewrite C. intros e []. Qed.

(** The first error callback splits the trace in one way. *)
Lemma abort_split (pre post : Trace) (e : Exn) :
  callbacks pre = [] ->
  after_abort (pre ++ Cb (Some e) :: post) = Some post /\
  before_abort (pre ++ Cb (Some e) :: post) = pre.
Proof.
  intros C. rewrite after_abort_app, before_abort_app.
  destruct (no_abort_quiet pre C) as [-> _]. simpl.
  rewrite app_nil_r. auto.
Qed.

(** The trace around the first error callback, put together again. *)
Lemma abort_found (tr post : Trace) :
  after_abort tr = Some post ->
  exists e, tr = before_abort tr ++ Cb (Some e) :: post.
Proof.
  induction tr as [|x tr IH]; [discriminate|].
  destruct x as [| | |[err|]| | | | |]; cbn [after_abort before_abort];
    intros A;
    try (destruct (IH A) as (e & E); exists e; cbn [app]; congruence).
  inversion A; subst. exists err. reflexivity.
Qed.

Lemma abort_heard (tr post : Trace) :
  after_abort tr = Some post -> exists e, In (Some e) (callbacks tr).
Proof.
  intros A. destruct (abort_found tr post A) as (e & E).
  exists e. rewrite E, callbacks_app. apply in_app_iff. right. left.
  reflexivity.
Qed.

Lemma heard_abort (tr : Trace) (e : Exn) :
  In (Some e) (callbacks tr) -> after_abort tr <> None.
Proof.
  induction tr as [|y tr IH]; cbn [callbacks after_abort]; [intros []|].
  destruct y as [| | |[err|]| | | | |]; cbn [callbacks after_abort In];
    try exact IH; [discriminate|].
  intros [X|X]; [discriminate|auto].
Qed.

(** ** The queue *)

Lemma PARALLEL_UPLOADS_pos (config : Config) : 1 <= PARALLEL_UPLOADS config.
Proof.
  unfold PARALLEL_UPLOADS. destruct (gcsParallelUploads config) as [[|n]|]; lia.
Qed.

Section Queue.

Context `{Env}.

Variable w : World.
Variable config : Config.
Variable onOutput : bool.
Variable totalFiles : nat.

Lemma worker_events_quiet (l : list Task) :
  callbacks (flat_map (worker_events w config) l) = [] /\
  fatals (flat_map (worker_events w config) l) = [] /\
  started (flat_map (worker_events w config) l) = map ref l /\
  forall r, delays r (flat_map (worker_events w config) l) = [].
Proof.
  induction l as [|t l (IHc & IHf & IHs & IHd)]; simpl; [auto|].
  rewrite IHs. auto.
Qed.

(** What a worker that returns has done. *)
Lemma worker_spec (t : Task) (s s' : State) :
  worker w config t s = inr s' ->
  readable w t /\
  s' = {| q_tasks := q_tasks s;
          numRunning := numRunning s;
          processingScheduled := processingScheduled s;
          q_drain := q_drain s;
          cbCalled := cbCalled s;
          completedUploads := completedUploads s;
          streams := streams s ++ [t];
          timers := timers s;
          trace := trace s ++ worker_events w config t |}.
Proof.
  unfold worker, worker_events, fileSize, readable.
  destruct (statSync w (src (file t))) as [e|st]; [discriminate|].
  intros E. inversion E; subst s'; clear E.
  split; [eauto|]. destruct s. fields. rewrite <- app_assoc. reflexivity.
Qed.

Lemma worker_throws (t : Task) (s : State) (e : Exn) :
  worker w config t s = inl e <-> statSync w (src (file t)) = inl e.
Proof.
  unfold worker. destruct (statSync w (src (file t))) as [e'|st];
    split; intros E; inversion E; subst; reflexivity.
Qed.

(** [q.process]: a prefix of the queue goes to the workers, until the
    queue is empty or every slot is taken. *)
Lemma process_loop_spec (pending : list Task) :
  forall s s',
    q_tasks s = pending ->
    process_loop w config pending s = Goes s' ->
    exists dispatched rest,
      pending = dispatched ++ rest /\
      s' =
      {| q_tasks := rest;
         numRunning := numRunning s + List.length dispatched;
         processingScheduled := processingScheduled s;
         q_drain := q_drain s;
         cbCalled := cbCalled s;
         completedUploads := completedUploads s;
         streams := streams s ++ dispatched;
         timers := timers s;
         trace := trace s ++ flat_map (worker_events w config) dispatched |} /\
      (rest = [] \/ PARALLEL_UPLOADS config <= numRunning s + List.length dispatched) /\
      (numRunning s < PARALLEL_UPLOADS config -> pending <> [] -> dispatched <> []) /\
      Forall (readable w) dispatched.
Proof.
  induction pending as [|t rest IH];
    intros [q n ps dr cbc comp st tm tr] s' Q; fields; subst q.
  - cbn [process_loop]. intros E. inversion E; subst s'; clear E.
    exists [], []. cbn [app List.length flat_map].
    rewrite !app_nil_r, Nat.add_0_r. repeat split; auto; congruence.
  - cbn [process_loop]. fields.
    destruct (n <? PARALLEL_UPLOADS config) eqn:L.
    + destruct (worker w config t _) as [e|s1] eqn:W; [discriminate|].
      apply worker_spec in W. destruct W as [Rt ->]. fields. intros E.
      apply IH in E; [|reflexivity].
      destruct E as (d & r & Er & P & X & _ & Rd).
      exists (t :: d), r. rewrite P. fields.
      rewrite <- !app_assoc. cbn [app List.length flat_map].
      rewrite !Nat.add_succ_r.
      split; [congruence|]. split; [reflexivity|]. split; [exact X|].
      split; [discriminate|]. constructor; assumption.
    + apply Nat.ltb_ge in L. intros E. inversion E; subst s'; clear E.
      exists [], (t :: rest). cbn [app List.length flat_map].
      rewrite !app_nil_r, Nat.add_0_r. repeat split; auto; lia.
Qed.

Lemma q_process_spec (s s' : State) :
  q_process w config s = Goes s' ->
  exists dispatched rest,
    q_tasks s = dispatched ++ rest /\
    s' =
    {| q_tasks := rest;
       numRunning := numRunning s + List.length dispatched;
       processingScheduled := processingScheduled s;
       q_drain := q_drain s;
       cbCalled := cbCalled s;
       completedUploads := completedUploads s;
       streams := streams s ++ dispatched;
       timers := timers s;
       trace := trace s ++ flat_map (worker_events w config) dispatched |} /\
    (rest = [] \/ PARALLEL_UPLOADS config <= numRunning s + List.length dispatched) /\
    (numRunning s < PARALLEL_UPLOADS config -> q_tasks s <> [] -> dispatched <> []) /\
    Forall (readable w) dispatched.
Proof. apply process_loop_spec. reflexivity. Qed.

(** [q.process] that an exception leaves: some tasks have gone to their
    workers, and [fs.statSync] has thrown for the next one, which is out
    of the queue and counted as running. *)
Lemma process_loop_dies (pending : list Task) :
  forall s e d,
    q_tasks s = pending ->
    process_loop w config pending s = Dies e d ->
    exists dispatched t rest,
      pending = dispatched ++ t :: rest /\
      d =
      {| q_tasks := rest;
         numRunning := S (numRunning s + List.length dispatched);
         processingScheduled := processingScheduled s;
         q_drain := q_drain s;
         cbCalled := cbCalled s;
         completedUploads := completedUploads s;
         streams := streams s ++ dispatched;
         timers := timers s;
         trace := trace s ++ flat_map (worker_events w config) dispatched |} /\
      Forall (readable w) dispatched /\
      statSync w (src (file t)) = inl e.
Proof.
  induction pending as [|t rest IH];
    intros [q n ps dr cbc comp st tm tr] e d Q; fields; subst q.
  - discriminate.
  - cbn [process_loop]. fields.
    destruct (n <? PARALLEL_UPLOADS config) eqn:L; [|discriminate].
    destruct (worker w config t _) as [e'|s1] eqn:W.
    + intros E. inversion E; subst e' d; clear E.
      apply worker_throws in W.
      exists [], t, rest. cbn [app List.length flat_map].
      rewrite !app_nil_r, Nat.add_0_r.
      split; [reflexivity|]. split; [reflexivity|]. split; [constructor|exact W].
    + apply worker_spec in W. destruct W as [Rt ->]. fields. intros E.
      apply IH in E; [|reflexivity].
      destruct E as (ds & t' & r & Er & P & Rd & X).
      exists (t :: ds), t', r. rewrite P. fields.
      rewrite <- !app_assoc. cbn [app List.length flat_map].
      rewrite !Nat.add_succ_r.
      split; [congruence|]. split; [reflexivity|].
      split; [constructor; assumption|exact X].
Qed.

Lemma q_process_dies (s : State) (e : Exn) (d : State) :
  q_process w config s = Dies e d ->
  exists dispatched t rest,
    q_tasks s = dispatched ++ t :: rest /\
    d =
    {| q_tasks := rest;
       numRunning := S (numRunning s + List.length dispatched);
       processingScheduled := processingScheduled s;
       q_drain := q_drain s;
       cbCalled := cbCalled s;
       completedUploads := completedUploads s;
       streams := streams s ++ dispatched;
       timers := timers s;
       trace := trace s ++ flat_map (worker_events w config) dispatched |} /\
    Forall (readable w) dispatched /\
    statSync w (src (file t)) = inl e.
Proof. apply process_loop_dies. reflexivity. Qed.

(** With an empty queue [q.process] returns at once. *)
Lemma q_process_idle (s : State) :
  q_tasks s = [] -> q_process w config s = Goes s.
Proof. unfold q_process. intros ->. reflexivity. Qed.


Lemma output_spec (msg : string) (s : State) :
  output onOutput msg s =
  {| q_tasks := q_tasks s;
     numRunning := numRunning s;
     processingScheduled := processingScheduled s;
     q_drain := q_drain s;
     cbCalled := cbCalled s;
     completedUploads := completedUploads s;
     streams := streams s;
     timers := timers s;
     trace := trace s ++ say onOutput msg |}.
Proof.
  unfold output, say. destruct onOutput; [reflexivity|].
  rewrite app_nil_r. destruct s; reflexivity.
Qed.

(** [q.process] ends a callback of the event loop. *)
Lemma Inv_process (s s' : State) :
  Inv false totalFiles s ->
  q_process w config s = Goes s' ->
  Inv true totalFiles s'.
Proof.
  intros I Q. destruct (q_process_spec s s' Q) as (d & rest & Eq & P & X & Y & _).
  rewrite P. clear P Q.
  destruct s as [q n ps dr cbc comp st tm tr].
  destruct I as [Ir Ind Ire Idl Ist Ib Ic Ia Iab]. fields. subst q.
  destruct (worker_events_quiet d) as (Wc & Wf & Ws & Wd).
  assert (Perm : Permutation (rest ++ (st ++ d) ++ map snd tm)
                             ((d ++ rest) ++ st ++ map snd tm)).
  { rewrite <- !app_assoc. rewrite (app_assoc d rest).
    rewrite (Permutation_app_comm d rest). rewrite <- app_assoc.
    apply Permutation_app_head. rewrite !app_assoc.
    apply Permutation_app_tail. apply Permutation_app_comm. }
  constructor; fields.
  - rewrite length_app. lia.
  - eapply Permutation_NoDup; [|exact Ind].
    apply Permutation_map. symmetry. exact Perm.
  - eapply Permutation_Forall; [symmetry; exact Perm|exact Ire].
  - eapply Permutation_Forall; [symmetry; exact Perm|].
    eapply Forall_impl; [|exact Idl]. intros t Et. cbn beta in *.
    rewrite delays_app, Wd, app_nil_r. exact Et.
  - intros t It. rewrite started_app, Ws. apply in_app_iff.
    rewrite <- app_assoc in It. apply in_app_iff in It.
    destruct It as [It|It].
    + left. apply Ist. apply in_app_iff. auto.
    + apply in_app_iff in It. destruct It as [It|It].
      * right. apply in_map. exact It.
      * left. apply Ist. apply in_app_iff. auto.
  - intros Hc. destruct (Ib Hc) as (Hd & Hcb & Hf & Hn).
    rewrite callbacks_app, fatals_app, Wc, Wf, Hcb, Hf.
    repeat split; auto. left.
    pose proof (PARALLEL_UPLOADS_pos config) as Pp.
    destruct (Nat.lt_ge_cases n (PARALLEL_UPLOADS config)) as [Lt|Ge].
    + destruct Hn as [Hn|[Hn _]]; [lia|].
      specialize (Y Lt Hn). destruct d; [congruence|simpl; lia].
    + lia.
  - intros Hd. specialize (Ic Hd). rewrite length_app in Ic. lia.
  - intros Hc. destruct (Ia Hc) as [(Hd & Hcb & Hf & Hq & Hn)|(Hd & e & more & Hf & Hcb)].
    + apply app_eq_nil in Hq. destruct Hq as [-> ->]. left. simpl.
      rewrite !app_nil_r. repeat split; auto. lia.
    + right. split; [exact Hd|]. exists e, more.
      rewrite callbacks_app, fatals_app, Wc, Wf, !app_nil_r. auto.
  - rewrite after_abort_app, before_abort_app.
    destruct (after_abort tr) as [post|].
    + destruct Iab as [Il Ii]. split.
      * intros t It. apply Il. eapply Permutation_in; [exact Perm|exact It].
      * rewrite started_app, Ws. apply incl_app; [exact Ii|].
        intros r Hr. apply in_map_iff in Hr. destruct Hr as (t & <- & It).
        apply Il. apply in_app_iff. left. apply in_app_iff. left. exact It.
    + destruct (no_abort_quiet _ Wc) as [-> _]. exact I.
Qed.

Lemma Inv_quiet (b : bool) (x : Trace) (q : list Task) (n : nat)
      (ps dr cbc : bool) (comp : nat) (st : list Task)
      (tm : list (Z * Task)) (tr : Trace) :
  quiet x ->
  Inv b totalFiles
      {| q_tasks := q; numRunning := n; processingScheduled := ps;
         q_drain := dr; cbCalled := cbc; completedUploads := comp;
         streams := st; timers := tm; trace := tr |} ->
  Inv b totalFiles
      {| q_tasks := q; numRunning := n; processingScheduled := ps;
         q_drain := dr; cbCalled := cbc; completedUploads := comp;
         streams := st; timers := tm; trace := tr ++ x |}.
Proof.
  intros (Xc & Xf & Xs & Xd) [Ir Ind Ire Idl Ist Ib Ic Ia Iab].
  constructor; fields; auto.
  - eapply Forall_impl; [|exact Idl]. intros t Et. cbn beta in *.
    rewrite delays_app, Xd, app_nil_r. exact Et.
  - intros t It. rewrite started_app, Xs, app_nil_r. auto.
  - rewrite callbacks_app, fatals_app, Xc, Xf, !app_nil_r. exact Ib.
  - rewrite callbacks_app, fatals_app, Xc, Xf, !app_nil_r. exact Ia.
  - rewrite after_abort_app, before_abort_app.
    destruct (after_abort tr) as [post|].
    + rewrite started_app, Xs, app_nil_r. exact Iab.
    + destruct (no_abort_quiet _ Xc) as [-> _]. exact I.
Qed.

Lemma perm_live (q : list Task) {st rest : list Task} (tms : list Task)
      {t : Task} :
  Permutation st (t :: rest) ->
  Permutation (q ++ st ++ tms) (t :: q ++ rest ++ tms).
Proof.
  intros P. etransitivity.
  - apply Permutation_app_head. apply Permutation_app_tail. exact P.
  - symmetry. apply (Permutation_middle q (rest ++ tms) t).
Qed.

Lemma perm_live_timer (q st : list Task) {tms rest : list Task} {t : Task} :
  Permutation tms (t :: rest) ->
  Permutation (q ++ st ++ tms) (t :: q ++ st ++ rest).
Proof.
  intros P. etransitivity.
  - apply Permutation_app_head. apply Permutation_app_head. exact P.
  - rewrite !app_assoc. symmetry. apply Permutation_middle.
Qed.

Section Handlers.

Variables (q : list Task) (n : nat) (ps dr cbc : bool) (comp : nat).
Variables (st : list Task) (tm : list (Z * Task)) (tr : Trace).

Let s : State :=
  {| q_tasks := q; numRunning := n; processingScheduled := ps;
     q_drain := dr; cbCalled := cbc; completedUploads := comp;
     streams := st; timers := tm; trace := tr |}.

Hypothesis I : Inv true totalFiles s.

Lemma Inv_immediate :
  Inv false totalFiles
      {| q_tasks := q; numRunning := n; processingScheduled := false;
         q_drain := dr; cbCalled := cbc; completedUploads := comp;
         streams := st; timers := tm; trace := tr |}.
Proof.
  destruct I as [Ir Ind Ire Idl Ist Ib Ic Ia Iab]. unfold s in *.
  constructor; fields; auto.
  intros Hc. destruct (Ib Hc) as (Hd & Hcb & Hf & Hn).
  repeat split; auto. destruct Hn as [Hn|[Hn _]]; [left; exact Hn|].
  right. split; [exact Hn|discriminate].
Qed.

(** A transfer ends well while others are queued or running. *)
Lemma Inv_finish (t : Task) (rest : list Task) :
  Permutation st (t :: rest) ->
  (cbc = false -> List.length q + (n - 1) <> 0) ->
  Inv false totalFiles
      {| q_tasks := q; numRunning := n - 1; processingScheduled := ps;
         q_drain := dr; cbCalled := cbc; completedUploads := S comp;
         streams := rest; timers := tm; trace := tr |}.
Proof.
  intros P Busy.
  destruct I as [Ir Ind Ire Idl Ist Ib Ic Ia Iab]. unfold s in *. fields.
  pose proof (Permutation_length P) as Len. simpl in Len.
  pose proof (perm_live q (map snd tm) P) as PL.
  constructor; fields.
  - lia.
  - pose proof (Permutation_NoDup (Permutation_map ref PL) Ind) as N.
    simpl in N. inversion N; assumption.
  - pose proof (Permutation_Forall PL Ire) as F. inversion F; assumption.
  - pose proof (Permutation_Forall PL Idl) as F. inversion F; assumption.
  - intros t' It. apply Ist. apply in_app_iff in It. apply in_app_iff.
    destruct It as [It|It]; [left|right; exact It].
    eapply Permutation_in; [symmetry; exact P|]. right. exact It.
  - intros Hc. destruct (Ib Hc) as (Hd & Hcb & Hf & Hn).
    repeat split; auto. specialize (Busy Hc).
    destruct q; [left; simpl in Busy; lia|right; split; [discriminate|discriminate]].
  - intros Hd. specialize (Ic Hd). lia.
  - intros Hc. destruct (Ia Hc) as [(Hd & Hcb & Hf & Hq & Hn)|R]; [lia|].
    right. exact R.
  - destruct (after_abort tr) as [post|]; [|exact Logic.I].
    destruct Iab as [Il Ii]. split; [|exact Ii].
    intros t' It. apply Il. eapply Permutation_in; [symmetry; exact PL|].
    right. exact It.
Qed.

(** The last transfer ends well: the queue drains. *)
Lemma Inv_finish_last (t : Task) (rest : list Task) :
  Permutation st (t :: rest) ->
  dr = true -> cbc = false ->
  List.length q + (n - 1) = 0 ->
  Inv false totalFiles
      {| q_tasks := q; numRunning := n - 1; processingScheduled := ps;
         q_drain := dr; cbCalled := true; completedUploads := S comp;
         streams := rest; timers := tm; trace := tr ++ [Cb None] |}.
Proof.
  intros P Hd Hc Idle.
  destruct I as [Ir Ind Ire Idl Ist Ib Ic Ia Iab]. unfold s in *. fields.
  pose proof (Permutation_length P) as Len. simpl in Len.
  pose proof (perm_live q (map snd tm) P) as PL.
  destruct (Ib Hc) as (_ & Hcb & Hf & _).
  constructor; fields.
  - lia.
  - pose proof (Permutation_NoDup (Permutation_map ref PL) Ind) as N.
    simpl in N. inversion N; assumption.
  - pose proof (Permutation_Forall PL Ire) as F. inversion F; assumption.
  - pose proof (Permutation_Forall PL Idl) as F. inversion F; subst.
    eapply Forall_impl; [|eassumption]. intros t' Et. cbn beta in *.
    rewrite delays_app. simpl. rewrite app_nil_r. exact Et.
  - intros t' It. rewrite started_app. simpl. rewrite app_nil_r.
    apply Ist. apply in_app_iff in It. apply in_app_iff.
    destruct It as [It|It]; [left|right; exact It].
    eapply Permutation_in; [symmetry; exact P|]. right. exact It.
  - discriminate.
  - intros _. specialize (Ic Hd). lia.
  - intros _. left. rewrite callbacks_app, fatals_app, Hcb, Hf. simpl.
    repeat split; auto; [|lia]. destruct q; [reflexivity|simpl in Idle; lia].
  - rewrite after_abort_app.
    destruct (no_abort_quiet _ Hcb) as [-> _]. simpl. exact Logic.I.
Qed.

(** A transfer fails and waits for its next attempt. *)
Lemma Inv_retry (t : Task) (rest : list Task) :
  Permutation st (t :: rest) ->
  retries (file t) < MAX_RETRIES ->
  Inv true totalFiles
      {| q_tasks := q; numRunning := n; processingScheduled := ps;
         q_drain := dr; cbCalled := cbc; completedUploads := comp;
         streams := rest;
         timers := tm ++ [(backoff (retries (file (bump t))), bump t)];
         trace := tr ++ [SetTimeout (backoff (retries (file (bump t))))
                                    (bump t)] |}.
Proof.
  intros P Lt.
  destruct I as [Ir Ind Ire Idl Ist Ib Ic Ia Iab]. unfold s in *. fields.
  pose proof (Permutation_length P) as Len. simpl in Len.
  pose proof (perm_live q (map snd tm) P) as PL.
  pose proof (Permutation_NoDup (Permutation_map ref PL) Ind) as N.
  pose proof (Permutation_Forall PL Ire) as Fr.
  pose proof (Permutation_Forall PL Idl) as Fd.
  simpl in N. inversion N as [|? ? Nin N']; subst.
  inversion Fr as [|? ? Rt Fr']; subst.
  inversion Fd as [|? ? Dt Fd']; subst.
  assert (PL' : Permutation (q ++ rest ++ map snd (tm ++ [(backoff (retries (file (bump t))), bump t)]))
                            (bump t :: q ++ rest ++ map snd tm)).
  { rewrite map_app. simpl. rewrite !app_assoc. symmetry.
    apply Permutation_cons_append. }
  constructor; fields.
  - rewrite length_app. simpl. lia.
  - eapply Permutation_NoDup; [apply Permutation_map; symmetry; exact PL'|].
    simpl. exact N.
  - eapply Permutation_Forall; [symmetry; exact PL'|].
    constructor; [simpl; lia|exact Fr'].
  - eapply Permutation_Forall; [symmetry; exact PL'|]. constructor.
    + rewrite delays_app. cbn [delays ref bump]. rewrite Nat.eqb_refl, Dt.
      change (retries (file (bump t))) with (S (retries (file t))).
      rewrite seq_S, map_app. reflexivity.
    + apply Forall_forall. intros t' It'.
      rewrite Forall_forall in Fd'. rewrite delays_app, (Fd' _ It'). simpl.
      destruct (Nat.eqb (ref t) (ref t')) eqn:R; [|apply app_nil_r].
      apply Nat.eqb_eq in R. exfalso. apply Nin. rewrite R.
      apply in_map. exact It'.
  - intros t' It'. rewrite started_app. simpl. rewrite app_nil_r.
    assert (X : In t' (bump t :: rest ++ map snd tm)).
    { rewrite map_app in It'. simpl in It'. rewrite app_assoc in It'.
      apply in_app_iff in It'. destruct It' as [It'|[<-|[]]];
        [right; exact It'|left; reflexivity]. }
    destruct X as [<-|X].
    + apply (Ist t). apply in_app_iff. left.
      eapply Permutation_in; [symmetry; exact P|]. left. reflexivity.
    + apply Ist. apply in_app_iff in X. apply in_app_iff.
      destruct X as [X|X]; [left|right; exact X].
      eapply Permutation_in; [symmetry; exact P|]. right. exact X.
  - rewrite callbacks_app, fatals_app. simpl. rewrite !app_nil_r. exact Ib.
  - exact Ic.
  - rewrite callbacks_app, fatals_app. simpl. rewrite !app_nil_r.
    intros Hc. destruct (Ia Hc) as [(Hd & Hcb & Hf & Hq & Hn)|R]; [lia|].
    right. exact R.
  - rewrite after_abort_app, before_abort_app.
    destruct (after_abort tr) as [post|]; [|exact Logic.I].
    destruct Iab as [Il Ii]. split.
    + intros t' It'. apply (Permutation_in _ PL') in It'.
      destruct It' as [<-|It'].
      * apply (Il t). eapply Permutation_in; [symmetry; exact PL|].
        left. reflexivity.
      * apply Il. eapply Permutation_in; [symmetry; exact PL|].
        right. exact It'.
    + rewrite started_app. simpl. rewrite app_nil_r. exact Ii.
Qed.

(** A transfer fails for good: the queue is killed, and the caller hears
    of it unless it has heard before. *)
Lemma Inv_fatal (t : Task) (rest : list Task) (e : Exn) :
  Permutation st (t :: rest) ->
  Inv false totalFiles
      {| q_tasks := []; numRunning := n - 1; processingScheduled := ps;
         q_drain := false; cbCalled := true; completedUploads := comp;
         streams := rest; timers := tm;
         trace := tr ++ Done t (Some e) ::
                     (if cbc then [] else [Cb (Some e)]) |}.
Proof.
  intros P.
  destruct I as [Ir Ind Ire Idl Ist Ib Ic Ia Iab]. unfold s in *. fields.
  pose proof (Permutation_length P) as Len. simpl in Len.
  pose proof (perm_live q (map snd tm) P) as PL.
  pose proof (Permutation_NoDup (Permutation_map ref PL) Ind) as N.
  pose proof (Permutation_Forall PL Ire) as Fr.
  pose proof (Permutation_Forall PL Idl) as Fd.
  simpl in N. inversion N as [|? ? Nin N']; subst.
  inversion Fr as [|? ? Rt Fr']; subst.
  inversion Fd as [|? ? Dt Fd']; subst.
  rewrite map_app in N'. apply NoDup_app_remove_l in N'.
  apply Forall_app in Fr'. destruct Fr' as [_ Fr'].
  apply Forall_app in Fd'. destruct Fd' as [_ Fd'].
  assert (Sub : forall t', In t' (rest ++ map snd tm) ->
                           In t' (st ++ map snd tm)).
  { intros t' It'. apply in_app_iff in It'. apply in_app_iff.
    destruct It' as [It'|It']; [left|right; exact It'].
    eapply Permutation_in; [symmetry; exact P|]. right. exact It'. }
  constructor; fields.
  - lia.
  - exact N'.
  - exact Fr'.
  - eapply Forall_impl; [|exact Fd']. intros t' Et. cbn beta in *.
    rewrite delays_app, Et. destruct cbc; simpl; apply app_nil_r.
  - intros t' It'. rewrite started_app. apply in_app_iff. left.
    apply Ist. apply Sub. exact It'.
  - discriminate.
  - discriminate.
  - intros _. right. split; [reflexivity|].
    rewrite callbacks_app, fatals_app.
    destruct cbc.
    + destruct (Ia eq_refl) as [(Hd & Hcb & Hf & Hq & Hn)|(Hd & e0 & more & Hf & Hcb)];
        [lia|].
      exists e0, (more ++ [e]). rewrite Hf, Hcb. simpl. auto.
    + destruct (Ib eq_refl) as (_ & Hcb & Hf & _).
      exists e, []. rewrite Hf, Hcb. simpl. auto.
  - rewrite after_abort_app, before_abort_app.
    destruct (after_abort tr) as [post|] eqn:A.
    + destruct Iab as [Il Ii]. split.
      * intros t' It'. apply Il. apply in_app_iff. right. apply Sub.
        exact It'.
      * rewrite started_app.
        replace (started (Done t (Some e) :: (if cbc then [] else [Cb (Some e)])))
          with (@nil nat) by (destruct cbc; reflexivity).
        rewrite app_nil_r. exact Ii.
    + destruct cbc; simpl; [exact Logic.I|].
      split; [|intros r []].
      intros t' It'. rewrite started_app. simpl. rewrite app_nil_r.
      apply Ist. apply Sub. exact It'.
Qed.

(** A timer fires: the task goes back to the queue. *)
Lemma Inv_timer (t : Task) (rest : list (Z * Task)) :
  Permutation (map snd tm) (t :: map snd rest) ->
  List.length tm = S (List.length rest) ->
  Inv false totalFiles
      {| q_tasks := q ++ [t]; numRunning := n - 1;
         processingScheduled := true;
         q_drain := dr; cbCalled := cbc; completedUploads := comp;
         streams := st; timers := rest; trace := tr |}.
Proof.
  intros P Len.
  destruct I as [Ir Ind Ire Idl Ist Ib Ic Ia Iab]. unfold s in *. fields.
  assert (PL : Permutation ((q ++ [t]) ++ st ++ map snd rest)
                           (q ++ st ++ map snd tm)).
  { rewrite <- app_assoc. simpl. etransitivity.
    - symmetry. apply Permutation_middle.
    - symmetry. apply perm_live_timer. exact P. }
  constructor; fields.
  - lia.
  - eapply Permutation_NoDup; [apply Permutation_map; symmetry; exact PL|].
    exact Ind.
  - eapply Permutation_Forall; [symmetry; exact PL|exact Ire].
  - eapply Permutation_Forall; [symmetry; exact PL|exact Idl].
  - intros t' It'. apply Ist. apply in_app_iff in It'. apply in_app_iff.
    destruct It' as [It'|It']; [left; exact It'|right].
    eapply Permutation_in; [symmetry; exact P|]. right. exact It'.
  - intros Hc. destruct (Ib Hc) as (Hd & Hcb & Hf & Hn).
    repeat split; auto. right. split; [|discriminate].
    destruct q; discriminate.
  - intros Hd. specialize (Ic Hd). rewrite length_app. simpl. lia.
  - intros Hc. destruct (Ia Hc) as [(Hd & Hcb & Hf & Hq & Hn)|R]; [lia|].
    right. exact R.
  - destruct (after_abort tr) as [post|]; [|exact Logic.I].
    destruct Iab as [Il Ii]. split; [|exact Ii].
    intros t' It'. apply Il. eapply Permutation_in; [exact PL|exact It'].
Qed.

End Handlers.

Ltac hush :=
  repeat (apply Inv_quiet; [first [apply quiet_say | repeat split]|]).

(** Every callback of the event loop keeps the invariant. *)
Lemma step_Inv (l : Label) (s s' : State) :
  step w config onOutput totalFiles l s = Some (Goes s') ->
  Inv true totalFiles s -> Inv true totalFiles s'.
Proof.
  intros St I. destruct s as [q n ps dr cbc comp st tm tr].
  destruct l as [|r el|r msg|r msg|r]; cbn [step] in St; fields.
  - destruct ps; [|discriminate]. arrive St.
    apply Inv_process. fields. eapply Inv_immediate. exact I.
  - destruct (take r st) as [[t rest]|] eqn:T; [|discriminate].
    arrive St.
    apply take_perm in T. destruct T as [_ P].
    apply Inv_process.
    assert (Dr : cbc = false -> dr = true).
    { intros ->. destruct I as [_ _ _ _ _ Ib _ _ _].
      destruct (Ib eq_refl) as [X _]. exact X. }
    unfold on_finish. rewrite !output_spec. fields.
    unfold done, q_next, errHandler. fields. unfold q_idle. fields.
    destruct (List.length q + (n - 1) =? 0) eqn:Idle;
      [apply Nat.eqb_eq in Idle|apply Nat.eqb_neq in Idle].
    + destruct dr; [|destruct cbc; [|specialize (Dr eq_refl); discriminate]].
      * unfold drain. fields. destruct cbc.
        -- hush. eapply Inv_finish; [exact I|exact P|discriminate].
        -- rewrite !output_spec. fields.
           eapply Inv_finish_last; [hush; exact I|exact P|auto..].
      * hush. eapply Inv_finish; [exact I|exact P|discriminate].
    + hush. eapply Inv_finish; [exact I|exact P|auto].
  - destruct (take r st) as [[t rest]|] eqn:T; [|discriminate].
    arrive St.
    apply take_perm in T. destruct T as [_ P].
    unfold on_error. fields.
    destruct (retries (file t) <? MAX_RETRIES) eqn:Lt.
    + apply Nat.ltb_lt in Lt. rewrite !output_spec. fields.
      intros St. inversion St; subst s'; clear St.
      eapply Inv_retry; [|exact P|exact Lt]. hush. exact I.
    + apply Inv_process.
      destruct cbc; unfold done, q_next, errHandler, q_kill; fields;
        unfold q_idle; fields;
        destruct (List.length (@nil Task) + (n - 1) =? 0).
      * eapply (Inv_fatal _ _ _ _ true); [|exact P]. hush. exact I.
      * eapply (Inv_fatal _ _ _ _ true); [|exact P]. hush. exact I.
      * rewrite <- app_assoc. cbn [app].
        eapply (Inv_fatal _ _ _ _ false); [|exact P]. hush. exact I.
      * rewrite <- app_assoc. cbn [app].
        eapply (Inv_fatal _ _ _ _ false); [|exact P]. hush. exact I.
  - destruct (take r st) as [[t rest]|]; discriminate.
  - destruct (take_timer r tm) as [[t rest]|] eqn:T; [|discriminate].
    arrive St.
    apply take_timer_perm in T. destruct T as (_ & P & Len).
    apply Inv_process.
    assert (Busy : (List.length (q ++ [t]) + (n - 1) =? 0) = false).
    { apply Nat.eqb_neq. rewrite length_app. simpl. lia. }
    unfold on_timeout, q_push. fields.
    destruct ps; fields; unfold done, q_next, errHandler; fields;
      unfold q_idle; fields; rewrite Busy; hush;
      eapply Inv_timer; eauto.
Qed.

Lemma run_Inv (ls : list Label) :
  forall s s',
    run w config onOutput totalFiles ls s = Some s' ->
    Inv true totalFiles s -> Inv true totalFiles s'.
Proof.
  induction ls as [|l ls IH]; simpl; intros s s' R I.
  - inversion R; subst. exact I.
  - destruct (step w config onOutput totalFiles l s) as [[s1|e d]|] eqn:St;
      try discriminate.
    eapply IH; [exact R|]. eapply step_Inv; eassumption.
Qed.

End Queue.

Section Progress.

Context `{Env}.

Variable w : World.
Variable config : Config.
Variable onOutput : bool.
Variable totalFiles : nat.

Lemma follows_trans (a b : nat) (s1 s2 s3 : State) :
  follows w a s1 s2 -> follows w b s2 s3 -> follows w (a + b) s1 s3.
Proof.
  intros (W1 & I1 & x & T1 & F1) (W2 & I2 & y & T2 & F2).
  split; [lia|]. split; [eapply incl_tran; eassumption|].
  exists (x ++ y). rewrite T2, T1, app_assoc. split; [reflexivity|].
  apply Forall_app. auto.
Qed.

Lemma cost_dispatch (d : list Task) :
  list_sum (map (cost 1) d) <= list_sum (map (cost 3) d).
Proof. induction d as [|t d IH]; simpl; [lia|]. unfold cost at 1 3. lia. Qed.

Lemma moded_worker_events (d : list Task) :
  Forall (readable w) d ->
  Forall (moded w) (flat_map (worker_events w config) d).
Proof.
  induction 1 as [|t d [st Rt] _ IH]; simpl; [constructor|].
  constructor; [exact Logic.I|]. constructor; [|exact IH].
  exists st. split; [exact Rt|]. unfold fileSize. rewrite Rt. reflexivity.
Qed.

Lemma moded_say (msg : string) : Forall (moded w) (say onOutput msg).
Proof. destruct onOutput; repeat constructor. Qed.

Lemma q_process_follows (s s' : State) :
  q_process w config s = Goes s' -> follows w 0 s s'.
Proof.
  intros Q.
  destruct (q_process_spec w config s s' Q) as (d & rest & Eq & P & _ & _ & Rd).
  rewrite P. clear P Q. destruct s as [q n ps dr cbc comp st tm tr].
  fields. subst q. unfold follows, weight. fields.
  split; [|split].
  - rewrite !map_app, !list_sum_app. pose proof (cost_dispatch d). lia.
  - apply incl_map. intros t It.
    rewrite !in_app_iff in *. tauto.
  - eexists. split; [reflexivity|]. apply moded_worker_events. exact Rd.
Qed.

Lemma sum_take (c : Task -> nat) {l rest : list Task} {t : Task} :
  Permutation l (t :: rest) ->
  list_sum (map c l) = c t + list_sum (map c rest).
Proof.
  intros P. rewrite (Permutation_list_sum (Permutation_map c P)).
  reflexivity.
Qed.

Ltac trace_tail :=
  eexists; split;
  [rewrite <- ?app_assoc; reflexivity
   |repeat (apply Forall_app; split);
    first [apply moded_say | repeat constructor]].

(** One callback of the event loop: the measure goes down, no task comes
    to life, the trace grows at its end. *)
Lemma step_follows (l : Label) (s s' : State) :
  step w config onOutput totalFiles l s = Some (Goes s') -> follows w 1 s s'.
Proof.
  intros St. destruct s as [q n ps dr cbc comp st tm tr].
  destruct l as [|r el|r msg|r msg|r]; cbn [step] in St; fields.
  - destruct ps; [|discriminate]. arrive St. intros Q.
    eapply (follows_trans 1 0); [|apply q_process_follows; exact Q].
    unfold follows, weight. fields. split; [lia|].
    split; [apply incl_refl|]. exists []. rewrite app_nil_r. auto.
  - destruct (take r st) as [[t rest]|] eqn:T; [|discriminate].
    arrive St.
    apply take_perm in T. destruct T as [_ P].
    assert (In1 : incl (map ref (q ++ rest ++ map snd tm))
                       (map ref (q ++ st ++ map snd tm))).
    { apply incl_map. intros t' It'. rewrite !in_app_iff in *.
      destruct It' as [It'|[It'|It']]; auto. right. left.
      eapply Permutation_in; [symmetry; exact P|]. right. exact It'. }
    pose proof (sum_take (cost 1) P) as S1. unfold cost at 2 in S1.
    unfold on_finish. rewrite !(output_spec onOutput). fields.
    unfold done, q_next.
    unfold errHandler. fields. unfold q_idle. fields.
    destruct (List.length q + (n - 1) =? 0);
      [destruct dr; [unfold drain; fields; destruct cbc;
                     rewrite ?(output_spec onOutput); fields|]|];
      intros Q;
      (eapply (follows_trans 1 0); [|apply q_process_follows; exact Q]);
      (split; [unfold weight; fields; lia|]); (split; [exact In1|]);
      trace_tail.
  - destruct (take r st) as [[t rest]|] eqn:T; [|discriminate].
    arrive St.
    apply take_perm in T. destruct T as [_ P].
    pose proof (sum_take (cost 1) P) as S1.
    unfold on_error. fields.
    destruct (retries (file t) <? MAX_RETRIES) eqn:Lt.
    + apply Nat.ltb_lt in Lt. rewrite !(output_spec onOutput). fields.
      intros St. inversion St; subst s'; clear St.
      split; [|split].
      * assert (C : cost 6 (bump t) + 2 <= cost 1 t).
        { unfold cost, MAX_RETRIES in *.
          change (retries (file (bump t))) with (S (retries (file t))).
          lia. }
        unfold weight. fields. rewrite !map_app, !list_sum_app, S1.
        unfold list_sum. cbn [map fold_right snd]. destruct ps; lia.
      * fields. intros x Ix. apply in_map_iff in Ix.
        destruct Ix as (t' & <- & It').
        rewrite map_app in It'. cbn [map snd] in It'.
        rewrite !in_app_iff in It'. cbn [In] in It'.
        assert (St : forall y, In y (t :: rest) -> In y st).
        { intros y Iy. eapply Permutation_in; [symmetry; exact P|exact Iy]. }
        destruct It' as [It'|[It'|[It'|[<-|[]]]]].
        -- apply in_map. rewrite !in_app_iff. auto.
        -- apply in_map. rewrite !in_app_iff. right. left. apply St.
           right. exact It'.
        -- apply in_map. rewrite !in_app_iff. auto.
        -- change (ref (bump t)) with (ref t). apply in_map.
           rewrite !in_app_iff. right. left. apply St. left. reflexivity.
      * trace_tail.
    + assert (In1 : incl (map ref ([] ++ rest ++ map snd tm))
                         (map ref (q ++ st ++ map snd tm))).
      { apply incl_map. intros t' It'. rewrite !in_app_iff in *.
        destruct It' as [[]|[It'|It']]; auto. right. left.
        eapply Permutation_in; [symmetry; exact P|]. right. exact It'. }
      unfold cost at 2 in S1.
      unfold done, q_next.
      destruct cbc; unfold errHandler, q_kill; fields;
        unfold q_idle; fields;
        destruct (List.length (@nil Task) + (n - 1) =? 0);
        intros Q;
        (eapply (follows_trans 1 0); [|apply q_process_follows; exact Q]);
        (split; [unfold weight; fields; simpl; lia|]);
        (split; [exact In1|]); trace_tail.
  - destruct (take r st) as [[t rest]|]; discriminate.
  - destruct (take_timer r tm) as [[t rest]|] eqn:T; [|discriminate].
    arrive St.
    apply take_timer_perm in T. destruct T as (_ & P & Len).
    pose proof (sum_take (cost 6) P) as S6.
    assert (Busy : (List.length (q ++ [t]) + (n - 1) =? 0) = false).
    { apply Nat.eqb_neq. rewrite length_app. simpl. lia. }
    assert (In1 : incl (map ref ((q ++ [t]) ++ st ++ map snd rest))
                       (map ref (q ++ st ++ map snd tm))).
    { apply incl_map. intros t' It'. rewrite !in_app_iff in *. simpl in It'.
      destruct It' as [[It'|[<-|[]]]|[It'|It']]; auto; right; right.
      - eapply Permutation_in; [symmetry; exact P|]. left. reflexivity.
      - eapply Permutation_in; [symmetry; exact P|]. right. exact It'. }
    assert (C : cost 6 t = cost 3 t + 3) by (unfold cost; lia).
    unfold on_timeout, q_push. fields.
    destruct ps; fields; unfold done, q_next;
      unfold errHandler; fields; unfold q_idle; fields; rewrite Busy;
      intros Q;
      (eapply (follows_trans 1 0); [|apply q_process_follows; exact Q]);
      (split; [unfold weight; fields;
               rewrite !map_app, !list_sum_app, S6; unfold list_sum;
               cbn [map fold_right]; lia|]);
      (split; [exact In1|]); trace_tail.
Qed.

End Progress.

Section Batches.

Context `{Env}.

Variable w : World.
Variable config : Config.
Variable onOutput : bool.
Variable totalFiles : nat.

Lemma follows_refl (s : State) : follows w 0 s s.
Proof.
  split; [lia|]. split; [apply incl_refl|]. exists [].
  rewrite app_nil_r. auto.
Qed.

Lemma run_follows (ls : list Label) :
  forall s s',
    run w config onOutput totalFiles ls s = Some s' ->
    follows w (List.length ls) s s'.
Proof.
  induction ls as [|l ls IH]; simpl; intros s s' R.
  - inversion R; subst. apply follows_refl.
  - destruct (step w config onOutput totalFiles l s) as [[s1|e1 d1]|] eqn:St;
      try discriminate.
    apply (follows_trans w 1 (List.length ls) s s1 s').
    + eapply step_follows. exact St.
    + apply IH. exact R.
Qed.

Lemma run_app (ls ls' : list Label) :
  forall s,
    run w config onOutput totalFiles (ls ++ ls') s =
    match run w config onOutput totalFiles ls s with
    | Some s1 => run w config onOutput totalFiles ls' s1
    | None => None
    end.
Proof.
  induction ls as [|l ls IH]; intros s; cbn [app run]; [reflexivity|].
  destruct (step w config onOutput totalFiles l s) as [[s1|e1 d1]|];
    [apply IH|reflexivity|reflexivity].
Qed.

(** As long as something is pending, the event loop has a callback to
    run; once nothing is, it has none. *)
Lemma pending_enabled (s : State) :
  processingScheduled s = true \/ streams s <> [] \/ timers s <> [] ->
  exists l turn, step w config onOutput totalFiles l s = Some turn.
Proof.
  intros [P|[P|P]].
  - exists Immediate. simpl. rewrite P. eauto.
  - destruct (streams s) as [|t l] eqn:E; [congruence|].
    exists (StreamFinish (ref t) EmptyString). simpl. rewrite E. simpl.
    rewrite Nat.eqb_refl. eauto.
  - destruct (timers s) as [|[d t] l] eqn:E; [congruence|].
    exists (TimerFires (ref t)). simpl. rewrite E. simpl.
    rewrite Nat.eqb_refl. eauto.
Qed.

Lemma quiescent_stuck (s : State) (l : Label) :
  quiescent s -> step w config onOutput totalFiles l s = None.
Proof.
  intros (P & S & T). destruct l; simpl; rewrite ?P, ?S, ?T; reflexivity.
Qed.

Lemma not_quiescent (s : State) :
  ~ quiescent s ->
  processingScheduled s = true \/ streams s <> [] \/ timers s <> [].
Proof.
  unfold quiescent. intros N.
  destruct (processingScheduled s); [auto|].
  destruct (streams s); [|right; left; discriminate].
  destruct (timers s); [|right; right; discriminate].
  exfalso. apply N. auto.
Qed.

(** What the invariant says about the completion callback. *)
Lemma Inv_callbacks (s : State) :
  Inv true totalFiles s ->
  (cbCalled s = false /\ callbacks (trace s) = [] /\ fatals (trace s) = [] /\
   (processingScheduled s = true \/ streams s <> [] \/ timers s <> [])) \/
  (cbCalled s = true /\ callbacks (trace s) = [None] /\
   fatals (trace s) = [] /\ completedUploads s = totalFiles /\
   live s = []) \/
  (cbCalled s = true /\
   exists e rest, fatals (trace s) = e :: rest /\
                  callbacks (trace s) = [Some e]).
Proof.
  intros [Ir Ind Ire Idl Ist Ib Ic Ia Iab].
  destruct (cbCalled s) eqn:C.
  - destruct (Ia eq_refl) as [(Hd & Hcb & Hf & Hq & Hn)|R].
    + right. left. specialize (Ic Hd). rewrite Hq, Hn in Ic. simpl in Ic.
      repeat split; auto; [lia|]. unfold live. rewrite Hq.
      destruct (streams s); [|simpl in Ir; lia].
      destruct (timers s); [reflexivity|simpl in Ir; lia].
    + right. right. split; [reflexivity|]. tauto.
  - left. destruct (Ib eq_refl) as (Hd & Hcb & Hf & Hn).
    repeat split; auto. destruct Hn as [Hn|[_ Hn]]; [|auto].
    right. destruct (streams s); [|left; discriminate].
    destruct (timers s); [simpl in Ir; lia|right; discriminate].
Qed.

Lemma number_refs (l : list File) :
  forall i, map ref (number i l) = seq i (List.length l).
Proof. induction l as [|f l IH]; simpl; intros i; [|rewrite IH]; auto. Qed.

Lemma number_files (l : list File) : forall i, map file (number i l) = l.
Proof. induction l as [|f l IH]; simpl; intros i; [|rewrite IH]; auto. Qed.

(** The state in which [uploadPaths] leaves a batch. *)
Lemma start_Inv (uploadList : list File) (tr : Trace) :
  uploadList <> [] ->
  Forall (fun f => retries f = 0) uploadList ->
  quiet tr ->
  Inv true (List.length uploadList)
      {| q_tasks := number 0 uploadList; numRunning := 0;
         processingScheduled := true; q_drain := true; cbCalled := false;
         completedUploads := 0; streams := []; timers := []; trace := tr |}.
Proof.
  intros Ne F0 (Tc & Tf & Ts & Td).
  assert (Fq : Forall (fun t => retries (file t) = 0) (number 0 uploadList)).
  { apply Forall_forall. intros t It.
    rewrite Forall_forall in F0. apply F0.
    rewrite <- (number_files uploadList 0). apply in_map. exact It. }
  constructor; unfold live;
    cbn [q_tasks numRunning processingScheduled q_drain cbCalled
         completedUploads streams timers trace map];
    rewrite ?app_nil_r.
  - reflexivity.
  - rewrite number_refs. apply seq_NoDup.
  - eapply Forall_impl; [|exact Fq]. intros t E. cbn beta in E.
    rewrite E. unfold MAX_RETRIES. lia.
  - eapply Forall_impl; [|exact Fq]. intros t E. cbn beta in E.
    rewrite E, Td. reflexivity.
  - intros t [].
  - intros _. repeat split; auto. right. split; [|reflexivity].
    destruct uploadList; [congruence|discriminate].
  - intros _. rewrite <- (length_map ref), number_refs, length_seq. lia.
  - discriminate.
  - destruct (no_abort_quiet _ Tc) as [-> _]. exact Logic.I.
Qed.

End Batches.

(** ** The two ways of a failed transfer *)

Section Failures.

Context `{Env}.

Variable w : World.
Variable config : Config.
Variable onOutput : bool.
Variable totalFiles : nat.

(** A failure below the cap: the task waits for its timer. *)
Lemma retry_step (r : nat) (message : string) (s : State) (t : Task)
      (rest : list Task) :
  take r (streams s) = Some (t, rest) ->
  retries (file t) < MAX_RETRIES ->
  step w config onOutput totalFiles (StreamError r message) s =
  Some (Goes
       {| q_tasks := q_tasks s;
          numRunning := numRunning s;
          processingScheduled := processingScheduled s;
          q_drain := q_drain s;
          cbCalled := cbCalled s;
          completedUploads := completedUploads s;
          streams := rest;
          timers := timers s ++ [(backoff (S (retries (file t))), bump t)];
          trace := trace s ++
                   [LoggerDebug ("Upload error for " +:+
                                 path_basename (dest (file t)) +:+ ": " +:+
                                 message)] ++
                   say onOutput
                       ("Retrying " +:+ path_basename (dest (file t)) +:+
                        " (attempt " +:+ show (S (retries (file t))) +:+
                        "/" +:+ show MAX_RETRIES +:+ ") in " +:+
                        show (Z.to_nat (backoff (S (retries (file t))) / 1000)) +:+
                        "s...") ++
                   [SetTimeout (backoff (S (retries (file t)))) (bump t)] |}).
Proof.
  destruct s as [q n ps dr cbc comp st tm tr]. fields.
  intros T Lt. cbn [step]. fields. rewrite T. unfold on_error. fields.
  apply Nat.ltb_lt in Lt. rewrite Lt. rewrite !output_spec. fields.
  rewrite <- !app_assoc. reflexivity.
Qed.

(** A failure at the cap: [done] gets the error, the queue is killed, and
    [cb] is called unless it has been called before. *)
Lemma fatal_step (r : nat) (message : string) (s : State) (t : Task)
      (rest : list Task) :
  take r (streams s) = Some (t, rest) ->
  MAX_RETRIES <= retries (file t) ->
  let e := ("Failed to upload " +:+ path_basename (dest (file t)) +:+
            " after " +:+ show MAX_RETRIES +:+ " retries: " +:+ message) in
  step w config onOutput totalFiles (StreamError r message) s =
  Some (Goes
       {| q_tasks := [];
          numRunning := numRunning s - 1;
          processingScheduled := processingScheduled s;
          q_drain := false;
          cbCalled := true;
          completedUploads := completedUploads s;
          streams := rest;
          timers := timers s;
          trace := trace s ++
                   [LoggerDebug ("Upload error for " +:+
                                 path_basename (dest (file t)) +:+ ": " +:+
                                 message);
                    Done t (Some e)] ++
                   (if cbCalled s then [] else [Cb (Some e)]) |}).
Proof.
  destruct s as [q n ps dr cbc comp st tm tr]. fields.
  intros T Ge. cbn [step]. fields. rewrite T. unfold on_error. fields.
  apply Nat.ltb_ge in Ge. rewrite Ge.
  destruct cbc; unfold done, q_next, errHandler, q_kill; fields;
    unfold q_idle; fields;
    destruct (List.length (@nil Task) + (n - 1) =? 0);
    unfold q_process; fields; cbn [process_loop];
    rewrite <- !app_assoc; reflexivity.
Qed.



(** Only a failure at the cap hands an error to [done]. *)
Lemma step_fatals (l : Label) (s s' : State) :
  step w config onOutput totalFiles l s = Some (Goes s') ->
  fatals (trace s') = fatals (trace s) \/
  exists r message t rest,
    l = StreamError r message /\
    take r (streams s) = Some (t, rest) /\
    MAX_RETRIES <= retries (file t).
Proof.
  intros St. destruct s as [q n ps dr cbc comp st tm tr]. fields.
  assert (D : forall s1,
             fatals (trace s1) = fatals tr ->
             q_process w config s1 = Goes s' ->
             fatals (trace s') = fatals tr).
  { intros s1 Fx Q.
    destruct (q_process_spec w config s1 s' Q) as (d & rest & _ & P & _).
    destruct (worker_events_quiet w config d) as (_ & Wf & _).
    rewrite P. fields. rewrite !fatals_app, Fx, Wf, !app_nil_r.
    reflexivity. }
  destruct l as [|r el|r msg|r msg|r]; cbn [step] in St; fields.
  - destruct ps; [|discriminate]. arrive St. intros Q. left.
    eapply D; [|exact Q]. reflexivity.
  - destruct (take r st) as [[t rest]|] eqn:T; [|discriminate].
    arrive St.
    unfold on_finish. rewrite !output_spec. fields.
    unfold done, q_next, errHandler. fields. unfold q_idle. fields.
    destruct (List.length q + (n - 1) =? 0);
      [destruct dr; [unfold drain; fields; destruct cbc;
                     rewrite ?output_spec; fields|]|];
      intros Q; left; (eapply D; [|exact Q]); fields;
      repeat (progress (rewrite ?fatals_app, ?fatals_say;
                        cbn [fatals app]));
      rewrite ?app_nil_r; reflexivity.
  - destruct (take r st) as [[t rest]|] eqn:T; [|discriminate].
    destruct (retries (file t) <? MAX_RETRIES) eqn:Lt.
    + arrive St. unfold on_error. fields. rewrite Lt.
      rewrite !output_spec. fields.
      intros St. inversion St; subst s'; clear St. left. fields.
      repeat (progress (rewrite ?fatals_app, ?fatals_say;
                        cbn [fatals app])).
      rewrite ?app_nil_r. reflexivity.
    + right. apply Nat.ltb_ge in Lt. exists r, msg, t, rest. auto.
  - destruct (take r st) as [[t rest]|]; discriminate.
  - destruct (take_timer r tm) as [[t rest]|] eqn:T; [|discriminate].
    arrive St.
    assert (Busy : (List.length (q ++ [t]) + (n - 1) =? 0) = false).
    { apply Nat.eqb_neq. rewrite length_app. simpl. lia. }
    unfold on_timeout, q_push. fields.
    destruct ps; fields; unfold done, q_next, errHandler; fields;
      unfold q_idle; fields; rewrite Busy;
      intros Q; left; (eapply D; [|exact Q]); fields;
      rewrite fatals_app; cbn [fatals]; rewrite app_nil_r; reflexivity.
Qed.


End Failures.

(** ** The files that have been read *)

Section Reading.

Context `{Env}.

Variable w : World.
Variable config : Config.
Variable onOutput : bool.
Variable totalFiles : nat.

Lemma readable_bump (t : Task) : readable w t -> readable w (bump t).
Proof. intros R. exact R. Qed.

Lemma Readable_process (s s' : State) :
  Readable w s -> q_process w config s = Goes s' -> Readable w s'.
Proof.
  intros R Q.
  destruct (q_process_spec w config s s' Q) as (d & rest & _ & P & _ & _ & Rd).
  rewrite P. unfold Readable in *. fields.
  rewrite !Forall_app in *. tauto.
Qed.

(** The worker that throws is not the worker of a task that has been
    read. *)
Lemma Readable_dies (s : State) (e : Exn) (d : State) :
  Readable w s -> q_process w config s = Dies e d ->
  Readable w d /\
  exists t, In t (q_tasks s) /\ statSync w (src (file t)) = inl e.
Proof.
  intros R Q.
  destruct (q_process_dies w config s e d Q) as (ds & t & rest & Eq & P & Rd & X).
  rewrite P. unfold Readable in *. fields. split.
  - rewrite !Forall_app in *. tauto.
  - exists t. split; [|exact X]. rewrite Eq. apply in_app_iff. right. left.
    reflexivity.
Qed.

Lemma step_Readable (l : Label) (s s' : State) :
  step w config onOutput totalFiles l s = Some (Goes s') ->
  Readable w s -> Readable w s'.
Proof.
  intros St R. destruct s as [q n ps dr cbc comp st tm tr].
  unfold Readable in R. fields.
  destruct l as [|r el|r msg|r msg|r]; cbn [step] in St; fields.
  - destruct ps; [|discriminate]. arrive St.
    apply Readable_process. exact R.
  - destruct (take r st) as [[t rest]|] eqn:T; [|discriminate].
    arrive St. apply take_perm in T. destruct T as [_ P].
    assert (R' : Forall (readable w) (rest ++ map snd tm)).
    { rewrite !Forall_app in *. destruct R as [Rs Rt].
      apply (Permutation_Forall P) in Rs. inversion Rs; subst. auto. }
    unfold on_finish. rewrite !output_spec. fields.
    unfold done, q_next, errHandler. fields. unfold q_idle. fields.
    destruct (List.length q + (n - 1) =? 0);
      [destruct dr; [unfold drain; fields; destruct cbc;
                     rewrite ?output_spec; fields|]|];
      apply Readable_process; exact R'.
  - destruct (take r st) as [[t rest]|] eqn:T; [|discriminate].
    arrive St. apply take_perm in T. destruct T as [_ P].
    assert (R' : readable w t /\ Forall (readable w) (rest ++ map snd tm)).
    { rewrite !Forall_app in *. destruct R as [Rs Rt].
      apply (Permutation_Forall P) in Rs. inversion Rs; subst. auto. }
    destruct R' as [Rt R'].
    unfold on_error. fields.
    destruct (retries (file t) <? MAX_RETRIES).
    + rewrite !output_spec. fields.
      intros St. inversion St; subst s'; clear St.
      unfold Readable. fields. rewrite map_app, app_assoc.
      apply Forall_app. split; [exact R'|].
      constructor; [apply readable_bump; exact Rt|constructor].
    + destruct cbc; unfold done, q_next, errHandler, q_kill; fields;
        unfold q_idle; fields;
        destruct (List.length (@nil Task) + (n - 1) =? 0);
        apply Readable_process; exact R'.
  - destruct (take r st) as [[t rest]|]; discriminate.
  - destruct (take_timer r tm) as [[t rest]|] eqn:T; [|discriminate].
    arrive St. apply take_timer_perm in T. destruct T as (_ & P & Len).
    assert (R' : Forall (readable w) (st ++ map snd rest)).
    { rewrite !Forall_app in *. destruct R as [Rs Rt].
      apply (Permutation_Forall P) in Rt. inversion Rt; subst. auto. }
    assert (Busy : (List.length (q ++ [t]) + (n - 1) =? 0) = false).
    { apply Nat.eqb_neq. rewrite length_app. simpl. lia. }
    unfold on_timeout, q_push. fields.
    destruct ps; fields; unfold done, q_next, errHandler; fields;
      unfold q_idle; fields; rewrite Busy;
      apply Readable_process; exact R'.
Qed.

Lemma run_Readable (ls : list Label) :
  forall s s',
    run w config onOutput totalFiles ls s = Some s' ->
    Readable w s -> Readable w s'.
Proof.
  induction ls as [|l ls IH]; simpl; intros s s' R I.
  - inversion R; subst. exact I.
  - destruct (step w config onOutput totalFiles l s) as [[s1|e1 d1]|] eqn:St;
      try discriminate.
    eapply IH; [exact R|]. eapply step_Readable; eassumption.
Qed.

(** A callback that an exception leaves has not called the completion
    callback; the exception is the ['error'] of a read stream or what
    [fs.statSync] throws on a file that waits in the queue. *)
Lemma step_dies (l : Label) (s : State) (e : Exn) (d : State) :
  step w config onOutput totalFiles l s = Some (Dies e d) ->
  Readable w s ->
  callbacks (trace d) = callbacks (trace s) /\
  fatals (trace d) = fatals (trace s) /\
  ((exists r, l = ReadError r e /\ d = s) \/
   (exists t, In t (q_tasks s) /\ statSync w (src (file t)) = inl e)).
Proof.
  intros St R. destruct s as [q n ps dr cbc comp st tm tr].
  unfold Readable in R. fields.
  assert (D : forall s1 x,
             trace s1 = tr ++ x -> callbacks x = [] -> fatals x = [] ->
             incl (q_tasks s1) q ->
             q_process w config s1 = Dies e d ->
             callbacks (trace d) = callbacks tr /\
             fatals (trace d) = fatals tr /\
             ((exists r, l = ReadError r e /\
                         d = {| q_tasks := q; numRunning := n;
                                processingScheduled := ps; q_drain := dr;
                                cbCalled := cbc; completedUploads := comp;
                                streams := st; timers := tm; trace := tr |}) \/
              (exists t, In t q /\ statSync w (src (file t)) = inl e))).
  { intros s1 x Tx Cx Fx Iq Q.
    destruct (q_process_dies w config s1 e d Q)
      as (ds & t & rest & Eq & P & _ & X).
    destruct (worker_events_quiet w config ds) as (Wc & Wf & _).
    rewrite P. fields. rewrite Tx, !callbacks_app, !fatals_app, Cx, Fx, Wc, Wf.
    rewrite !app_nil_r. split; [reflexivity|]. split; [reflexivity|].
    right. exists t. split; [|exact X]. apply Iq. rewrite Eq.
    apply in_app_iff. right. left. reflexivity. }
  destruct l as [|r el|r msg|r msg|r]; cbn [step] in St; fields.
  - destruct ps; [|discriminate]. arrive St.
    apply (D _ []); fields; [rewrite app_nil_r| | |apply incl_refl];
      reflexivity.
  - destruct (take r st) as [[t rest]|] eqn:T; [|discriminate].
    arrive St.
    unfold on_finish. rewrite !output_spec. fields.
    unfold done, q_next, errHandler. fields. unfold q_idle. fields.
    destruct (List.length q + (n - 1) =? 0) eqn:Idle.
    + apply Nat.eqb_eq in Idle. destruct q; [|simpl in Idle; lia].
      destruct dr; [unfold drain; fields; destruct cbc;
                    rewrite ?output_spec; fields|];
        unfold q_process; fields; discriminate.
    + intros Q. eapply D.
      5: exact Q.
      * fields. rewrite <- app_assoc. reflexivity.
      * rewrite callbacks_app, callbacks_say. reflexivity.
      * rewrite fatals_app, fatals_say. reflexivity.
      * apply incl_refl.
  - destruct (take r st) as [[t rest]|] eqn:T; [|discriminate].
    arrive St. unfold on_error. fields.
    destruct (retries (file t) <? MAX_RETRIES); [discriminate|].
    destruct cbc; unfold done, q_next, errHandler, q_kill; fields;
      unfold q_idle; fields;
      destruct (List.length (@nil Task) + (n - 1) =? 0);
      unfold q_process; fields; discriminate.
  - destruct (take r st) as [[t rest]|]; [|discriminate].
    inversion St; subst. split; [reflexivity|]. split; [reflexivity|].
    left. eauto.
  - destruct (take_timer r tm) as [[t rest]|] eqn:T; [|discriminate].
    arrive St. apply take_timer_perm in T. destruct T as (_ & P & Len).
    assert (Rt : readable w t).
    { apply Forall_app in R. destruct R as [_ R].
      apply (Permutation_Forall P) in R. inversion R; assumption. }
    assert (Busy : (List.length (q ++ [t]) + (n - 1) =? 0) = false).
    { apply Nat.eqb_neq. rewrite length_app. simpl. lia. }
    unfold on_timeout, q_push. fields.
    destruct ps; fields; unfold done, q_next, errHandler; fields;
      unfold q_idle; fields; rewrite Busy; intros Q;
      destruct (q_process_dies w config _ e d Q)
        as (ds & t' & rest' & Eq & Pd & _ & X);
      destruct (worker_events_quiet w config ds) as (Wc & Wf & _);
      rewrite Pd; fields;
      rewrite !callbacks_app, !fatals_app, Wc, Wf; cbn [callbacks fatals];
      rewrite !app_nil_r;
      (split; [reflexivity|]); (split; [reflexivity|]);
      right; exists t'; (split; [|exact X]);
      assert (It : In t' (q ++ [t]))
        by (rewrite Eq; apply in_app_iff; right; left; reflexivity);
      (apply in_app_iff in It; destruct It as [It|[<-|[]]];
       [exact It|destruct Rt as [stt Rt]; congruence]).
Qed.

End Reading.

(** ** Batches started by [uploadPaths] *)

Section Claims.

Context `{Env}.

Variable m : GcsModule.
Variable config : Config.
Variable w : World.
Variables srcFolder bucketName dstFolder : string.
Variable paths : list string.
Variable onOutput : bool.

Lemma spec_tasks_fresh (p : string) :
  Forall (fun f => retries f = 0) (spec_tasks w srcFolder dstFolder p).
Proof.
  unfold spec_tasks.
  destruct (existsSync w (path_join srcFolder p)); [|constructor].
  destruct (lstatSync w (path_join srcFolder p)) as [e|st]; [constructor|].
  destruct (isDirectory st); [|repeat constructor].
  destruct (glob_sync w (p +:+ "/**") srcFolder) as [e|listed];
    [constructor|].
  apply Forall_forall. intros f If. apply in_map_iff in If.
  destruct If as (rel & <- & _). reflexivity.
Qed.

(** [uploadPaths] leaves a batch in a state that satisfies the invariant,
    with nothing but lines of output behind it. *)
Lemma uploadPaths_queued (s0 : State) :
  uploadPaths m config w srcFolder bucketName dstFolder paths onOutput
  = Queued s0 ->
  Inv true (List.length (q_tasks s0)) s0 /\ quiet (trace s0).
Proof.
  unfold uploadPaths.
  destruct (storage m); [|discriminate].
  destruct (bucket m); [|discriminate].
  destruct (expand_paths w srcFolder dstFolder paths [] [])
    as [[e|ul] tr] eqn:E; [discriminate|].
  pose proof (expand_paths_quiet w srcFolder dstFolder paths [] []) as Q.
  rewrite E in Q. cbn [snd] in Q.
  apply expand_paths_spec in E. destruct E as [E _]. cbn [app] in E.
  destruct (List.length ul =? 0) eqn:L; [discriminate|].
  apply Nat.eqb_neq in L.
  intros X. inversion X; subst s0; clear X.
  unfold q_push, new_queue. fields. cbn [app].
  assert (Qt : quiet (tr ++ say onOutput
                         ("Uploading " +:+ show (List.length ul) +:+
                          " files to GCS bucket '" +:+ gcsBucket config +:+
                          "'..."))).
  { apply quiet_app; [apply Q; repeat split|apply quiet_say]. }
  split; [|exact Qt].
  replace (List.length (number 0 ul)) with (List.length ul)
    by (rewrite <- (length_map ref), number_refs, length_seq; reflexivity).
  apply start_Inv; [destruct ul; [contradiction|discriminate]| |exact Qt].
  subst ul. apply Forall_forall. intros f If. apply in_flat_map in If.
  destruct If as (p & _ & If).
  pose proof (spec_tasks_fresh p) as F. rewrite Forall_forall in F. auto.
Qed.

Lemma in_started (t : Task) (opts : UploadOptions) (tr : Trace) :
  In (CreateWriteStream t opts) tr -> In (ref t) (started tr).
Proof.
  induction tr as [|x tr IH]; simpl; [tauto|].
  intros [->|I]; [left; reflexivity|].
  destruct x; simpl; auto.
Qed.

(** What is known of every state that a batch reaches. *)
Lemma batch_facts (s0 : State) (ls : list Label) (s : State) :
  uploadPaths m config w srcFolder bucketName dstFolder paths onOutput
  = Queued s0 ->
  batch_run w config onOutput s0 ls = Some s ->
  Inv true (List.length (q_tasks s0)) s /\
  follows w (List.length ls) s0 s /\
  quiet (trace s0).
Proof.
  intros U R. apply uploadPaths_queued in U. destruct U as [I0 Q0].
  split; [eapply run_Inv; eassumption|].
  split; [eapply run_follows; exact R|exact Q0].
Qed.

(** In every state that a batch reaches, the tasks that are with a worker
    have had their files read. *)
Lemma batch_readable (s0 : State) (ls : list Label) (s : State) :
  uploadPaths m config w srcFolder bucketName dstFolder paths onOutput
  = Queued s0 ->
  batch_run w config onOutput s0 ls = Some s ->
  Readable w s.
Proof.
  intros U R. eapply run_Readable; [exact R|].
  revert U. unfold uploadPaths.
  destruct (storage m); [|discriminate].
  destruct (bucket m); [|discriminate].
  destruct (expand_paths w srcFolder dstFolder paths [] [])
    as [[e|ul] tr]; [discriminate|].
  destruct (List.length ul =? 0); [discriminate|].
  intros X. inversion X; subst s0; clear X.
  unfold Readable, q_push, new_queue. fields. constructor.
Qed.

(** C1, as amended.  A call of [uploadPaths] that returns at once has
    called the completion callback exactly once.  A call that starts a
    batch leaves a state from which the event loop runs at most
    [weight s0] callbacks of the batch.  After any number of them that
    have all returned, the callback has been called at most once: not yet,
    and then no [done] has received an error and a callback of the event
    loop is still pending; or once with no error, and then no [done] has
    received an error, every task is completed and none is left; or once
    with the first error that a [done] has received.  Once nothing is
    pending it has been called exactly once, whatever the order in which
    the streams and the timers have fired.  A callback that an exception
    leaves, the ['error'] of a read stream or what [fs.statSync] throws on
    a file of the queue, does not call the completion callback: when it
    has not been called by then, it never is.  Nor does a call of
    [uploadPaths] that an exception leaves while the list is built. *)
Theorem callback_exactly_once :
  (forall tr,
      uploadPaths m config w srcFolder bucketName dstFolder paths onOutput
      = Returned tr ->
      exists c, callbacks tr = [c]) /\
  (forall s0 ls s,
      uploadPaths m config w srcFolder bucketName dstFolder paths onOutput
      = Queued s0 ->
      batch_run w config onOutput s0 ls = Some s ->
      List.length ls <= weight s0 /\
      ((callbacks (trace s) = [] /\ fatals (trace s) = [] /\
        exists l turn,
          step w config onOutput (List.length (q_tasks s0)) l s = Some turn) \/
       (callbacks (trace s) = [None] /\ fatals (trace s) = [] /\
        completedUploads s = List.length (q_tasks s0) /\ live s = []) \/
       (exists e rest,
           fatals (trace s) = e :: rest /\ callbacks (trace s) = [Some e])) /\
      (quiescent s -> exists c, callbacks (trace s) = [c]) /\
      (forall l e d,
          step w config onOutput (List.length (q_tasks s0)) l s
          = Some (Dies e d) ->
          callbacks (trace d) = callbacks (trace s) /\
          ((exists r, l = ReadError r e) \/
           (exists t, In t (q_tasks s) /\
                      statSync w (src (file t)) = inl e)))) /\
  (forall e tr,
      uploadPaths m config w srcFolder bucketName dstFolder paths onOutput
      = Threw e tr ->
      callbacks tr = []).
Proof.
  split; [|split].
  - intros tr. unfold uploadPaths.
    destruct (storage m); [|intros X; inversion X; eexists; reflexivity].
    destruct (bucket m); [|intros X; inversion X; eexists; reflexivity].
    pose proof (expand_paths_quiet w srcFolder dstFolder paths [] []) as Q.
    destruct (expand_paths w srcFolder dstFolder paths [] [])
      as [[e|ul] tr0]; [discriminate|].
    destruct (List.length ul =? 0); [|discriminate].
    intros X; inversion X; subst. exists None.
    destruct Q as (Qc & _); [repeat split|]. cbn [snd] in Qc.
    rewrite !callbacks_app, Qc, callbacks_say. reflexivity.
  - intros s0 ls s U R.
    destruct (batch_facts s0 ls s U R) as (I & (W & _) & _).
    pose proof (batch_readable s0 ls s U R) as Rd.
    split; [lia|].
    assert (D : forall l e d,
               step w config onOutput (List.length (q_tasks s0)) l s
               = Some (Dies e d) ->
               callbacks (trace d) = callbacks (trace s) /\
               ((exists r, l = ReadError r e) \/
                (exists t, In t (q_tasks s) /\
                           statSync w (src (file t)) = inl e))).
    { intros l e d St.
      destruct (step_dies w config onOutput _ l s e d St Rd)
        as (C & _ & [(r & E & _)|X]); eauto. }
    destruct (Inv_callbacks _ s I)
      as [(_ & Hc & Hf & P)|[(_ & Hc & Hf & Hn & Hl)|(_ & e & rest & Hf & Hc)]].
    + split; [|split; [|exact D]].
      * left. repeat split; auto. apply pending_enabled. exact P.
      * intros (Qp & Qs & Qt). exfalso.
        destruct P as [P|[P|P]]; congruence.
    + split; [right; left; auto|split; [eauto|exact D]].
    + split; [right; right; eauto|split; [eauto|exact D]].
  - intros e tr. unfold uploadPaths.
    destruct (storage m); [|discriminate].
    destruct (bucket m); [|discriminate].
    pose proof (expand_paths_quiet w srcFolder dstFolder paths [] []) as Q.
    destruct (expand_paths w srcFolder dstFolder paths [] [])
      as [[e'|ul] tr0].
    + intros X. inversion X; subst. apply Q. repeat split.
    + destruct (List.length ul =? 0); discriminate.
Qed.


(** The first error that [done] receives stays the one that the callback
    has received. *)
Lemma abort_is_final (s0 : State) (ls ls' : list Label) (s s' : State)
      (e : Exn) :
  uploadPaths m config w srcFolder bucketName dstFolder paths onOutput
  = Queued s0 ->
  batch_run w config onOutput s0 ls = Some s ->
  run w config onOutput (List.length (q_tasks s0)) ls' s = Some s' ->
  callbacks (trace s) = [Some e] ->
  callbacks (trace s') = [Some e].
Proof.
  intros U R R' C.
  destruct (batch_facts s0 ls s U R) as (I & _ & _).
  pose proof (run_Inv w config onOutput _ ls' s s' R' I) as I'.
  destruct (run_follows w config onOutput _ ls' s s' R')
    as (_ & _ & x & Tx & _).
  destruct (Inv_callbacks _ s I)
    as [(_ & Hc & _)|[(_ & Hc & _)|(_ & e1 & rest & Hf & Hc)]];
    rewrite Hc in C; inversion C; subst e1.
  destruct (Inv_callbacks _ s' I')
    as [(_ & _ & Hf' & _)|[(_ & _ & Hf' & _)|(_ & e2 & rest' & Hf' & Hc')]];
    rewrite Tx, fatals_app, Hf in Hf'; try discriminate.
  inversion Hf'; subst. exact Hc'.
Qed.

(** C5.  In every state that a batch reaches, every task that it still
    holds has between zero and five retries behind it.  A task whose
    transfer fails at five retries leaves the batch with that failure: in
    no later state is it in the queue, with a worker or on a timer. *)
Theorem attempts_bounded_exhausted_terminal :
  forall s0 ls s,
    uploadPaths m config w srcFolder bucketName dstFolder paths onOutput
    = Queued s0 ->
    batch_run w config onOutput s0 ls = Some s ->
    Forall (fun t => 0 <= retries (file t) <= MAX_RETRIES) (live s) /\
    (forall r message t rest s' ls' s'',
        take r (streams s) = Some (t, rest) ->
        MAX_RETRIES <= retries (file t) ->
        step w config onOutput (List.length (q_tasks s0))
             (StreamError r message) s = Some (Goes s') ->
        run w config onOutput (List.length (q_tasks s0)) ls' s' = Some s'' ->
        ~ In r (map ref (q_tasks s'')) /\ ~ In r (map ref (live s''))).
Proof.
  intros s0 ls s U R.
  destruct (batch_facts s0 ls s U R) as (I & _ & _).
  destruct I as [Ir Ind Ire Idl Ist Ib Ic Ia Iab].
  split.
  - eapply Forall_impl; [|exact Ire]. intros t Le. cbn beta in *. lia.
  - intros r message t rest s' ls' s'' T Ge St R'.
    rewrite (fatal_step w config onOutput _ r message s t rest T Ge) in St.
    inversion St; subst s'; clear St.
    pose proof (take_perm _ _ _ _ T) as [Rt P].
    pose proof (perm_live (q_tasks s) (map snd (timers s)) P) as PL.
    pose proof (Permutation_NoDup (Permutation_map ref PL) Ind) as N.
    cbn [map] in N. inversion N as [|? ? Nin _]; subst.
    destruct (run_follows w config onOutput _ ls' _ s'' R') as (_ & Inc & _).
    fields.
    assert (Gone : ~ In (ref t) (map ref (live s''))).
    { intros X. apply Inc in X. apply Nin. cbn [app] in X.
      rewrite !map_app, !in_app_iff in *. tauto. }
    split; [|exact Gone].
    intros X. apply Gone. unfold live. rewrite map_app, in_app_iff. auto.
Qed.

(** C8.  The options of a transfer depend on the size of the file alone:
    it is resumable exactly above 5 MiB, and it has a chunk size, of 10 MiB,
    exactly above 10 MiB; a file of 12 MiB is transferred resumable and in
    chunks.  Every write stream that a batch creates has the options that
    the size of its file gives. *)
Theorem transfer_mode_follows_size :
  (forall fileSize ctype,
      (resumable (uploadOptions fileSize ctype) = true <->
       (5 * 1024 * 1024 < fileSize)%Z) /\
      (chunkSize (uploadOptions fileSize ctype) = Some (10 * 1024 * 1024)%Z <->
       (10 * 1024 * 1024 < fileSize)%Z) /\
      (chunkSize (uploadOptions fileSize ctype) = None <->
       (fileSize <= 10 * 1024 * 1024)%Z)) /\
  (forall ctype,
      resumable (uploadOptions (12 * 1024 * 1024) ctype) = true /\
      chunkSize (uploadOptions (12 * 1024 * 1024) ctype)
      = Some (10 * 1024 * 1024)%Z) /\
  (forall s0 ls s t opts,
      uploadPaths m config w srcFolder bucketName dstFolder paths onOutput
      = Queued s0 ->
      batch_run w config onOutput s0 ls = Some s ->
      In (CreateWriteStream t opts) (trace s) ->
      exists st,
        statSync w (src (file t)) = inr st /\
        opts = uploadOptions (size st) (getContentType (src (file t)))).
Proof.
  split; [|split].
  - intros fileSize ctype. unfold uploadOptions, MiB. cbn [resumable chunkSize].
    split; [rewrite Z.ltb_lt; lia|].
    destruct (10 * (1024 * 1024) <? fileSize)%Z eqn:L10;
      [apply Z.ltb_lt in L10|apply Z.ltb_ge in L10];
      (split; split; intros X; try discriminate X; try reflexivity; lia).
  - intros ctype. split; reflexivity.
  - intros s0 ls s t opts U R It.
    destruct (batch_facts s0 ls s U R) as (_ & (_ & _ & x & Tx & Fx) & Q0).
    rewrite Tx in It. apply in_app_iff in It. destruct It as [It|It].
    + apply in_started in It. destruct Q0 as (_ & _ & Qs & _).
      rewrite Qs in It. destruct It.
    + rewrite Forall_forall in Fx. apply (Fx _ It).
Qed.

End Claims.

(** ** The theorems at work on the small environment *)

Ltac by_evaluation := vm_compute; reflexivity.

Lemma callback_exactly_once_witness :
  List.length (Immediate :: Demo.failing 5 ++ [StreamError 0 "reset"%string])
  <= weight Demo.batch /\
  callbacks (trace (Demo.after (Immediate :: Demo.failing 5 ++
                                [StreamError 0 "reset"%string]))) =
  [Some "Failed to upload all.zip after 5 retries: reset"%string].
Proof.
  assert (U : @uploadPaths Demo.steady Demo.ready Demo.config Demo.disk
                "/data" "" "task1" ["all.zip"%string] true
              = Queued Demo.batch) by by_evaluation.
  assert (R : @batch_run Demo.steady Demo.disk Demo.config true Demo.batch
                (Immediate :: Demo.failing 5 ++ [StreamError 0 "reset"%string])
              = Some (Demo.after (Immediate :: Demo.failing 5 ++
                                  [StreamError 0 "reset"%string])))
    by by_evaluation.
  destruct (@callback_exactly_once Demo.steady Demo.ready Demo.config
              Demo.disk "/data" "" "task1" ["all.zip"%string] true)
    as (_ & T & _).
  destruct (T _ _ _ U R) as (L & C & _).
  split; [exact L|].
  destruct C as [(C & _)|[(C & _)|(e & rest & F & C)]].
  - vm_compute in C. discriminate C.
  - vm_compute in C. discriminate C.
  - vm_compute in F. inversion F; subst. exact C.
Defined.


Lemma attempts_bounded_exhausted_terminal_witness :
  Forall (fun t => 0 <= retries (file t) <= MAX_RETRIES)
         (live (Demo.after (Immediate :: Demo.failing 5))) /\
  ~ In 0 (map ref (live (Demo.after (Immediate :: Demo.failing 5 ++
                                     [StreamError 0 "reset"%string])))).
Proof.
  assert (U : @uploadPaths Demo.steady Demo.ready Demo.config Demo.disk
                "/data" "" "task1" ["all.zip"%string] true
              = Queued Demo.batch) by by_evaluation.
  assert (R : @batch_run Demo.steady Demo.disk Demo.config true Demo.batch
                (Immediate :: Demo.failing 5)
              = Some (Demo.after (Immediate :: Demo.failing 5)))
    by by_evaluation.
  assert (T : take 0 (streams (Demo.after (Immediate :: Demo.failing 5)))
              = Some (Demo.archive 5, [])) by by_evaluation.
  assert (St : step (H := Demo.steady) Demo.disk Demo.config true
                    (List.length (q_tasks Demo.batch))
                    (StreamError 0 "reset")
                    (Demo.after (Immediate :: Demo.failing 5))
               = Some (Goes (Demo.after (Immediate :: Demo.failing 5 ++
                                         [StreamError 0 "reset"%string]))))
    by by_evaluation.
  destruct (@attempts_bounded_exhausted_terminal Demo.steady Demo.ready
              Demo.config Demo.disk "/data" "" "task1" ["all.zip"%string]
              true _ _ _ U R) as [F G].
  split; [exact F|].
  destruct (G 0 "reset"%string _ _
              (Demo.after (Immediate :: Demo.failing 5 ++
                           [StreamError 0 "reset"%string]))
              []
              (Demo.after (Immediate :: Demo.failing 5 ++
                           [StreamError 0 "reset"%string]))
              T) as [_ X].
  - cbn. unfold MAX_RETRIES. lia.
  - exact St.
  - reflexivity.
  - exact X.
Defined.

Lemma empty_batch_succeeds_at_once_witness :
  @uploadPaths Demo.steady Demo.ready Demo.config Demo.disk
               "/data" "" "task1" ["nothing"%string] false =
  Returned ([LoggerDebug "Skipping non-existent path: /data/nothing"] ++
            say false "No files to upload to GCS" ++ [Cb None]).
Proof.
  assert (En : enabled Demo.ready = true) by reflexivity.
  assert (E : @expand_paths Demo.steady Demo.disk "/data" "task1"
                ["nothing"%string] [] [] =
              (inr [], [LoggerDebug "Skipping non-existent path: /data/nothing"]))
    by by_evaluation.
  destruct (@empty_batch_succeeds_at_once Demo.steady Demo.ready Demo.config
              Demo.disk "/data" "" "task1" ["nothing"%string] false _ En E)
    as (A & _ & _).
  exact A.
Defined.


(** C7, as the claim has it, fails: the lock file vanishes between
    [fs.existsSync] and [fs.lstatSync], the exception of [fs.lstatSync]
    leaves [uploadPaths], and the completion callback is not called. *)
Lemma fs_error_is_not_delivered :
  @existsSync Demo.racy Demo.disk "/data/tmp.lock" = true /\
  (exists e, @lstatSync Demo.racy Demo.disk "/data/tmp.lock" = inl e) /\
  ~ failed_early (@uploadPaths Demo.racy Demo.ready Demo.config Demo.disk
                               "/data" "" "task1"
                               ["all.zip"; "tmp.lock"]%string true).
Proof.
  split; [by_evaluation|]. split; [eexists; by_evaluation|].
  vm_compute. intros [].
Qed.

(** C1, as the claim has it, fails.  The second file of the report is
    gone when its worker asks for its size: the exception of [fs.statSync]
    leaves the first callback of the batch, and the completion callback has
    not been called.  The same holds when the read stream of a transfer
    fails. *)
Lemma worker_exception_loses_the_callback :
  (@uploadPaths Demo.racy Demo.ready Demo.config Demo.shrinking "/data" ""
                "task1" ["odm_report"%string] true
   = Queued Samples.fleeting /\
   @step Demo.racy Demo.shrinking Demo.config true
         (List.length (q_tasks Samples.fleeting)) Immediate Samples.fleeting
   = Some (Dies "ENOENT: no such file or directory, stat '/data/odm_report/stats.json'"%string
                Samples.left_behind) /\
   ~ called_once (trace Samples.left_behind)) /\
  (@batch_run Demo.steady Demo.disk Demo.config true Demo.batch [Immediate]
   = Some (Demo.after [Immediate]) /\
   @step Demo.steady Demo.disk Demo.config true
         (List.length (q_tasks Demo.batch))
         (ReadError 0 "EIO: i/o error, read") (Demo.after [Immediate])
   = Some (Dies "EIO: i/o error, read"%string (Demo.after [Immediate])) /\
   ~ called_once (trace (Demo.after [Immediate]))).
Proof.
  split; (split; [by_evaluation|]); (split; [by_evaluation|]);
    intros [c C]; vm_compute in C; discriminate C.
Qed.



Lemma fs_error_leaves_uploadPaths_witness :
  @uploadPaths Demo.racy Demo.ready Demo.config Demo.disk "/data" "" "task1"
               ["all.zip"; "tmp.lock"]%string true =
  Threw "ENOENT: no such file or directory, lstat '/data/tmp.lock'"%string [].
Proof.
  assert (En : enabled Demo.ready = true) by reflexivity.
  assert (P : ["all.zip"; "tmp.lock"]%string =
              ["all.zip"%string] ++ "tmp.lock"%string :: []) by reflexivity.
  assert (E : @expand_paths Demo.racy Demo.disk "/data" "task1"
                ["all.zip"%string] [] [] =
              (inr [file (Demo.archive 0)], [])) by by_evaluation.
  assert (X : @existsSync Demo.racy Demo.disk
                (@path_join Demo.racy "/data" "tmp.lock") = true)
    by by_evaluation.
  assert (L : @lstatSync Demo.racy Demo.disk
                (@path_join Demo.racy "/data" "tmp.lock") =
              inl "ENOENT: no such file or directory, lstat '/data/tmp.lock'"%string)
    by by_evaluation.
  destruct (@fs_error_leaves_uploadPaths Demo.racy Demo.ready Demo.config
              Demo.disk "/data" "" "task1" ["all.zip"; "tmp.lock"]%string true
              _ _ _ _ _ _ En P E X (or_introl L))
    as (A & _ & _).
  exact A.
Defined.

Lemma transfer_mode_follows_size_witness :
  exists st,
    @statSync Demo.steady Demo.disk (src (file (Demo.archive 0))) = inr st /\
    {| resumable := true; validation := "crc32c";
       contentType := "application/zip"; chunkSize := Some 10485760%Z |} =
    uploadOptions (size st)
                  (@getContentType Demo.steady (src (file (Demo.archive 0)))).
Proof.
  assert (U : @uploadPaths Demo.steady Demo.ready Demo.config Demo.disk
                "/data" "" "task1" ["all.zip"%string] true
              = Queued Demo.batch) by by_evaluation.
  assert (R : @batch_run Demo.steady Demo.disk Demo.config true Demo.batch
                [Immediate] = Some (Demo.after [Immediate]))
    by by_evaluation.
  assert (I : In (CreateWriteStream
                    (Demo.archive 0)
                    {| resumable := true; validation := "crc32c";
                       contentType := "application/zip";
                       chunkSize := Some 10485760%Z |})
                 (trace (Demo.after [Immediate]))).
  { vm_compute. right. right. left. reflexivity. }
  destruct (@transfer_mode_follows_size Demo.steady Demo.ready Demo.config
              Demo.disk "/data" "" "task1" ["all.zip"%string] true)
    as (_ & _ & T).
  exact (T _ _ _ _ _ U R I).
Defined.


Lemma uninitialized_module_fails_at_once_witness :
  @uploadPaths Demo.steady Demo.asleep Demo.config Demo.disk
               "/data" "" "task1" ["all.zip"%string] true =
  Returned [Cb (Some "GCS is not initialized"%string)].
Proof.
  apply (@uninitialized_module_fails_at_once Demo.steady). reflexivity.
Defined.

(** A transfer that waits for its retry when the batch aborts is handed to
    a write stream again afterwards, and may complete: of the two files of
    the report, the first fails for good while the second waits for its
    first retry. *)
Example retry_after_abort :
  option_map
    (fun s => (callbacks (trace s),
               started (before_abort (trace s)),
               option_map started (after_abort (trace s)),
               completedUploads s))
    (@batch_run Demo.steady Demo.disk Demo.config true Demo.reports
       (Immediate :: StreamError 1 "reset" :: Demo.failing 5 ++
        [StreamError 0 "reset"; TimerFires 1; StreamFinish 1 "0.2"]%string)) =
  Some ([Some "Failed to upload report.pdf after 5 retries: reset"%string],
        [0; 1; 0; 0; 0; 0; 0], Some [1], 1).
Proof. by_evaluation. Qed.

Section Slots.

Context `{Env}.

Variable w : World.
Variable config : Config.
Variable onOutput : bool.
Variable totalFiles : nat.

(** [q.process] never takes more slots than the queue has. *)
Lemma process_loop_bound (pending : list Task) :
  forall s s',
    numRunning s <= PARALLEL_UPLOADS config ->
    process_loop w config pending s = Goes s' ->
    numRunning s' <= PARALLEL_UPLOADS config.
Proof.
  induction pending as [|t rest IH];
    intros [q n ps dr cbc comp st tm tr] s'; fields; intros B.
  - cbn [process_loop]. intros E. inversion E; subst s'. exact B.
  - cbn [process_loop]. fields.
    destruct (n <? PARALLEL_UPLOADS config) eqn:L; fields;
      [|intros E; inversion E; subst s'; exact B].
    apply Nat.ltb_lt in L.
    destruct (worker w config t _) as [e|s1] eqn:W; [discriminate|].
    apply worker_spec in W. destruct W as [_ ->]. fields.
    apply IH. fields. lia.
Qed.

(** A callback of the event loop that ends with [q.process] leaves no
    task in the queue while a slot is free. *)
Lemma Slots_process (s s' : State) :
  numRunning s <= PARALLEL_UPLOADS config ->
  completedUploads s + List.length (q_tasks s) + numRunning s <= totalFiles ->
  (q_drain s = false ->
   List.length (q_tasks s) <= 1 /\
   (q_tasks s = [] \/ numRunning s < PARALLEL_UPLOADS config)) ->
  q_process w config s = Goes s' ->
  Slots config totalFiles s' /\
  (q_tasks s' = [] \/ numRunning s' = PARALLEL_UPLOADS config).
Proof.
  intros B C K Q. pose proof (process_loop_bound (q_tasks s) s s' B Q) as B'.
  destruct (q_process_spec w config s s' Q) as (d & q' & Eq & P & X & Y & _).
  clear Q. rewrite P in *. unfold Slots. fields.
  apply (f_equal (@List.length _)) in Eq as Len. rewrite length_app in Len.
  assert (Sat : q' = [] \/ numRunning s + List.length d = PARALLEL_UPLOADS config)
    by (destruct X; [auto|right; lia]).
  split; [|exact Sat].
  split; [exact B'|]. split; [lia|].
  split; [destruct Sat; [auto|right; left; lia]|].
  intros Dr. destruct (K Dr) as [L1 [E|Lt]].
  - rewrite E in Eq. symmetry in Eq. apply app_eq_nil in Eq. tauto.
  - destruct (q_tasks s) as [|t q] eqn:Q.
    + symmetry in Eq. apply app_eq_nil in Eq. tauto.
    + destruct d as [|t' d]; [exfalso; apply Y; [exact Lt|discriminate|reflexivity]|].
      destruct q'; [reflexivity|]. simpl in Len, L1. lia.
Qed.

Lemma step_Slots (l : Label) (s s' : State) :
  step w config onOutput totalFiles l s = Some (Goes s') ->
  Inv true totalFiles s ->
  Slots config totalFiles s ->
  Slots config totalFiles s' /\
  (q_tasks s' = [] \/ numRunning s' = PARALLEL_UPLOADS config).
Proof.
  intros St I (B & C & W & K).
  pose proof (inv_running _ _ _ I) as Ir.
  destruct l as [|r el|r msg|r msg|r].
  - destruct s as [q n ps dr cbc comp st tm tr]. cbn [step] in St. fields.
    destruct ps; [|discriminate]. arrive St.
    apply Slots_process; fields; auto.
    intros Dr. rewrite (K Dr). simpl. auto.
  - destruct s as [q n ps dr cbc comp st tm tr]. cbn [step] in St. fields.
    destruct (take r st) as [[t rest]|] eqn:T; [|discriminate].
    arrive St.
    apply take_perm in T. destruct T as [_ P].
    apply Permutation_length in P. cbn [List.length] in P.
    unfold on_finish. rewrite !output_spec. fields.
    unfold done, q_next, errHandler. fields. unfold q_idle. fields.
    destruct (List.length q + (n - 1) =? 0);
      [destruct dr; [unfold drain; fields; destruct cbc;
                     rewrite ?output_spec; fields|]|];
      apply Slots_process; fields; try lia;
      intros Dr; try discriminate Dr; rewrite (K Dr); simpl; auto.
  - destruct (take r (streams s)) as [[t rest]|] eqn:T;
      [|cbn [step] in St; rewrite T in St; discriminate].
    pose proof (take_perm _ _ _ _ T) as [_ P].
    apply Permutation_length in P. cbn [List.length] in P.
    destruct (retries (file t) <? MAX_RETRIES) eqn:Lt.
    + apply Nat.ltb_lt in Lt.
      rewrite (retry_step w config onOutput totalFiles r msg _ t rest T Lt) in St.
      inversion St; subst s'; clear St. unfold Slots. fields.
      assert (Sat : q_tasks s = [] \/ numRunning s = PARALLEL_UPLOADS config)
        by (destruct W as [W|[W|W]]; [auto|right; lia|lia]).
      split; [|exact Sat].
      split; [exact B|]. split; [exact C|]. split; [|exact K].
      destruct Sat; [auto|right; left; lia].
    + apply Nat.ltb_ge in Lt.
      rewrite (fatal_step w config onOutput totalFiles r msg _ t rest T Lt) in St.
      inversion St; subst s'; clear St. unfold Slots. fields.
      split; [|auto]. split; [lia|]. split; [simpl; lia|]. auto.
  - cbn [step] in St. destruct (take r (streams s)) as [[t rest]|];
      discriminate.
  - destruct s as [q n ps dr cbc comp st tm tr]. cbn [step] in St. fields.
    destruct (take_timer r tm) as [[t rest]|] eqn:T; [|discriminate].
    arrive St.
    apply take_timer_perm in T. destruct T as (_ & P & Len).
    assert (Busy : (List.length (q ++ [t]) + (n - 1) =? 0) = false).
    { apply Nat.eqb_neq. rewrite length_app. simpl. lia. }
    unfold on_timeout, q_push. fields.
    destruct ps; fields; unfold done, q_next, errHandler; fields;
      unfold q_idle; fields; rewrite Busy;
      apply Slots_process; fields; rewrite ?length_app; simpl; try lia;
      intros Dr; rewrite (K Dr); simpl; split; auto; right; lia.
Qed.

Lemma run_Slots (ls : list Label) :
  forall s s',
    run w config onOutput totalFiles ls s = Some s' ->
    Inv true totalFiles s ->
    Slots config totalFiles s ->
    Slots config totalFiles s' /\
    (ls <> [] ->
     q_tasks s' = [] \/ numRunning s' = PARALLEL_UPLOADS config).
Proof.
  induction ls as [|l ls IH]; simpl; intros s s' R I S.
  - inversion R; subst. split; [exact S|congruence].
  - destruct (step w config onOutput totalFiles l s) as [[s1|e1 d1]|] eqn:St;
      try discriminate.
    destruct (step_Slots l s s1 St I S) as [S1 Sat1].
    pose proof (step_Inv w config onOutput totalFiles l s s1 St I) as I1.
    destruct (IH s1 s' R I1 S1) as [S' Sat'].
    split; [exact S'|]. intros _.
    destruct ls as [|l' ls]; [|apply Sat'; discriminate].
    simpl in R. inversion R; subst. exact Sat1.
Qed.

End Slots.
Section Pool.

Context `{Env}.

Variable m : GcsModule.
Variable config : Config.
Variable w : World.
Variables srcFolder bucketName dstFolder : string.
Variable paths : list string.
Variable onOutput : bool.

(** The batch that [uploadPaths] leaves: the whole upload list in the
    queue, and [q.process] scheduled. *)
Lemma uploadPaths_start (s0 : State) :
  uploadPaths m config w srcFolder bucketName dstFolder paths onOutput
  = Queued s0 ->
  exists tr,
    s0 = {| q_tasks := number 0 (flat_map (spec_tasks w srcFolder dstFolder) paths);
            numRunning := 0;
            processingScheduled := true;
            q_drain := true;
            cbCalled := false;
            completedUploads := 0;
            streams := [];
            timers := [];
            trace := tr |} /\
    flat_map (spec_tasks w srcFolder dstFolder) paths <> [] /\
    enabled m = true.
Proof.
  unfold uploadPaths, enabled.
  destruct (storage m); [|discriminate].
  destruct (bucket m); [|discriminate].
  destruct (expand_paths w srcFolder dstFolder paths [] [])
    as [[e|ul] tr] eqn:E; [discriminate|].
  apply expand_paths_spec in E. destruct E as [E _]. cbn [app] in E.
  destruct (List.length ul =? 0) eqn:L; [discriminate|].
  apply Nat.eqb_neq in L.
  intros X. inversion X; subst s0; clear X.
  unfold q_push, new_queue. fields. cbn [app]. subst ul.
  eexists. split; [reflexivity|]. split; [|reflexivity].
  intros Z. rewrite Z in L. apply L. reflexivity.
Qed.

Lemma batch_Slots (s0 : State) (ls : list Label) (s : State) :
  uploadPaths m config w srcFolder bucketName dstFolder paths onOutput
  = Queued s0 ->
  batch_run w config onOutput s0 ls = Some s ->
  Slots config (List.length (q_tasks s0)) s /\
  (ls <> [] -> q_tasks s = [] \/ numRunning s = PARALLEL_UPLOADS config).
Proof.
  intros U R. pose proof (uploadPaths_queued _ _ _ _ _ _ _ _ _ U) as [I0 _].
  destruct (uploadPaths_start s0 U) as (tr & E & _).
  eapply run_Slots; [exact R|exact I0|].
  rewrite E. unfold Slots. fields.
  split; [lia|]. split; [lia|]. split; [auto|discriminate].
Qed.

(** X1.  In every state that a batch reaches, the transfers in flight and
    the tasks that wait for their retry together never outnumber the
    configured parallel uploads (16 when none is configured): a task that
    waits for its timer keeps the slot of its worker. *)
Theorem in_flight_within_the_pool :
  forall s0 ls s,
    uploadPaths m config w srcFolder bucketName dstFolder paths onOutput
    = Queued s0 ->
    batch_run w config onOutput s0 ls = Some s ->
    numRunning s = List.length (streams s) + List.length (timers s) /\
    List.length (streams s) + List.length (timers s)
    <= PARALLEL_UPLOADS config /\
    (gcsParallelUploads config = None \/ gcsParallelUploads config = Some 0 ->
     List.length (streams s) + List.length (timers s) <= 16).
Proof.
  intros s0 ls s U R.
  destruct (batch_Slots s0 ls s U R) as [(B & _) _].
  destruct (batch_facts m config w srcFolder bucketName dstFolder paths
                        onOutput s0 ls s U R) as (I & _ & _).
  pose proof (inv_running _ _ _ I) as Ir.
  split; [exact Ir|]. split; [lia|].
  intros D. unfold PARALLEL_UPLOADS in B. destruct D as [D|D]; rewrite D in B; lia.
Qed.

(** X2.  Once the event loop has run a callback of the batch, no file
    waits in the queue while a slot of the pool is free: the queue is
    empty, or as many tasks are with a worker (in flight or waiting for
    their retry) as the pool has slots. *)
Theorem no_free_slot_while_files_wait :
  forall s0 ls s,
    uploadPaths m config w srcFolder bucketName dstFolder paths onOutput
    = Queued s0 ->
    batch_run w config onOutput s0 ls = Some s ->
    ls <> [] ->
    q_tasks s = [] \/
    List.length (streams s) + List.length (timers s) = PARALLEL_UPLOADS config.
Proof.
  intros s0 ls s U R Ne.
  destruct (batch_Slots s0 ls s U R) as [_ Sat].
  destruct (batch_facts m config w srcFolder bucketName dstFolder paths
                        onOutput s0 ls s U R) as (I & _ & _).
  rewrite <- (inv_running _ _ _ I). auto.
Qed.

(** X3.  The files of a batch are accounted for: the uploads counted as
    completed, the tasks in the queue, those in flight and those waiting
    for a retry never add up to more than the files of the upload list, so
    that the count of completed uploads never exceeds the total; as long as
    no transfer has failed for good they add up to exactly that number. *)
Theorem files_accounted_for :
  forall s0 ls s,
    uploadPaths m config w srcFolder bucketName dstFolder paths onOutput
    = Queued s0 ->
    batch_run w config onOutput s0 ls = Some s ->
    completedUploads s + List.length (q_tasks s) +
    List.length (streams s) + List.length (timers s)
    <= List.length (q_tasks s0) /\
    completedUploads s <= List.length (q_tasks s0) /\
    (fatals (trace s) = [] ->
     completedUploads s + List.length (q_tasks s) +
     List.length (streams s) + List.length (timers s)
     = List.length (q_tasks s0)).
Proof.
  intros s0 ls s U R.
  destruct (batch_Slots s0 ls s U R) as [(_ & C & _) _].
  destruct (batch_facts m config w srcFolder bucketName dstFolder paths
                        onOutput s0 ls s U R) as (I & _ & _).
  pose proof (inv_running _ _ _ I) as Ir.
  split; [lia|]. split; [lia|]. intros F.
  assert (Dr : q_drain s = true).
  { destruct (cbCalled s) eqn:Cc.
    - destruct (inv_after _ _ _ I Cc) as [(D & _)|(_ & e & rest & Fe & _)];
        [exact D|congruence].
    - destruct (inv_before _ _ _ I Cc) as (D & _). exact D. }
  pose proof (inv_count _ _ _ I Dr). lia.
Qed.


End Pool.
Lemma first_attempts_app (tr1 tr2 : Trace) :
  first_attempts (tr1 ++ tr2) = first_attempts tr1 ++ first_attempts tr2.
Proof.
  induction tr1 as [|e tr1 IH]; simpl; [reflexivity|].
  destruct e; simpl; auto.
  destruct (retries (file t) =? 0); simpl; rewrite IH; reflexivity.
Qed.

Lemma first_attempts_say (b : bool) (msg : string) :
  first_attempts (say b msg) = [].
Proof. destruct b; reflexivity. Qed.

Lemma number_app (l1 l2 : list File) :
  forall i, number i (l1 ++ l2) = number i l1 ++ number (i + List.length l1) l2.
Proof.
  induction l1 as [|f l1 IH]; simpl; intros i.
  - rewrite Nat.add_0_r. reflexivity.
  - rewrite IH, Nat.add_succ_r. reflexivity.
Qed.

Lemma number_app_inv (l : list File) :
  forall i a b,
    number i l = a ++ b ->
    exists l1 l2,
      l = l1 ++ l2 /\ a = number i l1 /\ b = number (i + List.length l1) l2.
Proof.
  induction l as [|f l IH]; simpl; intros i a b E.
  - symmetry in E. apply app_eq_nil in E. destruct E as [-> ->].
    exists [], []. auto.
  - destruct a as [|x a]; simpl in E.
    + exists [], (f :: l). simpl. rewrite Nat.add_0_r. auto.
    + inversion E; subst x. destruct (IH _ _ _ H1) as (l1 & l2 & -> & -> & ->).
      exists (f :: l1), l2. simpl. rewrite Nat.add_succ_r. auto.
Qed.

Section FirstInFirstOut.

Context `{Env}.

Variable w : World.
Variable config : Config.
Variable onOutput : bool.
Variable totalFiles : nat.
Variable uploadList : list File.

Hypothesis fresh : Forall (fun f => retries f = 0) uploadList.

Lemma first_attempts_fresh (fs : list File) :
  Forall (fun f => retries f = 0) fs ->
  forall i,
    first_attempts (flat_map (worker_events w config) (number i fs))
    = seq i (List.length fs).
Proof.
  induction 1 as [|f fs F0 _ IH]; intros i; [reflexivity|].
  cbn [number flat_map worker_events app first_attempts file ref List.length seq].
  rewrite F0. cbn [Nat.eqb]. rewrite IH. reflexivity.
Qed.

Lemma first_attempts_retried (l : list Task) :
  Forall retried l ->
  first_attempts (flat_map (worker_events w config) l) = [].
Proof.
  induction 1 as [|t l R _ IH]; [reflexivity|].
  cbn [flat_map worker_events app first_attempts].
  unfold retried in R. destruct (retries (file t)); [lia|]. exact IH.
Qed.

Lemma fresh_tasks (fs : list File) :
  Forall (fun f => retries f = 0) fs ->
  forall i, Forall (fun t => retries (file t) = 0) (number i fs).
Proof.
  induction 1 as [|f fs F0 _ IH]; intros i; cbn [number]; constructor;
    [exact F0|apply IH].
Qed.

Lemma Fifo_process (s s' : State) :
  Fifo uploadList s ->
  q_process w config s = Goes s' ->
  Fifo uploadList s'.
Proof.
  intros (pre & fs & R & U & A & Q & FR & FT & J) Qp.
  destruct (q_process_spec w config s s' Qp) as (d & rest & Eq & P & _).
  rewrite P. clear P Qp. unfold Fifo. fields.
  assert (Ff : Forall (fun f => retries f = 0) fs).
  { rewrite U in fresh. apply Forall_app in fresh. tauto. }
  destruct Q as [Q|[Dr Q]].
  - rewrite Q in Eq. apply app_eq_app in Eq.
    destruct Eq as (l & [[E1 E2]|[E1 E2]]).
    + apply number_app_inv in E1.
      destruct E1 as (f1 & f2 & -> & -> & ->).
      exists (pre ++ f1), f2, R.
      split; [rewrite <- app_assoc; exact U|].
      apply Forall_app in Ff. destruct Ff as [Ff1 _].
      split.
      * rewrite first_attempts_app, A, first_attempts_fresh by exact Ff1.
        rewrite length_app, seq_app. reflexivity.
      * split; [left; rewrite E2, length_app; reflexivity|].
        split; [exact FR|]. split; [exact FT|].
        destruct J as [J|[Dr J]].
        -- left. apply app_eq_nil in J. tauto.
        -- right. split; [exact Dr|]. apply Forall_app. split; [exact J|].
           apply fresh_tasks. exact Ff1.
    + subst d R. apply Forall_app in FR. destruct FR as [Fl Fr].
      exists (pre ++ fs), [], rest.
      split; [rewrite app_nil_r; exact U|].
      split.
      * rewrite first_attempts_app, flat_map_app, first_attempts_app, A,
          first_attempts_fresh, first_attempts_retried by assumption.
        rewrite app_nil_r, length_app, seq_app. reflexivity.
      * split; [left; reflexivity|auto].
  - subst R. rewrite Eq in FR. apply Forall_app in FR. destruct FR as [Fd Fr].
    exists pre, fs, rest.
    split; [exact U|]. split.
    + rewrite first_attempts_app, A, first_attempts_retried by exact Fd.
      apply app_nil_r.
    + split; [right; auto|]. split; [exact Fr|]. split; [exact FT|].
      left. destruct J as [J|[Dt _]]; [exact J|congruence].
Qed.

(** What leaves the queue, the timers and the first attempts alone, and
    starts no transfer, leaves the order alone. *)
Lemma Fifo_same (s s' : State) :
  q_tasks s' = q_tasks s ->
  q_drain s' = q_drain s ->
  timers s' = timers s ->
  first_attempts (trace s') = first_attempts (trace s) ->
  incl (streams s') (streams s) ->
  Fifo uploadList s -> Fifo uploadList s'.
Proof.
  intros Eq Ed Et Ea Es (pre & fs & R & U & A & Q & FR & FT & J).
  exists pre, fs, R. rewrite Eq, Et, Ea, Ed.
  repeat split; auto. destruct J as [J|[Dr J]]; [auto|].
  right. split; [exact Dr|]. rewrite Forall_forall in *. auto.
Qed.

Ltac no_attempt :=
  fields;
  repeat (progress (rewrite ?first_attempts_app, ?first_attempts_say;
                    cbn [first_attempts app]));
  rewrite ?app_nil_r; auto using incl_refl.

Lemma step_Fifo (l : Label) (s s' : State) :
  step w config onOutput totalFiles l s = Some (Goes s') ->
  Fifo uploadList s -> Fifo uploadList s'.
Proof.
  intros St F.
  destruct l as [|r el|r msg|r msg|r].
  - destruct s as [q n ps dr cbc comp st tm tr]. cbn [step] in St. fields.
    destruct ps; [|discriminate]. arrive St.
    apply Fifo_process. eapply Fifo_same; [| | | | |exact F]; no_attempt.
  - destruct s as [q n ps dr cbc comp st tm tr]. cbn [step] in St. fields.
    destruct (take r st) as [[t rest]|] eqn:T; [|discriminate].
    arrive St.
    assert (Sub : incl rest st).
    { apply take_perm in T. destruct T as [_ P]. intros x Ix.
      eapply Permutation_in; [symmetry; exact P|]. right. exact Ix. }
    unfold on_finish. rewrite !output_spec. fields.
    unfold done, q_next, errHandler. fields. unfold q_idle. fields.
    destruct (List.length q + (n - 1) =? 0);
      [destruct dr; [unfold drain; fields; destruct cbc;
                     rewrite ?output_spec; fields|]|];
      apply Fifo_process; (eapply Fifo_same; [| | | | |exact F]); no_attempt.
  - destruct (take r (streams s)) as [[t rest]|] eqn:T;
      [|cbn [step] in St; rewrite T in St; discriminate].
    pose proof (take_perm _ _ _ _ T) as [_ Pm].
    destruct (retries (file t) <? MAX_RETRIES) eqn:Lt.
    + apply Nat.ltb_lt in Lt.
      rewrite (retry_step w config onOutput totalFiles r msg _ t rest T Lt) in St.
      inversion St; subst s'; clear St.
      destruct F as (pre & fs & R & U & A & Q & FR & FT & J).
      exists pre, fs, R. fields.
      split; [exact U|]. split; [no_attempt|]. split; [exact Q|].
      split; [exact FR|]. split.
      * rewrite map_app. apply Forall_app. split; [exact FT|].
        constructor; [|constructor]. unfold retried. simpl. lia.
      * destruct J as [J|[Dr J]]; [auto|]. right. split; [exact Dr|].
        apply (Permutation_Forall Pm) in J. inversion J; assumption.
    + apply Nat.ltb_ge in Lt.
      rewrite (fatal_step w config onOutput totalFiles r msg _ t rest T Lt) in St.
      inversion St; subst s'; clear St.
      destruct F as (pre & fs & R & U & A & Q & FR & FT & J).
      exists pre, fs, []. fields.
      split; [exact U|]. split; [destruct (cbCalled s); no_attempt|].
      split; [right; auto|]. split; [constructor|]. split; [exact FT|].
      left. destruct J as [J|[_ J]]; [exact J|].
      apply (Permutation_Forall Pm) in J. inversion J as [|? ? Z0 _]; subst.
      unfold MAX_RETRIES in Lt. lia.
  - cbn [step] in St. destruct (take r (streams s)) as [[t rest]|];
      discriminate.
  - destruct s as [q n ps dr cbc comp st tm tr]. cbn [step] in St. fields.
    destruct (take_timer r tm) as [[t rest]|] eqn:T; [|discriminate].
    arrive St.
    apply take_timer_perm in T. destruct T as (_ & P & Len).
    assert (Busy : (List.length (q ++ [t]) + (n - 1) =? 0) = false).
    { apply Nat.eqb_neq. rewrite length_app. simpl. lia. }
    destruct F as (pre & fs & R & U & A & Q & FR & FT & J). fields.
    assert (FT' : Forall retried (t :: map snd rest))
      by (eapply Permutation_Forall; [exact P|exact FT]).
    apply Forall_cons_iff in FT'. destruct FT' as [Rt Fr].
    unfold on_timeout, q_push. fields.
    destruct ps; fields; unfold done, q_next, errHandler; fields;
      unfold q_idle; fields; rewrite Busy;
      apply Fifo_process; exists pre, fs, (R ++ [t]); fields;
      (split; [exact U|]); (split; [no_attempt|]);
      (split; [destruct Q as [Q|[Dr Q]];
               [left; rewrite Q, app_assoc; reflexivity
               |right; rewrite Q; auto]|]);
      (split; [apply Forall_app; auto|]); (split; [exact Fr|exact J]).
Qed.

Lemma run_Fifo (ls : list Label) :
  forall s s',
    run w config onOutput totalFiles ls s = Some s' ->
    Fifo uploadList s -> Fifo uploadList s'.
Proof.
  induction ls as [|l ls IH]; simpl; intros s s' R F.
  - inversion R; subst. exact F.
  - destruct (step w config onOutput totalFiles l s) as [[s1|e1 d1]|] eqn:St;
      try discriminate.
    eapply IH; [exact R|]. eapply step_Fifo; eassumption.
Qed.

Lemma Fifo_attempts (s : State) :
  Fifo uploadList s ->
  exists k, k <= List.length uploadList /\ first_attempts (trace s) = seq 0 k.
Proof.
  intros (pre & fs & R & U & A & _). exists (List.length pre).
  split; [rewrite U, length_app; lia|exact A].
Qed.

(** The abort comes after the first attempt of every file, and no first
    attempt comes after it. *)
Lemma step_Aborted (l : Label) (s s' : State) :
  step w config onOutput totalFiles l s = Some (Goes s') ->
  Inv true totalFiles s ->
  Fifo uploadList s ->
  Aborted uploadList s -> Aborted uploadList s'.
Proof.
  intros St I F A.
  pose proof (step_Inv w config onOutput totalFiles l s s' St I) as I'.
  pose proof (step_Fifo l s s' St F) as F'.
  destruct (step_follows w config onOutput totalFiles l s s' St)
    as (_ & _ & x & Tx & _).
  unfold Aborted in *. rewrite Tx, after_abort_app, before_abort_app.
  destruct (after_abort (trace s)) as [post|] eqn:Ab.
  - destruct A as [A1 A2]. split; [exact A1|].
    destruct (Fifo_attempts s' F') as (k & Lk & Ak).
    destruct (abort_found _ _ Ab) as (e & Et).
    rewrite Tx, Et, !first_attempts_app in Ak. cbn [first_attempts] in Ak.
    rewrite A1, A2, app_nil_r in Ak.
    rewrite first_attempts_app, A2. cbn [app].
    apply (f_equal (@List.length _)) in Ak.
    rewrite length_app, !length_seq in Ak.
    apply length_zero_iff_nil. lia.
  - destruct (after_abort x) as [post'|] eqn:Ax; [|exact Logic.I].
    assert (Ab' : after_abort (trace s') = Some post').
    { rewrite Tx, after_abort_app, Ab. exact Ax. }
    destruct (step_fatals w config onOutput totalFiles l s s' St)
      as [Ff|(r & msg & t & rest & -> & T & Ge)].
    + exfalso. destruct (abort_heard _ _ Ab') as (e & Ie).
      assert (F0 : fatals (trace s) = []).
      { destruct (Inv_callbacks _ s I)
          as [(_ & _ & Hf & _)|[(_ & _ & Hf & _)|(_ & e1 & more & _ & Hc)]];
          [exact Hf|exact Hf|].
        exfalso. apply (heard_abort (trace s) e1); [|exact Ab].
        rewrite Hc. left. reflexivity. }
      destruct (Inv_callbacks _ s' I')
        as [(_ & Hc & _)|[(_ & Hc & _)|(_ & e1 & more & Hf & _)]];
        try (rewrite Hc in Ie; cbn [In] in Ie;
             repeat (destruct Ie as [Ie|Ie]; try discriminate Ie);
             contradiction).
      rewrite Ff, F0 in Hf. discriminate.
    + pose proof (fatal_step w config onOutput totalFiles r msg s t rest T Ge)
        as Fs.
      cbv zeta in Fs. rewrite Fs in St. inversion St as [Es]. clear St.
      rewrite <- Es in Tx. fields. apply app_inv_head in Tx. subst x.
      destruct (cbCalled s); [discriminate Ax|].
      cbn [app after_abort before_abort] in *.
      inversion Ax; subst post'. split; [|reflexivity].
      rewrite first_attempts_app. cbn [first_attempts]. rewrite app_nil_r.
      destruct F as (pre & fs & R & U & Af & _ & _ & _ & J).
      pose proof (take_perm _ _ _ _ T) as [_ Pm].
      destruct J as [->|[_ J]].
      * rewrite Af, U, app_nil_r. reflexivity.
      * apply (Permutation_Forall Pm) in J. inversion J as [|? ? Z0 _]; subst.
        unfold MAX_RETRIES in Ge. lia.
Qed.

Lemma run_Aborted (ls : list Label) :
  forall s s',
    run w config onOutput totalFiles ls s = Some s' ->
    Inv true totalFiles s ->
    Fifo uploadList s ->
    Aborted uploadList s -> Aborted uploadList s'.
Proof.
  induction ls as [|l ls IH]; simpl; intros s s' R I F A.
  - inversion R; subst. exact A.
  - destruct (step w config onOutput totalFiles l s) as [[s1|e1 d1]|] eqn:St;
      try discriminate.
    eapply IH; [exact R| | |].
    + eapply step_Inv; eassumption.
    + eapply step_Fifo; eassumption.
    + eapply step_Aborted; eassumption.
Qed.

End FirstInFirstOut.
Lemma first_attempts_incl (tr : Trace) :
  incl (first_attempts tr) (started tr).
Proof.
  induction tr as [|e tr IH]; cbn [first_attempts started];
    [apply incl_refl|].
  destruct e; try exact IH.
  destruct (retries (file t) =? 0).
  - intros r [<-|Ir]; [left; reflexivity|right; apply IH; exact Ir].
  - apply incl_tl. exact IH.
Qed.

Lemma first_attempt_In (t : Task) (opts : UploadOptions) (tr : Trace) :
  In (CreateWriteStream t opts) tr ->
  retries (file t) = 0 ->
  In (ref t) (first_attempts tr).
Proof.
  intros I Z. induction tr as [|e tr IH]; [destruct I|].
  destruct I as [->|I].
  - cbn [first_attempts]. rewrite Z. left. reflexivity.
  - specialize (IH I). destruct e; cbn [first_attempts]; try exact IH.
    destruct (retries (file t0) =? 0); [right|]; exact IH.
Qed.

Lemma first_attempts_started (tr : Trace) :
  started tr = [] -> first_attempts tr = [].
Proof.
  induction tr as [|e tr IH]; simpl; [reflexivity|].
  destruct e; simpl; auto. discriminate.
Qed.

Lemma number_length (l : list File) :
  forall i, List.length (number i l) = List.length l.
Proof. induction l as [|f l IH]; simpl; intros i; [|rewrite IH]; auto. Qed.

Lemma number_nth (l : list File) :
  forall i t,
    In t (number i l) ->
    i <= ref t /\ nth_error l (ref t - i) = Some (file t).
Proof.
  induction l as [|f l IH]; simpl; intros i t I; [destruct I|].
  destruct I as [<-|I]; simpl.
  - rewrite Nat.sub_diag. auto.
  - destruct (IH _ _ I) as [L N]. split; [lia|].
    replace (ref t - i) with (S (ref t - S i)) by lia. exact N.
Qed.

Section Stable.

Context `{Env}.

Variable w : World.
Variable config : Config.
Variable onOutput : bool.
Variable totalFiles : nat.

Variable P : Task -> Prop.
Hypothesis P_bump : forall t, P t -> P (bump t).

Lemma streams_for_say (msg : string) :
  Forall (streams_for P) (say onOutput msg).
Proof. destruct onOutput; repeat constructor. Qed.

Lemma streams_for_worker_events (d : list Task) :
  Forall P d -> Forall (streams_for P) (flat_map (worker_events w config) d).
Proof.
  induction 1 as [|t d Pt _ IH]; [constructor|].
  cbn [flat_map worker_events app]. repeat constructor; assumption.
Qed.

Lemma stable_process (s s' : State) :
  Forall P (live s) -> Forall (streams_for P) (trace s) ->
  q_process w config s = Goes s' ->
  Forall P (live s') /\ Forall (streams_for P) (trace s').
Proof.
  intros L T Q.
  destruct (q_process_spec w config s s' Q) as (d & rest & Eq & E & _).
  rewrite E. clear E Q. fields. rewrite Eq in L.
  rewrite !Forall_app in *. destruct L as ((Ld & Lr) & Ls & Lt).
  repeat split; auto. apply streams_for_worker_events. exact Ld.
Qed.

Ltac stable_trace :=
  repeat first [ assumption
               | apply streams_for_say
               | apply Forall_nil
               | apply Forall_cons; [exact Logic.I|]
               | apply Forall_app; split ].

Lemma step_stable (l : Label) (s s' : State) :
  step w config onOutput totalFiles l s = Some (Goes s') ->
  Forall P (live s) -> Forall (streams_for P) (trace s) ->
  Forall P (live s') /\ Forall (streams_for P) (trace s').
Proof.
  intros St L T.
  destruct l as [|r el|r msg|r msg|r].
  - destruct s as [q n ps dr cbc comp st tm tr]. cbn [step] in St. fields.
    destruct ps; [|discriminate]. arrive St.
    apply stable_process; fields; assumption.
  - destruct s as [q n ps dr cbc comp st tm tr]. cbn [step] in St. fields.
    destruct (take r st) as [[t rest]|] eqn:Tk; [|discriminate].
    arrive St.
    apply take_perm in Tk. destruct Tk as [_ Pm].
    assert (L' : Forall P (q ++ rest ++ map snd tm)).
    { rewrite !Forall_app in *. destruct L as (Lq & Ls & Lt).
      apply (Permutation_Forall Pm) in Ls. inversion Ls; subst. auto. }
    unfold on_finish. rewrite !output_spec. fields.
    unfold done, q_next, errHandler. fields. unfold q_idle. fields.
    destruct (List.length q + (n - 1) =? 0);
      [destruct dr; [unfold drain; fields; destruct cbc;
                     rewrite ?output_spec; fields|]|];
      apply stable_process; fields; auto; stable_trace.
  - destruct (take r (streams s)) as [[t rest]|] eqn:Tk;
      [|cbn [step] in St; rewrite Tk in St; discriminate].
    pose proof (take_perm _ _ _ _ Tk) as [_ Pm]. unfold live in L.
    assert (L' : P t /\ Forall P (q_tasks s ++ rest ++ map snd (timers s))).
    { rewrite !Forall_app in *. destruct L as (Lq & Ls & Lt).
      apply (Permutation_Forall Pm) in Ls. inversion Ls; subst. auto. }
    destruct L' as [Pt L'].
    destruct (retries (file t) <? MAX_RETRIES) eqn:Lt.
    + apply Nat.ltb_lt in Lt.
      rewrite (retry_step w config onOutput totalFiles r msg _ t rest Tk Lt) in St.
      inversion St; subst s'; clear St. fields.
      split; [|stable_trace].
      rewrite map_app, !Forall_app in *. cbn [map snd].
      repeat split; try tauto. constructor; [|constructor]. apply P_bump. exact Pt.
    + apply Nat.ltb_ge in Lt.
      rewrite (fatal_step w config onOutput totalFiles r msg _ t rest Tk Lt) in St.
      inversion St; subst s'; clear St. fields.
      split; [|destruct (cbCalled s); stable_trace].
      cbn [app]. rewrite !Forall_app in *. tauto.
  - cbn [step] in St. destruct (take r (streams s)) as [[t rest]|];
      discriminate.
  - destruct s as [q n ps dr cbc comp st tm tr]. cbn [step] in St. fields.
    destruct (take_timer r tm) as [[t rest]|] eqn:Tk; [|discriminate].
    arrive St.
    apply take_timer_perm in Tk. destruct Tk as (_ & Pm & Len).
    assert (Busy : (List.length (q ++ [t]) + (n - 1) =? 0) = false).
    { apply Nat.eqb_neq. rewrite length_app. simpl. lia. }
    assert (L' : Forall P ((q ++ [t]) ++ st ++ map snd rest)).
    { rewrite !Forall_app in *. destruct L as (Lq & Ls & Lt).
      apply (Permutation_Forall Pm) in Lt. inversion Lt; subst. auto. }
    unfold on_timeout, q_push. fields.
    destruct ps; fields; unfold done, q_next, errHandler; fields;
      unfold q_idle; fields; rewrite Busy;
      apply stable_process; fields; auto; stable_trace.
Qed.

Lemma run_stable (ls : list Label) :
  forall s s',
    run w config onOutput totalFiles ls s = Some s' ->
    Forall P (live s) -> Forall (streams_for P) (trace s) ->
    Forall P (live s') /\ Forall (streams_for P) (trace s').
Proof.
  induction ls as [|l ls IH]; simpl; intros s s' R L T.
  - inversion R; subst. auto.
  - destruct (step w config onOutput totalFiles l s) as [[s1|e1 d1]|] eqn:St;
      try discriminate.
    destruct (step_stable l s s1 St L T) as [L1 T1]. eauto.
Qed.

End Stable.
Section NoFailure.

Context `{Env}.

Variable w : World.
Variable config : Config.
Variable onOutput : bool.
Variable totalFiles : nat.

Lemma first_attempts_fresh_tasks (d : list Task) :
  Forall (fun t => retries (file t) = 0) d ->
  first_attempts (flat_map (worker_events w config) d) = map ref d.
Proof.
  induction 1 as [|t d F0 _ IH]; [reflexivity|].
  cbn [flat_map worker_events app first_attempts map].
  rewrite F0. cbn [Nat.eqb]. rewrite IH. reflexivity.
Qed.

Lemma Calm_process (s s' : State) :
  Calm s -> q_process w config s = Goes s' -> Calm s'.
Proof.
  intros (T & F & S & Q) Qp.
  destruct (q_process_spec w config s s' Qp) as (d & rest & Eq & E & _).
  rewrite E. clear E Qp. unfold Calm. fields.
  rewrite Eq in Q. apply Forall_app in Q. destruct Q as [Qd Qr].
  destruct (worker_events_quiet w config d) as (_ & Wf & Ws & _).
  split; [exact T|]. split; [rewrite fatals_app, F, Wf; reflexivity|].
  split; [|exact Qr].
  rewrite started_app, first_attempts_app, S, Ws, first_attempts_fresh_tasks
    by exact Qd.
  reflexivity.
Qed.

Ltac calm :=
  unfold Calm; fields;
  repeat (progress (rewrite ?first_attempts_app, ?first_attempts_say,
                      ?started_app, ?started_say, ?fatals_app, ?fatals_say;
                    cbn [first_attempts started fatals app]));
  rewrite ?app_nil_r; auto.

Lemma step_Calm (l : Label) (s s' : State) :
  step w config onOutput totalFiles l s = Some (Goes s') ->
  fails l = false ->
  Calm s -> Calm s'.
Proof.
  intros St Nf (T & F & S & Q).
  destruct s as [q n ps dr cbc comp st tm tr]. fields.
  destruct l as [|r el|r msg|r msg|r]; [| |discriminate Nf| |];
    cbn [step] in St; fields.
  - destruct ps; [|discriminate]. arrive St.
    apply Calm_process. calm.
  - destruct (take r st) as [[t rest]|] eqn:Tk; [|discriminate].
    arrive St.
    unfold on_finish. rewrite !output_spec. fields.
    unfold done, q_next, errHandler. fields. unfold q_idle. fields.
    destruct (List.length q + (n - 1) =? 0);
      [destruct dr; [unfold drain; fields; destruct cbc;
                     rewrite ?output_spec; fields|]|];
      apply Calm_process; calm; rewrite F, S; auto.
  - destruct (take r st) as [[t rest]|]; discriminate.
  - subst tm. discriminate St.
Qed.

Lemma run_Calm (ls : list Label) :
  forall s s',
    run w config onOutput totalFiles ls s = Some s' ->
    existsb fails ls = false ->
    Calm s -> Calm s'.
Proof.
  induction ls as [|l ls IH]; simpl; intros s s' R Nf C.
  - inversion R; subst. exact C.
  - destruct (step w config onOutput totalFiles l s) as [[s1|e1 d1]|] eqn:St;
      try discriminate.
    apply orb_false_iff in Nf. destruct Nf as [Nl Nf].
    eapply IH; [exact R|exact Nf|]. eapply step_Calm; eassumption.
Qed.

End NoFailure.

Lemma lookup_In (k : string) (tbl : list (string * string)) (v : string) :
  lookup k tbl = Some v -> In (k, v) tbl.
Proof.
  induction tbl as [|[k' v'] tbl IH]; simpl; [discriminate|].
  destruct (String.eqb_spec k' k) as [->|N].
  - intros E. inversion E; subst. auto.
  - auto.
Qed.

Section Order.

Context `{Env}.

Variable m : GcsModule.
Variable config : Config.
Variable w : World.
Variables srcFolder bucketName dstFolder : string.
Variable paths : list string.
Variable onOutput : bool.

Lemma spec_tasks_shape (p : string) :
  Forall (fun f => f = task_for srcFolder dstFolder (relativePath f))
         (spec_tasks w srcFolder dstFolder p).
Proof.
  unfold spec_tasks.
  destruct (existsSync w (path_join srcFolder p)); [|constructor].
  destruct (lstatSync w (path_join srcFolder p)) as [e|st]; [constructor|].
  destruct (isDirectory st); [|repeat constructor].
  destruct (glob_sync w (p +:+ "/**") srcFolder) as [e|listed];
    [constructor|].
  apply Forall_forall. intros f If. apply in_map_iff in If.
  destruct If as (rel & <- & _). reflexivity.
Qed.

Lemma upload_list_shape :
  Forall (fun f => f = task_for srcFolder dstFolder (relativePath f))
         (flat_map (spec_tasks w srcFolder dstFolder) paths).
Proof.
  apply Forall_forall. intros f If. apply in_flat_map in If.
  destruct If as (p & _ & If).
  pose proof (spec_tasks_shape p) as F. rewrite Forall_forall in F. auto.
Qed.

Lemma upload_list_fresh :
  Forall (fun f => retries f = 0)
         (flat_map (spec_tasks w srcFolder dstFolder) paths).
Proof.
  eapply Forall_impl; [|exact upload_list_shape].
  intros f E. cbn beta in E. rewrite E. reflexivity.
Qed.

Lemma batch_Fifo (s0 : State) (ls : list Label) (s : State) :
  uploadPaths m config w srcFolder bucketName dstFolder paths onOutput
  = Queued s0 ->
  batch_run w config onOutput s0 ls = Some s ->
  Fifo (flat_map (spec_tasks w srcFolder dstFolder) paths) s.
Proof.
  intros U R. pose proof (uploadPaths_queued _ _ _ _ _ _ _ _ _ U) as [_ Q0].
  destruct (uploadPaths_start _ _ _ _ _ _ _ _ s0 U) as (tr & E & _).
  eapply run_Fifo; [exact upload_list_fresh|exact R|].
  exists [], (flat_map (spec_tasks w srcFolder dstFolder) paths), [].
  rewrite E in *. fields. cbn [app List.length seq].
  split; [reflexivity|].
  split; [apply first_attempts_started; apply Q0|].
  split; [left; rewrite app_nil_r; reflexivity|].
  split; [constructor|]. split; [constructor|].
  right. split; [reflexivity|constructor].
Qed.

(** X5.  The queue is first in, first out.  In every state that a batch
    reaches, the files that have been handed to a write stream for the
    first time are the first [k] of the upload list, in that order; as
    long as no transfer has failed for good, the files that wait for their
    first attempt are the rest of the list, in order and ahead of every
    task that comes back from a retry; and when the callback reports
    success every file has had its first attempt. *)
Theorem first_attempts_follow_the_list :
  forall s0 ls s,
    uploadPaths m config w srcFolder bucketName dstFolder paths onOutput
    = Queued s0 ->
    batch_run w config onOutput s0 ls = Some s ->
    exists k,
      k <= List.length (q_tasks s0) /\
      first_attempts (trace s) = seq 0 k /\
      (fatals (trace s) = [] ->
       exists again,
         q_tasks s = skipn k (q_tasks s0) ++ again /\
         Forall retried again) /\
      (callbacks (trace s) = [None] -> k = List.length (q_tasks s0)).
Proof.
  intros s0 ls s U R.
  destruct (batch_Fifo s0 ls s U R) as (pre & fs & again & E & A & Q & FR & _).
  destruct (batch_facts m config w srcFolder bucketName dstFolder paths
                        onOutput s0 ls s U R) as (I & _ & _).
  destruct (uploadPaths_start _ _ _ _ _ _ _ _ s0 U) as (tr & E0 & _).
  assert (Q0 : q_tasks s0 = number 0 pre ++ number (List.length pre) fs).
  { rewrite E0. fields. rewrite E. apply number_app. }
  assert (Live : fatals (trace s) = [] ->
                 q_tasks s = number (List.length pre) fs ++ again).
  { intros F. destruct Q as [Q|[Dr Q]]; [exact Q|].
    exfalso. destruct (cbCalled s) eqn:Cc.
    - destruct (inv_after _ _ _ I Cc) as [(D & _)|(_ & e & rest & Fe & _)];
        congruence.
    - destruct (inv_before _ _ _ I Cc) as (D & _). congruence. }
  exists (List.length pre).
  split; [rewrite Q0, length_app, !number_length; lia|].
  split; [exact A|]. split.
  - intros F. exists again. split; [|exact FR].
    rewrite (Live F), Q0, skipn_app, number_length, Nat.sub_diag.
    rewrite skipn_all2 by (rewrite number_length; lia). reflexivity.
  - intros C.
    destruct (Inv_callbacks _ s I)
      as [(_ & Hc & _)|[(_ & _ & Hf & _ & Hl)|(_ & e & rest & _ & Hc)]];
      try congruence.
    specialize (Live Hf). unfold live in Hl.
    apply app_eq_nil in Hl. destruct Hl as [Hq _]. rewrite Hq in Live.
    symmetry in Live. apply app_eq_nil in Live. destruct Live as [Nf _].
    destruct fs; [|discriminate].
    rewrite Q0, length_app, !number_length. simpl. lia.
Qed.

(** X6.  As long as the callbacks of a batch return (no [fs.statSync] of
    a worker throws, no read stream fails) and no write stream emits
    ['error'], the batch sets no timer and hands the files to the write
    streams once each, in the order of the upload list: the streams created
    so far are those of the first files of the list, as many as are
    completed or in flight.  When nothing is pending any more after such
    callbacks, every file of the list has been transferred once and the
    callback has reported success. *)
Theorem every_file_once_without_failure :
  forall s0 ls s,
    uploadPaths m config w srcFolder bucketName dstFolder paths onOutput
    = Queued s0 ->
    batch_run w config onOutput s0 ls = Some s ->
    existsb fails ls = false ->
    timers s = [] /\
    started (trace s) = seq 0 (completedUploads s + List.length (streams s)) /\
    (quiescent s ->
     started (trace s) = seq 0 (List.length (q_tasks s0)) /\
     completedUploads s = List.length (q_tasks s0) /\
     callbacks (trace s) = [None]).
Proof.
  intros s0 ls s U R Nf.
  destruct (batch_Fifo s0 ls s U R) as (pre & fs & again & E & A & Q & FR & _).
  destruct (batch_facts m config w srcFolder bucketName dstFolder paths
                        onOutput s0 ls s U R) as (I & _ & Q0).
  destruct (uploadPaths_start _ _ _ _ _ _ _ _ s0 U) as (tr & E0 & _).
  assert (C : Calm s).
  { eapply run_Calm; [exact R|exact Nf|]. rewrite E0. unfold Calm. fields.
    rewrite E0 in Q0. fields. destruct Q0 as (_ & Qf & Qs & _).
    split; [reflexivity|]. split; [exact Qf|].
    split; [rewrite Qs; symmetry; apply first_attempts_started; exact Qs|].
    apply Forall_forall. intros t It.
    pose proof upload_list_fresh as F. rewrite Forall_forall in F. apply F.
    rewrite <- (number_files
                  (flat_map (spec_tasks w srcFolder dstFolder) paths) 0).
    apply in_map. exact It. }
  destruct C as (T & F & S & Fq).
  assert (Dr : q_drain s = true).
  { destruct (cbCalled s) eqn:Cc.
    - destruct (inv_after _ _ _ I Cc) as [(D & _)|(_ & e & rest & Fe & _)];
        [exact D|congruence].
    - destruct (inv_before _ _ _ I Cc) as (D & _). exact D. }
  assert (Qs : q_tasks s = number (List.length pre) fs).
  { destruct Q as [Q|[D _]]; [|congruence].
    rewrite Q in Fq. apply Forall_app in Fq. destruct Fq as [_ Fa].
    destruct again as [|t again]; [rewrite Q; apply app_nil_r|].
    exfalso. apply Forall_cons_iff in Fa. apply Forall_cons_iff in FR.
    unfold retried in FR. lia. }
  pose proof (inv_count _ _ _ I Dr) as Cn.
  pose proof (inv_running _ _ _ I) as Rn.
  assert (N : List.length (q_tasks s0) = List.length pre + List.length fs).
  { rewrite E0. fields. rewrite number_length, E, length_app. reflexivity. }
  rewrite Qs, number_length, Rn, T in Cn. cbn [List.length] in Cn.
  assert (K : List.length pre = completedUploads s + List.length (streams s))
    by lia.
  split; [exact T|]. split; [rewrite S, A, K; reflexivity|].
  intros (Qp & Qst & Qt).
  destruct (Inv_callbacks _ s I)
    as [(_ & _ & _ & [P|[P|P]])|[(_ & Hc & _ & Hn & Hl)|(_ & e & rest & Hf & _)]];
    try congruence.
  split; [|split; [exact Hn|exact Hc]].
  rewrite S, A, K, Qst, Hn. cbn [List.length]. rewrite Nat.add_0_r. reflexivity.
Qed.

(** X7.  Whatever the retries, a batch transfers the files of its upload
    list and nothing else: every write stream that it creates is for the
    entry of the list that the task's reference names, read from
    [srcFolder] and written under [dstFolder] at the entry's relative
    path. *)
Theorem streams_carry_the_listed_files :
  forall s0 ls s t opts,
    uploadPaths m config w srcFolder bucketName dstFolder paths onOutput
    = Queued s0 ->
    batch_run w config onOutput s0 ls = Some s ->
    In (CreateWriteStream t opts) (trace s) ->
    exists f,
      nth_error (flat_map (spec_tasks w srcFolder dstFolder) paths) (ref t)
      = Some f /\
      relativePath (file t) = relativePath f /\
      src (file t) = path_join srcFolder (relativePath f) /\
      dest (file t) = path_join dstFolder (relativePath f).
Proof.
  intros s0 ls s t opts U R It.
  set (ul := flat_map (spec_tasks w srcFolder dstFolder) paths).
  destruct (uploadPaths_start _ _ _ _ _ _ _ _ s0 U) as (tr & E0 & _).
  pose proof (uploadPaths_queued _ _ _ _ _ _ _ _ _ U) as [_ Q0].
  assert (St : Forall (listed ul) (live s) /\
               Forall (streams_for (listed ul)) (trace s)).
  { eapply (run_stable w config onOutput _ (listed ul)); [|exact R| |].
    - intros x (f & N & A & B & C). exists f. auto.
    - rewrite E0. fields. rewrite !app_nil_r.
      apply Forall_forall. intros x Ix. apply number_nth in Ix.
      destruct Ix as [_ N]. rewrite Nat.sub_0_r in N.
      exists (file x). auto.
    - rewrite E0 in *. fields. apply Forall_forall. intros e Ie.
      destruct e; try exact Logic.I.
      apply in_started in Ie. destruct Q0 as (_ & _ & Qs & _).
      rewrite Qs in Ie. destruct Ie. }
  destruct St as [_ St]. rewrite Forall_forall in St.
  destruct (St _ It) as (f & N & A & B & C).
  exists f. split; [exact N|]. split; [exact C|].
  pose proof upload_list_shape as Sh. rewrite Forall_forall in Sh.
  apply nth_error_In in N. specialize (Sh f N).
  rewrite A, B, Sh. auto.
Qed.

(** X8.  Every write stream that a batch creates asks for a crc32c
    validation; a chunk size, when there is one, is 10 MiB and goes with a
    resumable upload; and the content type is the one that the table lists
    for the file's extension in lower case, or "application/octet-stream". *)
Theorem streams_are_validated_and_typed :
  forall s0 ls s t opts,
    uploadPaths m config w srcFolder bucketName dstFolder paths onOutput
    = Queued s0 ->
    batch_run w config onOutput s0 ls = Some s ->
    In (CreateWriteStream t opts) (trace s) ->
    validation opts = "crc32c"%string /\
    (forall c, chunkSize opts = Some c ->
               c = (10 * 1024 * 1024)%Z /\ resumable opts = true) /\
    (In (toLowerCase (path_extname (src (file t))), contentType opts)
        contentTypes \/
     contentType opts = "application/octet-stream"%string).
Proof.
  intros s0 ls s t opts U R It.
  destruct (batch_facts m config w srcFolder bucketName dstFolder paths
                        onOutput s0 ls s U R)
    as (_ & (_ & _ & x & Tx & Fx) & Q0).
  assert (E : exists st,
             statSync w (src (file t)) = inr st /\
             opts = uploadOptions (size st) (getContentType (src (file t)))).
  { rewrite Tx in It. apply in_app_iff in It. destruct It as [It|It].
    - apply in_started in It. destruct Q0 as (_ & _ & Qs & _).
      rewrite Qs in It. destruct It.
    - rewrite Forall_forall in Fx. apply (Fx _ It). }
  destruct E as (stt & _ & E).
  rewrite E. unfold uploadOptions, MiB.
  cbn [validation chunkSize resumable contentType].
  split; [reflexivity|]. split.
  - intros c.
    destruct (10 * (1024 * 1024) <? size stt)%Z eqn:L;
      [|discriminate].
    intros X. inversion X; subst c. split; [reflexivity|].
    apply Z.ltb_lt in L. apply Z.ltb_lt. lia.
  - unfold getContentType.
    destruct (lookup (toLowerCase (path_extname (src (file t)))) contentTypes)
      as [ct|] eqn:L; [left; apply lookup_In; exact L|right; reflexivity].
Qed.

Lemma batch_Aborted (s0 : State) (ls : list Label) (s : State) :
  uploadPaths m config w srcFolder bucketName dstFolder paths onOutput
  = Queued s0 ->
  batch_run w config onOutput s0 ls = Some s ->
  Aborted (flat_map (spec_tasks w srcFolder dstFolder) paths) s.
Proof.
  intros U R. pose proof (uploadPaths_queued _ _ _ _ _ _ _ _ _ U) as [I0 Q0].
  eapply run_Aborted; [exact upload_list_fresh|exact R|exact I0| |].
  - apply (batch_Fifo s0 [] s0 U). reflexivity.
  - unfold Aborted. destruct Q0 as (Qc & _).
    destruct (no_abort_quiet _ Qc) as [-> _]. exact Logic.I.
Qed.

(** C3, as amended.  When a transfer of a batch fails for good and the
    callback has not been called yet, the queue is emptied, the other
    transfers and the timers stay as they are (every other stream can
    still finish, every timer is still set), and the callback receives the
    error that names the file, once for all: no later callback of the
    event loop changes what it has received.  By then every file of the
    batch has been handed to a write stream at least once; what is handed
    to a write stream after the callback received its error is a retry, a
    task with a failed transfer behind it. *)
Theorem abort_closes_the_queue :
  forall s0 ls s,
    uploadPaths m config w srcFolder bucketName dstFolder paths onOutput
    = Queued s0 ->
    batch_run w config onOutput s0 ls = Some s ->
    (forall r message t rest,
        take r (streams s) = Some (t, rest) ->
        MAX_RETRIES <= retries (file t) ->
        callbacks (trace s) = [] ->
        exists s',
          step w config onOutput (List.length (q_tasks s0))
               (StreamError r message) s = Some (Goes s') /\
          q_tasks s' = [] /\ streams s' = rest /\ timers s' = timers s /\
          (forall t' elapsed,
              In t' rest ->
              exists s'',
                step w config onOutput (List.length (q_tasks s0))
                     (StreamFinish (ref t') elapsed) s' = Some (Goes s'')) /\
          callbacks (trace s') =
          [Some ("Failed to upload " +:+ path_basename (dest (file t)) +:+
                 " after 5 retries: " +:+ message)] /\
          forall ls' s'',
            run w config onOutput (List.length (q_tasks s0)) ls' s'
            = Some s'' ->
            callbacks (trace s'') = callbacks (trace s')) /\
    (forall pre e post,
        trace s = pre ++ Cb (Some e) :: post ->
        callbacks (trace s) = [Some e] /\
        (forall r, r < List.length (q_tasks s0) -> In r (started pre)) /\
        (forall t opts,
            In (CreateWriteStream t opts) post -> 0 < retries (file t))).
Proof.
  intros s0 ls s U R.
  destruct (batch_facts m config w srcFolder bucketName dstFolder paths
                        onOutput s0 ls s U R) as (I & _ & _).
  split.
  - intros r message t rest T Ge C.
    pose proof (fatal_step w config onOutput (List.length (q_tasks s0))
                           r message s t rest T Ge) as St.
    cbv zeta in St.
    assert (Called : cbCalled s = false).
    { destruct (Inv_callbacks _ s I)
        as [(X & _)|[(_ & X & _)|(_ & e & more & _ & X)]];
        [exact X|rewrite X in C; discriminate..]. }
    rewrite Called in St.
    eexists. split; [exact St|]. fields.
    split; [reflexivity|]. split; [reflexivity|]. split; [reflexivity|].
    split.
    { intros t' elapsed It'. cbn [step]. fields.
      destruct (take_enabled t' rest It') as (t1 & rest1 & ->).
      unfold on_finish. rewrite !output_spec. fields.
      unfold done, q_next, errHandler. fields. unfold q_idle. fields.
      cbn [List.length Nat.add].
      destruct (numRunning s - 1 - 1 =? 0); unfold q_process; fields;
        cbn [process_loop]; eauto. }
    assert (C' : callbacks (trace s ++
                   [LoggerDebug ("Upload error for " +:+
                                 path_basename (dest (file t)) +:+ ": " +:+
                                 message);
                    Done t (Some ("Failed to upload " +:+
                                  path_basename (dest (file t)) +:+
                                  " after " +:+ show MAX_RETRIES +:+
                                  " retries: " +:+ message))] ++
                   [Cb (Some ("Failed to upload " +:+
                              path_basename (dest (file t)) +:+
                              " after " +:+ show MAX_RETRIES +:+
                              " retries: " +:+ message))]) =
                 [Some ("Failed to upload " +:+ path_basename (dest (file t)) +:+
                        " after 5 retries: " +:+ message)]).
    { rewrite !callbacks_app, C. reflexivity. }
    split; [exact C'|].
    intros ls' s'' R'. rewrite C'.
    eapply (abort_is_final m config w srcFolder bucketName dstFolder paths
                           onOutput s0 (ls ++ [StreamError r message]));
      eauto.
    unfold batch_run in *. rewrite run_app, R. cbn [run]. rewrite St.
    reflexivity.
  - intros pre e post Tr.
    assert (C : callbacks (trace s) = [Some e] /\ callbacks pre = []).
    { pose proof (f_equal callbacks Tr) as X.
      rewrite callbacks_app in X. cbn [callbacks] in X.
      destruct (Inv_callbacks _ s I)
        as [(_ & Hc & _)|[(_ & Hc & _)|(_ & e1 & rest & _ & Hc)]];
        rewrite Hc in X; destruct (callbacks pre) as [|c cs];
        try discriminate; cbn [app] in X; inversion X; subst; auto;
        destruct cs; discriminate. }
    destruct C as [C Cp]. split; [exact C|].
    destruct (abort_split pre post e Cp) as [A B].
    pose proof (batch_Aborted s0 ls s U R) as Ab.
    unfold Aborted in Ab. rewrite Tr, A, B in Ab. destruct Ab as [A1 A2].
    destruct (uploadPaths_start m config w srcFolder bucketName dstFolder
                                paths onOutput s0 U) as (tr & E0 & _).
    assert (N : List.length (q_tasks s0) =
                List.length (flat_map (spec_tasks w srcFolder dstFolder)
                                      paths)).
    { rewrite E0. fields. apply number_length. }
    split.
    + intros r Lt. apply first_attempts_incl. rewrite A1, <- N.
      apply in_seq. lia.
    + intros t opts It.
      destruct (retries (file t)) as [|k] eqn:Z; [|lia].
      exfalso. pose proof (first_attempt_In t opts post It Z) as X.
      rewrite A2 in X. destruct X.
Qed.

End Order.


Section Connecting.

Context `{Cloud}.

Variable config : Config.
Variable keys : Credentials.

(** X9.  [initialize] calls its callback exactly once, whatever the client
    library does: at once and without an error when no bucket is
    configured, at once with "Failed to initialize GCS" when a call of the
    library throws, and otherwise when [bucket.exists] answers, without an
    error exactly when the bucket exists. *)
Theorem initialize_calls_back_once :
  forall m answer,
    (exists c, answers (snd (connect config keys m answer)) = [c]) /\
    (answers (snd (connect config keys m answer)) = [None] <->
     gcsBucket config = ""%string \/
     ((exists m', initialize config keys m = Asked m') /\
      answer = Exists true)).
Proof.
  intros m answer. unfold connect, initialize.
  destruct (String.eqb_spec (gcsBucket config) "") as [E|N]; cbn [negb].
  - split; [eexists; reflexivity|]. split; auto.
  - destruct (new_Storage (storageConfig_of keys)) as [e|st]; cbn [snd answers].
    + split; [eexists; reflexivity|].
      split; [discriminate|]. intros [E|[[m' X] _]]; [contradiction|discriminate].
    + destruct (storage_bucket st (gcsBucket config)) as [e|b]; cbn [snd answers].
      * split; [eexists; reflexivity|].
        split; [discriminate|].
        intros [E|[[m' X] _]]; [contradiction|discriminate].
      * destruct (bucket_exists b) as [e|u]; cbn [snd answers].
        -- split; [eexists; reflexivity|].
           split; [discriminate|].
           intros [E|[[m' X] _]]; [contradiction|discriminate].
        -- destruct answer as [msg|[|]]; cbn [exists_callback answers];
             (split; [eexists; reflexivity|]);
             (split; [intros X; try discriminate X; right; split; eauto
                     |intros [E|[_ X]]; [contradiction|try discriminate X; reflexivity]]).
Qed.

(** X10.  [initialize] sets [storage] and [bucket] before it checks the
    bucket: a module that starts unset is enabled after [initialize] exactly
    when a bucket is configured and the two calls that build the handles
    return, whatever [bucket.exists] does or answers.  So the callback
    can receive an error ("Cannot connect to GCS", or the bucket "does not
    exist or is not accessible") and leave the module enabled, and
    [uploadPaths] then does not answer "GCS is not initialized". *)
Theorem enabled_once_the_handles_are_built :
  forall answer,
    let m' := fst (connect config keys {| storage := None; bucket := None |}
                           answer) in
    (enabled m' = true <->
     gcsBucket config <> ""%string /\
     exists st b,
       new_Storage (storageConfig_of keys) = inr st /\
       storage_bucket st (gcsBucket config) = inr b) /\
    (forall message m1,
        initialize config keys {| storage := None; bucket := None |} = Asked m1 ->
        answer = ExistsError message \/ answer = Exists false ->
        (exists e, answers (snd (connect config keys
                                  {| storage := None; bucket := None |}
                                  answer)) = [Some e]) /\
        enabled m' = true /\
        forall (E : Env) w srcFolder bucketName dstFolder paths onOutput,
          uploadPaths m' config w srcFolder bucketName dstFolder paths onOutput
          <> Returned [Cb (Some "GCS is not initialized"%string)]).
Proof.
  intros answer. cbn zeta. unfold connect, initialize.
  destruct (String.eqb_spec (gcsBucket config) "") as [E|N]; cbn [negb].
  - split; [|discriminate]. cbn. split; [discriminate|tauto].
  - destruct (new_Storage (storageConfig_of keys)) as [e|st].
    + split; [|discriminate]. cbn.
      split; [discriminate|]. intros (_ & st & b & X & _). discriminate.
    + destruct (storage_bucket st (gcsBucket config)) as [e|b] eqn:Eb.
      * split; [|discriminate]. cbn.
        split; [discriminate|]. intros (_ & st' & b & X & Y).
        congruence.
      * assert (En : (enabled {| storage := Some st; bucket := Some b |} = true <->
                      gcsBucket config <> ""%string /\
                      exists st' b',
                        @inr Exn _ st = inr st' /\
                        storage_bucket st' (gcsBucket config) = inr b')).
        { split; [|reflexivity]. intros _. split; [exact N|]. eauto. }
        destruct (bucket_exists b) as [e|u]; cbn [fst snd bucket storage].
        -- split; [exact En|discriminate].
        -- split; [exact En|].
           intros message m1 _ A.
           split; [destruct A as [->| ->]; eexists; reflexivity|].
           split; [reflexivity|].
           intros E w srcFolder bucketName dstFolder paths onOutput.
           unfold uploadPaths. cbn [storage bucket].
           destruct (expand_paths w srcFolder dstFolder paths [] [])
             as [[e|ul] tr]; [discriminate|].
           cbn zeta. destruct (List.length ul =? 0); [|discriminate].
           intros X. inversion X as [Y].
           apply (f_equal callbacks) in Y.
           rewrite !callbacks_app, callbacks_say in Y.
           destruct (callbacks tr) as [|c [|c' l]]; discriminate Y.
Qed.

End Connecting.


Lemma deletions_app (tr1 tr2 : Trace) :
  deletions (tr1 ++ tr2) = deletions tr1 ++ deletions tr2.
Proof.
  induction tr1 as [|e tr1 IH]; simpl; [reflexivity|].
  destruct e; simpl; rewrite ?IH; reflexivity.
Qed.

Lemma deletions_say (b : bool) (msg : string) : deletions (say b msg) = [].
Proof. destruct b; reflexivity. Qed.

Section CleanupOrder.

Context `{Env}.

Variable srcFolder : string.

(** One path of the series: nothing, or one deletion of that path. *)
Lemma cleanup_path_deletes (p : string) (w : World) (tr : Trace) :
  exists r added w' (b : bool),
    cleanup_path srcFolder p w tr = (r, tr ++ added, w') /\
    deletions added = (if b then [path_join srcFolder p] else []) /\
    (existsSync w (path_join srcFolder p) = false ->
     added = [] /\ w' = w /\ r = inr None) /\
    (forall e, r = inl e ->
               added = [] /\ w' = w /\
               existsSync w (path_join srcFolder p) = true /\
               lstatSync w (path_join srcFolder p) = inl e) /\
    (forall err, r <> inr (Some err)).
Proof.
  unfold cleanup_path.
  destruct (existsSync w (path_join srcFolder p)) eqn:X; cbn [negb].
  - destruct (lstatSync w (path_join srcFolder p)) as [e|st] eqn:L.
    + exists (inl e), [], w, false. rewrite app_nil_r.
      split; [reflexivity|]. split; [reflexivity|]. split; [discriminate|].
      split; [|discriminate]. intros e' E. inversion E; subst. auto.
    + destruct (isDirectory st).
      * destruct (rimraf w (path_join srcFolder p)) as [[e|] w'];
          eexists (inr None), [_; _], w', true; rewrite <- app_assoc;
          (split; [reflexivity|]); (split; [reflexivity|]);
          (split; [discriminate|]); split; discriminate.
      * destruct (unlink w (path_join srcFolder p)) as [[e|] w'];
          eexists (inr None), [_; _], w', true; rewrite <- app_assoc;
          (split; [reflexivity|]); (split; [reflexivity|]);
          (split; [discriminate|]); split; discriminate.
  - exists (inr None), [], w, false. rewrite app_nil_r.
    split; [reflexivity|]. split; [reflexivity|]. split; [auto|].
    split; discriminate.
Qed.

Lemma eachSeries_deletes (paths : list string) :
  forall (w : World) (tr : Trace),
  exists r added w' mask,
    eachSeries (cleanup_path srcFolder) paths w tr = (r, tr ++ added, w') /\
    deletions added = map (path_join srcFolder) (pick mask paths) /\
    (Forall (fun p => existsSync w (path_join srcFolder p) = false) paths ->
     added = [] /\ w' = w /\ r = inr None) /\
    (forall e, r = inl e ->
       exists before p after,
         paths = before ++ p :: after /\
         fold_left (cleanup_visit srcFolder) before (tr, w) = (tr ++ added, w') /\
         existsSync w' (path_join srcFolder p) = true /\
         lstatSync w' (path_join srcFolder p) = inl e) /\
    (forall err, r <> inr (Some err)).
Proof.
  induction paths as [|p paths IH]; intros w tr; cbn [eachSeries].
  - exists (inr None), [], w, []. rewrite app_nil_r.
    split; [reflexivity|]. split; [reflexivity|]. split; [auto|].
    split; discriminate.
  - destruct (cleanup_path_deletes p w tr) as (r & a1 & w1 & b & E & D & M & T & N).
    rewrite E. destruct r as [e|[err|]].
    + exists (inl e), a1, w1, [b].
      split; [reflexivity|].
      split; [rewrite D; destruct b; reflexivity|].
      split.
      * intros F. apply Forall_cons_iff in F. destruct F as [F _].
        destruct (M F) as (_ & _ & X). discriminate.
      * split; [|discriminate]. intros e' X. inversion X; subst e'.
        destruct (T e eq_refl) as (-> & -> & Ex & L).
        exists [], p, paths. rewrite app_nil_r. auto.
    + destruct (N err eq_refl).
    + destruct (IH w1 (tr ++ a1)) as (r & a2 & w2 & mask & E2 & D2 & M2 & T2 & N2).
      exists r, (a1 ++ a2), w2, (b :: mask). rewrite app_assoc.
      split; [exact E2|].
      split; [rewrite deletions_app, D, D2; destruct b; reflexivity|].
      split.
      * intros F. apply Forall_cons_iff in F. destruct F as [F1 F2].
        destruct (M F1) as (-> & -> & _).
        destruct (M2 F2) as (-> & -> & ->). auto.
      * split; [|exact N2]. intros e X.
        destruct (T2 e X) as (before & q & after & -> & Fo & Ex & L).
        exists (p :: before), q, after. split; [reflexivity|].
        cbn [fold_left]. unfold cleanup_visit at 2. cbn [fst snd].
        rewrite E. auto.
Qed.

(** X11.  The cleanup deletes listed paths only: the paths handed to
    [rimraf] or [fs.unlink] are paths of the list, joined to the folder, at
    most one deletion for each entry and in the order of the list.  When no
    listed path exists there is no deletion, the file system is left as it
    was, and the callback reports success. *)
Theorem cleanup_deletes_listed_paths_only :
  forall paths onOutput w,
    (exists mask,
        deletions (cleanup_trace (cleanupLocalPaths srcFolder paths onOutput w))
        = map (path_join srcFolder) (pick mask paths)) /\
    (Forall (fun p => existsSync w (path_join srcFolder p) = false) paths ->
     cleanupLocalPaths srcFolder paths onOutput w =
     Completed (say onOutput "Cleaning up local files after GCS upload..." ++
                say onOutput "Local cleanup completed" ++ [Cb None]) w).
Proof.
  intros paths onOutput w. unfold cleanupLocalPaths.
  set (tr0 := say onOutput "Cleaning up local files after GCS upload...").
  destruct (eachSeries_deletes paths w tr0)
    as (r & added & w' & mask & E & D & M & _ & N).
  rewrite E. split.
  - exists mask. destruct r as [e|err]; cbn [cleanup_trace];
      rewrite ?deletions_app, ?deletions_say; unfold tr0;
      rewrite ?deletions_say, D; cbn [deletions app];
      rewrite ?app_nil_r; reflexivity.
  - intros F. destruct (M F) as (-> & -> & ->). rewrite app_nil_r. reflexivity.
Qed.

(** X12.  The cleanup can end without its callback.  When an exception
    leaves [cleanupLocalPaths], it comes from [fs.lstatSync] on a listed
    path that [fs.existsSync] has just seen; the paths listed before it
    have been visited, those after it are left alone, and the callback has
    not been called and will not be. *)
Theorem cleanup_exception_loses_the_callback :
  forall paths onOutput w e tr w',
    cleanupLocalPaths srcFolder paths onOutput w = Uncaught e tr w' ->
    callbacks tr = [] /\
    exists before p after,
      paths = before ++ p :: after /\
      fold_left (cleanup_visit srcFolder) before
                (say onOutput "Cleaning up local files after GCS upload...", w)
      = (tr, w') /\
      existsSync w' (path_join srcFolder p) = true /\
      lstatSync w' (path_join srcFolder p) = inl e.
Proof.
  intros paths onOutput w e tr w'. unfold cleanupLocalPaths.
  set (tr0 := say onOutput "Cleaning up local files after GCS upload...").
  destruct (eachSeries_deletes paths w tr0)
    as (r & added & w1 & mask & E & _ & _ & T & _).
  destruct (eachSeries_cleanup srcFolder paths w tr0)
    as (r' & added' & w1' & E' & C & _).
  rewrite E in E'. inversion E' as [[R A W]]. apply app_inv_head in A.
  subst r' added' w1'. rewrite E.
  destruct r as [e1|err]; [|discriminate].
  intros X. inversion X; subst e1 tr w1. split.
  - rewrite callbacks_app, C. unfold tr0. rewrite callbacks_say. reflexivity.
  - apply T. reflexivity.
Qed.

End CleanupOrder.
Lemma number_In (l : list File) :
  forall i j f,
    nth_error l j = Some f -> In {| ref := i + j; file := f |} (number i l).
Proof.
  induction l as [|x l IH]; intros i [|j] f N; simpl in N; try discriminate.
  - inversion N; subst. rewrite Nat.add_0_r. left. reflexivity.
  - right. rewrite Nat.add_succ_r. apply (IH (S i)). exact N.
Qed.

Section Outcomes.

Context `{Env}.

Variable m : GcsModule.
Variable config : Config.
Variable w : World.
Variables srcFolder bucketName dstFolder : string.
Variable onOutput : bool.

Lemma expand_paths_throws (paths : list string) :
  forall uploadList tr e tr',
    expand_paths w srcFolder dstFolder paths uploadList tr = (inl e, tr') ->
    exists before p after uploadList',
      paths = before ++ p :: after /\
      expand_paths w srcFolder dstFolder before uploadList tr
      = (inr uploadList', tr') /\
      existsSync w (path_join srcFolder p) = true /\
      (lstatSync w (path_join srcFolder p) = inl e \/
       exists st, lstatSync w (path_join srcFolder p) = inr st /\
                  isDirectory st = true /\
                  glob_sync w (p +:+ "/**") srcFolder = inl e).
Proof.
  induction paths as [|p paths IH]; cbn [expand_paths]; intros ul tr e tr' E;
    [discriminate|].
  destruct (expand_path w srcFolder dstFolder p ul tr) as [[e1|ul1] tr1] eqn:E1.
  - inversion E; subst e1 tr1. clear E.
    exists [], p, paths, ul. cbn [app expand_paths].
    unfold expand_path in E1.
    destruct (existsSync w (path_join srcFolder p)); cbn [negb] in E1;
      [|discriminate].
    destruct (lstatSync w (path_join srcFolder p)) as [e'|st].
    + inversion E1; subst. auto.
    + destruct (isDirectory st) eqn:D; [|discriminate].
      destruct (glob_sync w (p +:+ "/**") srcFolder) as [e'|l] eqn:G;
        inversion E1; subst.
      split; [reflexivity|]. split; [reflexivity|]. split; [reflexivity|].
      right. exists st. auto.
  - destruct (IH _ _ _ _ E) as (before & q & after & ul' & -> & Eb & X & F).
    exists (p :: before), q, after, ul'. cbn [app expand_paths].
    rewrite E1. auto.
Qed.

(** X13.  An exception leaves [uploadPaths] in one way only: the module
    is initialized, the paths before some listed path have been expanded,
    and on that path, which [fs.existsSync] has seen, [fs.lstatSync]
    throws, or [glob.sync] does under a directory.  The exception is the
    one of that call. *)
Theorem exception_comes_from_the_file_system :
  forall paths e tr,
    uploadPaths m config w srcFolder bucketName dstFolder paths onOutput
    = Threw e tr ->
    enabled m = true /\
    exists before p after uploadList,
      paths = before ++ p :: after /\
      expand_paths w srcFolder dstFolder before [] [] = (inr uploadList, tr) /\
      existsSync w (path_join srcFolder p) = true /\
      (lstatSync w (path_join srcFolder p) = inl e \/
       exists st, lstatSync w (path_join srcFolder p) = inr st /\
                  isDirectory st = true /\
                  glob_sync w (p +:+ "/**") srcFolder = inl e).
Proof.
  intros paths e tr. unfold uploadPaths, enabled.
  destruct (storage m); [|discriminate].
  destruct (bucket m); [|discriminate].
  destruct (expand_paths w srcFolder dstFolder paths [] [])
    as [[e1|ul] tr1] eqn:E.
  - intros X. inversion X; subst e1 tr1. split; [reflexivity|].
    eapply expand_paths_throws. exact E.
  - cbn zeta. destruct (List.length ul =? 0); discriminate.
Qed.

(** X14.  A path that does not exist is skipped, not reported: the upload
    list is the one of the paths that exist, and a call whose paths are all
    missing writes one debug line for each of them and reports success
    without a transfer. *)
Theorem missing_paths_are_skipped :
  forall paths,
    flat_map (spec_tasks w srcFolder dstFolder) paths =
    flat_map (spec_tasks w srcFolder dstFolder)
             (filter (fun p => existsSync w (path_join srcFolder p)) paths) /\
    (enabled m = true ->
     Forall (fun p => existsSync w (path_join srcFolder p) = false) paths ->
     uploadPaths m config w srcFolder bucketName dstFolder paths onOutput =
     Returned (map (fun p => LoggerDebug ("Skipping non-existent path: " +:+
                                          path_join srcFolder p)) paths ++
               say onOutput "No files to upload to GCS" ++ [Cb None])).
Proof.
  intros paths. split.
  - induction paths as [|p paths IH]; [reflexivity|].
    cbn [flat_map filter].
    destruct (existsSync w (path_join srcFolder p)) eqn:X.
    + cbn [flat_map]. rewrite IH. reflexivity.
    + rewrite <- IH. unfold spec_tasks at 1. rewrite X. reflexivity.
  - intros En F.
    assert (E : forall ul tr,
               expand_paths w srcFolder dstFolder paths ul tr =
               (inr ul,
                tr ++ map (fun p => LoggerDebug
                                      ("Skipping non-existent path: " +:+
                                       path_join srcFolder p)) paths)).
    { induction F as [|p paths X _ IH]; intros ul tr; cbn [expand_paths map].
      - rewrite app_nil_r. reflexivity.
      - unfold expand_path. rewrite X. cbn [negb]. rewrite IH, <- app_assoc.
        reflexivity. }
    unfold uploadPaths, enabled in *.
    destruct (storage m); [|discriminate].
    destruct (bucket m); [|discriminate].
    rewrite E. reflexivity.
Qed.

(** X15.  Nothing removes duplicates from the upload list: a path that is
    listed twice puts each of its files in the queue twice, as two tasks
    with the same source and the same destination. *)
Theorem listed_twice_uploaded_twice :
  forall l1 p l2 l3 f s0,
    uploadPaths m config w srcFolder bucketName dstFolder
                (l1 ++ p :: l2 ++ p :: l3) onOutput = Queued s0 ->
    In f (spec_tasks w srcFolder dstFolder p) ->
    exists i j,
      i < j /\
      In {| ref := i; file := f |} (q_tasks s0) /\
      In {| ref := j; file := f |} (q_tasks s0).
Proof.
  intros l1 p l2 l3 f s0 U If.
  destruct (uploadPaths_start _ _ _ _ _ _ _ _ s0 U) as (tr & -> & _).
  cbn [q_tasks].
  apply In_nth_error in If. destruct If as (k & Nk).
  set (S := spec_tasks w srcFolder dstFolder p) in *.
  set (A := flat_map (spec_tasks w srcFolder dstFolder) l1).
  set (B := flat_map (spec_tasks w srcFolder dstFolder) l2).
  set (C := flat_map (spec_tasks w srcFolder dstFolder) l3).
  assert (E : flat_map (spec_tasks w srcFolder dstFolder)
                       (l1 ++ p :: l2 ++ p :: l3) = A ++ S ++ B ++ S ++ C).
  { rewrite flat_map_app. cbn [flat_map]. rewrite flat_map_app. reflexivity. }
  rewrite E.
  assert (Lk : k < List.length S) by (apply nth_error_Some; congruence).
  exists (List.length A + k), (List.length A + List.length S + List.length B + k).
  split; [lia|]. split.
  - apply (number_In _ 0 (List.length A + k) f).
    rewrite nth_error_app2 by lia.
    replace (List.length A + k - List.length A) with k by lia.
    rewrite nth_error_app1 by exact Lk. exact Nk.
  - apply (number_In _ 0 (List.length A + List.length S + List.length B + k) f).
    rewrite nth_error_app2 by lia. rewrite nth_error_app2 by lia.
    rewrite nth_error_app2 by lia.
    replace (List.length A + List.length S + List.length B + k -
             List.length A - List.length S - List.length B) with k by lia.
    rewrite nth_error_app1 by exact Lk. exact Nk.
Qed.

(** X16.  Every entry of the table of content types is in force, whatever
    the letter case of the extension: a file whose extension, in lower
    case, is a key of the table gets the content type listed with that key
    (no entry hides another), and a file with any other extension, or with
    none, is sent as "application/octet-stream". *)
Theorem content_type_by_extension :
  forall filePath,
    (forall ext ct,
        In (ext, ct) contentTypes ->
        toLowerCase (path_extname filePath) = ext ->
        getContentType filePath = ct) /\
    ((forall ct, ~ In (toLowerCase (path_extname filePath), ct) contentTypes) ->
     getContentType filePath = "application/octet-stream"%string).
Proof.
  intros filePath. unfold getContentType. split.
  - intros ext ct I E. rewrite E. clear E.
    unfold contentTypes in I. cbn [In] in I.
    repeat (destruct I as [I|I];
            [inversion I; subst ext ct; reflexivity|]).
    destruct I.
  - intros N.
    destruct (lookup (toLowerCase (path_extname filePath)) contentTypes)
      as [ct|] eqn:L; [|reflexivity].
    apply lookup_In in L. destruct (N _ L).
Qed.

End Outcomes.

Section Attempts.

Context `{Env}.

Variable w : World.
Variable config : Config.
Variable onOutput : bool.
Variable totalFiles : nat.

Lemma attempts_app (r : nat) (tr x : Trace) :
  attempts r (tr ++ x) = attempts r tr + count_occ Nat.eq_dec (started x) r.
Proof. unfold attempts. rewrite started_app, count_occ_app. reflexivity. Qed.

Lemma attempts_quiet (r : nat) (tr x : Trace) :
  started x = [] -> attempts r (tr ++ x) = attempts r tr.
Proof. intros Q. rewrite attempts_app, Q. cbn. lia. Qed.

Lemma NoDup_app_apart (A : Type) (l1 l2 : list A) :
  NoDup (l1 ++ l2) -> NoDup l1 /\ forall a, In a l1 -> ~ In a l2.
Proof.
  induction l1 as [|x l1 IH]; cbn [app]; intros N.
  - split; [constructor|intros a []].
  - inversion N as [|? ? Nx N1]; subst. destruct (IH N1) as [N2 D].
    split.
    + constructor; [|exact N2]. intros I. apply Nx, in_app_iff. left. exact I.
    + intros a [<-|I]; [|apply D; exact I].
      intros I. apply Nx, in_app_iff. right. exact I.
Qed.

(** A state that differs by lines of output only. *)
Lemma Tally_quiet (s s' : State) (x : Trace) :
  q_tasks s' = q_tasks s -> timers s' = timers s -> streams s' = streams s ->
  trace s' = trace s ++ x -> started x = [] ->
  Tally s -> Tally s'.
Proof.
  intros Eq Et Es Etr Q (A & B & C). unfold Tally.
  rewrite Eq, Et, Es, Etr.
  split; [|split].
  - eapply Forall_impl; [|exact A]. intros t E. cbn beta in *.
    rewrite attempts_quiet by exact Q. exact E.
  - eapply Forall_impl; [|exact B]. intros t E. cbn beta in *.
    rewrite attempts_quiet by exact Q. exact E.
  - intros r. rewrite attempts_quiet by exact Q. apply C.
Qed.

(** [q.process] gives each task that it dispatches one more stream. *)
Lemma Tally_process (s s' : State) :
  NoDup (map ref (live s')) ->
  Forall (fun t => retries (file t) <= MAX_RETRIES) (live s') ->
  Tally s ->
  q_process w config s = Goes s' ->
  Tally s'.
Proof.
  intros N0 R0 T0 Qp. revert N0 R0 T0.
  destruct (q_process_spec w config s s' Qp) as (d & rest & Eq & E & _).
  rewrite E. clear E Qp. unfold Tally, live.
  cbn [q_tasks streams timers trace].
  intros N R (A & B & C). rewrite Eq in A.
  assert (Sd : started (flat_map (worker_events w config) d) = map ref d)
    by apply worker_events_quiet.
  assert (P : Permutation
                (rest ++ (streams s ++ d) ++ map snd (timers s))
                (d ++ rest ++ streams s ++ map snd (timers s))).
  { rewrite (Permutation_app_comm (streams s) d).
    rewrite <- !app_assoc.
    rewrite (app_assoc rest d), (Permutation_app_comm rest d).
    rewrite <- !app_assoc. reflexivity. }
  apply (Permutation_map ref) in P.
  apply (Permutation_NoDup P) in N. rewrite map_app in N.
  apply NoDup_app_apart in N. destruct N as (Nd & X).
  assert (In_d : forall t, In t d ->
                           count_occ Nat.eq_dec (map ref d) (ref t) = 1).
  { intros t It. apply NoDup_count_occ'; [exact Nd|]. apply in_map. exact It. }
  assert (Out_d : forall t,
             In t (rest ++ streams s ++ map snd (timers s)) ->
             count_occ Nat.eq_dec (map ref d) (ref t) = 0).
  { intros t It. apply count_occ_not_In. intros Id.
    apply (X (ref t) Id). apply in_map. exact It. }
  rewrite !Forall_app in *. destruct A as ((Ad & Ar) & At).
  destruct R as (Rr & (Rs & Rd) & Rt).
  split; [|split].
  - split.
    + apply Forall_forall. intros t It. rewrite attempts_app, Sd, Out_d.
      * rewrite Forall_forall in Ar. rewrite (Ar t It). lia.
      * apply in_app_iff. left. exact It.
    + apply Forall_forall. intros t It. rewrite attempts_app, Sd, Out_d.
      * rewrite Forall_forall in At. rewrite (At t It). lia.
      * rewrite !in_app_iff. right. right. exact It.
  - split.
    + apply Forall_forall. intros t It. rewrite attempts_app, Sd, Out_d.
      * rewrite Forall_forall in B. rewrite (B t It). lia.
      * rewrite !in_app_iff. right. left. exact It.
    + apply Forall_forall. intros t It.
      rewrite attempts_app, Sd, (In_d t It).
      rewrite Forall_forall in Ad. rewrite (Ad t It). lia.
  - intros r. rewrite attempts_app, Sd.
    destruct (in_dec Nat.eq_dec r (map ref d)) as [I|I].
    + apply in_map_iff in I. destruct I as (t & <- & It).
      rewrite (In_d t It).
      rewrite Forall_forall in Ad, Rd. rewrite (Ad t It).
      specialize (Rd t It). cbn beta in Rd. lia.
    + rewrite (count_occ_not_In Nat.eq_dec) in I. rewrite I.
      specialize (C r). lia.
Qed.

Ltac unstarted :=
  repeat (progress (rewrite ?started_app, ?started_say;
                    cbn [started app]));
  rewrite ?app_nil_r; auto.

Lemma step_Tally (l : Label) (s s' : State) :
  step w config onOutput totalFiles l s = Some (Goes s') ->
  Inv true totalFiles s' ->
  Tally s -> Tally s'.
Proof.
  intros St I' T.
  pose proof (inv_nodup _ _ _ I') as N'.
  pose proof (inv_retries _ _ _ I') as R'.
  destruct l as [|r el|r msg|r msg|r].
  - destruct s as [q n ps dr cbc comp st tm tr]. cbn [step] in St. fields.
    destruct ps; [|discriminate]. arrive St.
    apply Tally_process; [exact N'|exact R'|].
    eapply (Tally_quiet _ _ []); [..|exact T]; fields;
      rewrite ?app_nil_r; reflexivity.
  - destruct s as [q n ps dr cbc comp st tm tr]. cbn [step] in St. fields.
    destruct (take r st) as [[t rest]|] eqn:Tk; [|discriminate].
    arrive St.
    apply take_perm in Tk. destruct Tk as [_ Pm].
    assert (T1 : forall x, started x = [] ->
                           Tally (mkState q (n - 1) ps dr cbc (S comp) rest tm
                                          (tr ++ x))).
    { intros x Qx. destruct T as (A & B & C). unfold Tally in *. fields.
      apply (Permutation_Forall Pm) in B. apply Forall_cons_iff in B.
      destruct B as [_ B].
      split; [|split].
      - eapply Forall_impl; [|exact A]. intros y E. cbn beta in *.
        rewrite attempts_quiet by exact Qx. exact E.
      - eapply Forall_impl; [|exact B]. intros y E. cbn beta in *.
        rewrite attempts_quiet by exact Qx. exact E.
      - intros y. rewrite attempts_quiet by exact Qx. apply C. }
    revert N' R'.
    unfold on_finish. rewrite !output_spec. fields.
    unfold done, q_next, errHandler. fields. unfold q_idle. fields.
    destruct (List.length q + (n - 1) =? 0);
      [destruct dr; [unfold drain; fields; destruct cbc;
                     rewrite ?output_spec; fields|]|];
      intros N' R'; apply Tally_process; try assumption;
      rewrite <- ?app_assoc;
      (eapply (Tally_quiet _ _ []);
       [reflexivity|reflexivity|reflexivity|fields; rewrite app_nil_r;
                                           reflexivity|reflexivity|]);
      apply T1; unstarted.
  - destruct (take r (streams s)) as [[t rest]|] eqn:Tk;
      [|cbn [step] in St; rewrite Tk in St; discriminate].
    pose proof (take_perm _ _ _ _ Tk) as [_ Pm].
    destruct T as (A & B & C).
    apply (Permutation_Forall Pm) in B. apply Forall_cons_iff in B.
    destruct B as [Bt B].
    destruct (retries (file t) <? MAX_RETRIES) eqn:Lt.
    + apply Nat.ltb_lt in Lt.
      rewrite (retry_step w config onOutput totalFiles r msg _ t rest Tk Lt) in St.
      inversion St; subst s'; clear St. unfold Tally. fields.
      assert (Q : started
                    ([LoggerDebug ("Upload error for " +:+
                                   path_basename (dest (file t)) +:+ ": " +:+
                                   msg)] ++
                     say onOutput
                       ("Retrying " +:+ path_basename (dest (file t)) +:+
                        " (attempt " +:+ show (S (retries (file t))) +:+
                        "/" +:+ show MAX_RETRIES +:+ ") in " +:+
                        show (Z.to_nat (backoff (S (retries (file t))) / 1000)) +:+
                        "s...") ++
                     [SetTimeout (backoff (S (retries (file t)))) (bump t)])
                  = []) by unstarted.
      split; [|split].
      * rewrite map_app, app_assoc. apply Forall_app. split.
        -- eapply Forall_impl; [|exact A]. intros y E. cbn beta in *.
           rewrite attempts_quiet by exact Q. exact E.
        -- constructor; [|constructor]. cbn [snd].
           rewrite attempts_quiet by exact Q. exact Bt.
      * eapply Forall_impl; [|exact B]. intros y E. cbn beta in *.
        rewrite attempts_quiet by exact Q. exact E.
      * intros y. rewrite attempts_quiet by exact Q. apply C.
    + apply Nat.ltb_ge in Lt.
      rewrite (fatal_step w config onOutput totalFiles r msg _ t rest Tk Lt) in St.
      inversion St; subst s'; clear St. unfold Tally. fields.
      match goal with
      | |- context [trace s ++ ?x] =>
          assert (Q : started x = []) by (destruct (cbCalled s); unstarted)
      end.
      apply Forall_app in A. destruct A as [_ A]. cbn [app].
      split; [|split].
      * eapply Forall_impl; [|exact A]. intros y E. cbn beta in *.
        rewrite attempts_quiet by exact Q. exact E.
      * eapply Forall_impl; [|exact B]. intros y E. cbn beta in *.
        rewrite attempts_quiet by exact Q. exact E.
      * intros y. rewrite attempts_quiet by exact Q. apply C.
  - cbn [step] in St. destruct (take r (streams s)) as [[t rest]|];
      discriminate.
  - destruct s as [q n ps dr cbc comp st tm tr]. cbn [step] in St. fields.
    destruct (take_timer r tm) as [[t rest]|] eqn:Tk; [|discriminate].
    arrive St.
    apply take_timer_perm in Tk. destruct Tk as (_ & Pm & Len).
    assert (Busy : (List.length (q ++ [t]) + (n - 1) =? 0) = false).
    { apply Nat.eqb_neq. rewrite length_app. simpl. lia. }
    assert (T1 : forall b,
               Tally (mkState (q ++ [t]) (n - 1) b dr cbc comp st rest
                              (tr ++ [Done t None]))).
    { intros b. destruct T as (A & B & C). unfold Tally in *. fields.
      assert (Q : started [Done t None] = []) by reflexivity.
      apply Forall_app in A. destruct A as [Aq At].
      apply (Permutation_Forall Pm) in At. apply Forall_cons_iff in At.
      destruct At as [At1 At].
      split; [|split].
      - rewrite <- app_assoc. apply Forall_app. split; [|constructor].
        + eapply Forall_impl; [|exact Aq]. intros y E. cbn beta in *.
          rewrite attempts_quiet by exact Q. exact E.
        + rewrite attempts_quiet by exact Q. exact At1.
        + eapply Forall_impl; [|exact At]. intros y E. cbn beta in *.
          rewrite attempts_quiet by exact Q. exact E.
      - eapply Forall_impl; [|exact B]. intros y E. cbn beta in *.
        rewrite attempts_quiet by exact Q. exact E.
      - intros y. rewrite attempts_quiet by exact Q. apply C. }
    revert N' R'.
    unfold on_timeout, q_push. fields.
    destruct ps; fields; unfold done, q_next, errHandler; fields;
      unfold q_idle; fields; rewrite Busy;
      intros N' R'; apply Tally_process; try assumption; apply T1.
Qed.

Lemma run_Tally (ls : list Label) :
  forall s s',
    run w config onOutput totalFiles ls s = Some s' ->
    Inv true totalFiles s ->
    Tally s -> Tally s'.
Proof.
  induction ls as [|l ls IH]; simpl; intros s s' R I T.
  - inversion R; subst. exact T.
  - destruct (step w config onOutput totalFiles l s) as [[s1|e1 d1]|] eqn:St;
      try discriminate.
    pose proof (step_Inv w config onOutput totalFiles l s s1 St I) as I1.
    eapply IH; [exact R|exact I1|]. eapply step_Tally; eassumption.
Qed.

End Attempts.

Section Bounded.

Context `{Env}.

Variable m : GcsModule.
Variable config : Config.
Variable w : World.
Variables srcFolder bucketName dstFolder : string.
Variable paths : list string.
Variable onOutput : bool.

(** X28.  No file is handed to a write stream more than six times: in
    every state that a batch reaches, the write streams created so far for
    any one task number at most one plus five retries; for a task whose
    transfer is in flight they number exactly one more than its retries,
    and for a task that waits, in the queue or for its timer, exactly its
    retries. *)
Theorem at_most_six_streams_for_a_file :
  forall s0 ls s,
    uploadPaths m config w srcFolder bucketName dstFolder paths onOutput
    = Queued s0 ->
    batch_run w config onOutput s0 ls = Some s ->
    (forall r, count_occ Nat.eq_dec (started (trace s)) r <= 6) /\
    (forall t, In t (streams s) ->
               count_occ Nat.eq_dec (started (trace s)) (ref t)
               = retries (file t) + 1) /\
    (forall t, In t (q_tasks s ++ map snd (timers s)) ->
               count_occ Nat.eq_dec (started (trace s)) (ref t)
               = retries (file t)).
Proof.
  intros s0 ls s U R.
  pose proof (uploadPaths_queued _ _ _ _ _ _ _ _ _ U) as [I0 Q0].
  destruct (uploadPaths_start _ _ _ _ _ _ _ _ s0 U) as (tr & E0 & _).
  assert (T : Tally s).
  { eapply run_Tally; [exact R|exact I0|].
    rewrite E0 in *. unfold Tally, attempts. fields.
    destruct Q0 as (_ & _ & Qs & _). rewrite Qs. cbn [count_occ].
    rewrite app_nil_r. split; [|split; [constructor|intros; lia]].
    apply Forall_forall. intros t It.
    pose proof (upload_list_fresh w srcFolder dstFolder paths) as F.
    rewrite Forall_forall in F. symmetry. apply F.
    rewrite <- (number_files
                  (flat_map (spec_tasks w srcFolder dstFolder) paths) 0).
    apply in_map. exact It. }
  destruct T as (A & B & C). unfold attempts, MAX_RETRIES in *.
  split; [exact C|]. rewrite Forall_forall in A, B. split.
  - intros t It. rewrite (B t It). lia.
  - intros t It. apply (A t It).
Qed.

End Bounded.

(** ** The further theorems at work on the small environment *)

Lemma in_flight_within_the_pool_witness :
  List.length (streams (Samples.report_after [Immediate; StreamError 1 "reset"])) +
  List.length (timers (Samples.report_after [Immediate; StreamError 1 "reset"]))
  <= PARALLEL_UPLOADS Demo.config.
Proof.
  assert (U : @uploadPaths Demo.steady Demo.ready Demo.config Demo.disk
                "/data" "" "task1" ["odm_report"%string] true
              = Queued Demo.reports) by by_evaluation.
  assert (R : @batch_run Demo.steady Demo.disk Demo.config true Demo.reports
                [Immediate; StreamError 1 "reset"]
              = Some (Samples.report_after [Immediate; StreamError 1 "reset"]))
    by by_evaluation.
  destruct (@in_flight_within_the_pool Demo.steady Demo.ready Demo.config
              Demo.disk "/data" "" "task1" ["odm_report"%string] true _ _ _ U R)
    as (_ & B & _).
  exact B.
Defined.

Lemma no_free_slot_while_files_wait_witness :
  q_tasks (Samples.report_after [Immediate]) = [] \/
  List.length (streams (Samples.report_after [Immediate])) +
  List.length (timers (Samples.report_after [Immediate]))
  = PARALLEL_UPLOADS Demo.config.
Proof.
  assert (U : @uploadPaths Demo.steady Demo.ready Demo.config Demo.disk
                "/data" "" "task1" ["odm_report"%string] true
              = Queued Demo.reports) by by_evaluation.
  assert (R : @batch_run Demo.steady Demo.disk Demo.config true Demo.reports
                [Immediate] = Some (Samples.report_after [Immediate]))
    by by_evaluation.
  apply (@no_free_slot_while_files_wait Demo.steady Demo.ready Demo.config
           Demo.disk "/data" "" "task1" ["odm_report"%string] true _ _ _ U R).
  discriminate.
Defined.

Lemma files_accounted_for_witness :
  completedUploads (Samples.report_after [Immediate; StreamFinish 1 "0.2"]) +
  List.length (q_tasks (Samples.report_after [Immediate; StreamFinish 1 "0.2"])) +
  List.length (streams (Samples.report_after [Immediate; StreamFinish 1 "0.2"])) +
  List.length (timers (Samples.report_after [Immediate; StreamFinish 1 "0.2"]))
  = List.length (q_tasks Demo.reports).
Proof.
  assert (U : @uploadPaths Demo.steady Demo.ready Demo.config Demo.disk
                "/data" "" "task1" ["odm_report"%string] true
              = Queued Demo.reports) by by_evaluation.
  assert (R : @batch_run Demo.steady Demo.disk Demo.config true Demo.reports
                [Immediate; StreamFinish 1 "0.2"]
              = Some (Samples.report_after [Immediate; StreamFinish 1 "0.2"]))
    by by_evaluation.
  assert (F : fatals (trace (Samples.report_after
                               [Immediate; StreamFinish 1 "0.2"])) = [])
    by by_evaluation.
  destruct (@files_accounted_for Demo.steady Demo.ready Demo.config
              Demo.disk "/data" "" "task1" ["odm_report"%string] true _ _ _ U R)
    as (_ & _ & E).
  exact (E F).
Defined.


Lemma first_attempts_follow_the_list_witness :
  exists k,
    k <= List.length (q_tasks Demo.reports) /\
    first_attempts (trace (Samples.report_after Samples.aborted)) = seq 0 k.
Proof.
  assert (U : @uploadPaths Demo.steady Demo.ready Demo.config Demo.disk
                "/data" "" "task1" ["odm_report"%string] true
              = Queued Demo.reports) by by_evaluation.
  assert (R : @batch_run Demo.steady Demo.disk Demo.config true Demo.reports
                Samples.aborted
              = Some (Samples.report_after Samples.aborted)) by by_evaluation.
  destruct (@first_attempts_follow_the_list Demo.steady Demo.ready
              Demo.config Demo.disk "/data" "" "task1" ["odm_report"%string]
              true _ _ _ U R)
    as (k & L & A & _).
  exists k. split; [exact L|exact A].
Defined.

Lemma every_file_once_without_failure_witness :
  started (trace (Samples.report_after
                    [Immediate; StreamFinish 1 "0.2"; StreamFinish 0 "0.4"]))
  = seq 0 (List.length (q_tasks Demo.reports)) /\
  callbacks (trace (Samples.report_after
                      [Immediate; StreamFinish 1 "0.2"; StreamFinish 0 "0.4"]))
  = [None].
Proof.
  assert (U : @uploadPaths Demo.steady Demo.ready Demo.config Demo.disk
                "/data" "" "task1" ["odm_report"%string] true
              = Queued Demo.reports) by by_evaluation.
  assert (R : @batch_run Demo.steady Demo.disk Demo.config true Demo.reports
                [Immediate; StreamFinish 1 "0.2"; StreamFinish 0 "0.4"]
              = Some (Samples.report_after
                        [Immediate; StreamFinish 1 "0.2"; StreamFinish 0 "0.4"]))
    by by_evaluation.
  assert (N : existsb fails
                [Immediate; StreamFinish 1 "0.2"; StreamFinish 0 "0.4"]
              = false) by reflexivity.
  assert (Q : quiescent (Samples.report_after
                           [Immediate; StreamFinish 1 "0.2";
                            StreamFinish 0 "0.4"])).
  { split; [by_evaluation|]. split; by_evaluation. }
  destruct (@every_file_once_without_failure Demo.steady Demo.ready
              Demo.config Demo.disk "/data" "" "task1" ["odm_report"%string]
              true _ _ _ U R N)
    as (_ & _ & E).
  destruct (E Q) as (S & _ & C). split; [exact S|exact C].
Defined.

Lemma streams_carry_the_listed_files_witness :
  exists f,
    nth_error (flat_map (@spec_tasks Demo.steady Demo.disk "/data" "task1")
                        ["odm_report"%string]) 1 = Some f /\
    dest (file (Samples.stats 0)) =
    @path_join Demo.steady "task1" (relativePath f).
Proof.
  assert (U : @uploadPaths Demo.steady Demo.ready Demo.config Demo.disk
                "/data" "" "task1" ["odm_report"%string] true
              = Queued Demo.reports) by by_evaluation.
  assert (R : @batch_run Demo.steady Demo.disk Demo.config true Demo.reports
                [Immediate] = Some (Samples.report_after [Immediate]))
    by by_evaluation.
  assert (I : In (CreateWriteStream
                    (Samples.stats 0)
                    {| resumable := false; validation := "crc32c";
                       contentType := "application/json";
                       chunkSize := None |})
                 (trace (Samples.report_after [Immediate]))).
  { vm_compute. do 4 right. left. reflexivity. }
  destruct (@streams_carry_the_listed_files Demo.steady Demo.ready
              Demo.config Demo.disk "/data" "" "task1" ["odm_report"%string]
              true _ _ _ _ _ U R I)
    as (f & N & _ & _ & D).
  exists f. split; [exact N|exact D].
Defined.

Lemma streams_are_validated_and_typed_witness :
  In (@toLowerCase (@path_extname Demo.steady (src (file (Samples.stats 0)))),
      "application/json"%string) contentTypes \/
  "application/json"%string = "application/octet-stream"%string.
Proof.
  assert (U : @uploadPaths Demo.steady Demo.ready Demo.config Demo.disk
                "/data" "" "task1" ["odm_report"%string] true
              = Queued Demo.reports) by by_evaluation.
  assert (R : @batch_run Demo.steady Demo.disk Demo.config true Demo.reports
                [Immediate] = Some (Samples.report_after [Immediate]))
    by by_evaluation.
  assert (I : In (CreateWriteStream
                    (Samples.stats 0)
                    {| resumable := false; validation := "crc32c";
                       contentType := "application/json";
                       chunkSize := None |})
                 (trace (Samples.report_after [Immediate]))).
  { vm_compute. do 4 right. left. reflexivity. }
  destruct (@streams_are_validated_and_typed Demo.steady Demo.ready
              Demo.config Demo.disk "/data" "" "task1" ["odm_report"%string]
              true _ _ _ _ _ U R I)
    as (_ & _ & T).
  exact T.
Defined.

Lemma enabled_once_the_handles_are_built_witness :
  (exists e,
      answers (snd (@connect Samples.online Demo.config Samples.keys
                             {| storage := None; bucket := None |}
                             (Exists false))) = [Some e]) /\
  enabled (fst (@connect Samples.online Demo.config Samples.keys
                         {| storage := None; bucket := None |}
                         (Exists false))) = true.
Proof.
  assert (A : @initialize Samples.online Demo.config Samples.keys
                {| storage := None; bucket := None |} = Asked Demo.ready)
    by reflexivity.
  destruct (@enabled_once_the_handles_are_built Samples.online Demo.config
              Samples.keys (Exists false)) as (_ & F).
  destruct (F EmptyString _ A (or_intror eq_refl)) as (E & En & _).
  split; [exact E|exact En].
Defined.

Lemma cleanup_deletes_listed_paths_only_witness :
  @cleanupLocalPaths Demo.steady "/data" ["missing"; "nothing"]%string true
                     Demo.disk =
  @Completed Demo.steady
             (say true "Cleaning up local files after GCS upload..." ++
              say true "Local cleanup completed" ++ [Cb None]) Demo.disk.
Proof.
  destruct (@cleanup_deletes_listed_paths_only Demo.steady "/data"
              ["missing"; "nothing"]%string true Demo.disk) as (_ & F).
  apply F. repeat constructor.
Defined.

Lemma cleanup_exception_loses_the_callback_witness :
  exists before p after,
    ["all.zip"; "tmp.lock"; "odm_report"]%string = before ++ p :: after /\
    @lstatSync Demo.racy (snd (Demo.delete Demo.disk "/data/all.zip"))
               (@path_join Demo.racy "/data" p) =
    inl "ENOENT: no such file or directory, lstat '/data/tmp.lock'"%string.
Proof.
  assert (E : @cleanupLocalPaths Demo.racy "/data"
                ["all.zip"; "tmp.lock"; "odm_report"]%string true Demo.disk =
              @Uncaught Demo.racy
                "ENOENT: no such file or directory, lstat '/data/tmp.lock'"%string
                [OnOutput "Cleaning up local files after GCS upload...";
                 Unlink "/data/all.zip" None;
                 LoggerDebug "Deleted file: /data/all.zip"]
                (snd (Demo.delete Demo.disk "/data/all.zip")))
    by reflexivity.
  destruct (@cleanup_exception_loses_the_callback Demo.racy "/data"
              _ _ _ _ _ _ E)
    as (_ & before & p & after & P & _ & _ & L).
  exists before, p, after. split; [exact P|exact L].
Defined.

Lemma exception_comes_from_the_file_system_witness :
  enabled Demo.ready = true /\
  exists before p after uploadList,
    ["all.zip"; "tmp.lock"]%string = before ++ p :: after /\
    @expand_paths Demo.racy Demo.disk "/data" "task1" before [] [] =
    (inr uploadList, []).
Proof.
  assert (U : @uploadPaths Demo.racy Demo.ready Demo.config Demo.disk "/data"
                "" "task1" ["all.zip"; "tmp.lock"]%string true =
              Threw "ENOENT: no such file or directory, lstat '/data/tmp.lock'"%string
                    []) by by_evaluation.
  destruct (@exception_comes_from_the_file_system Demo.racy Demo.ready
              Demo.config Demo.disk "/data" "" "task1" true _ _ _ U)
    as (En & before & p & after & ul & P & E & _).
  split; [exact En|]. exists before, p, after, ul. split; [exact P|exact E].
Defined.

Lemma missing_paths_are_skipped_witness :
  @uploadPaths Demo.steady Demo.ready Demo.config Demo.disk "/data" "" "task1"
               ["missing"; "nothing"]%string false =
  Returned (map (fun p => LoggerDebug ("Skipping non-existent path: " +:+
                                       @path_join Demo.steady "/data" p))
                ["missing"; "nothing"]%string ++
            say false "No files to upload to GCS" ++ [Cb None]).
Proof.
  destruct (@missing_paths_are_skipped Demo.steady Demo.ready Demo.config
              Demo.disk "/data" "" "task1" false
              ["missing"; "nothing"]%string) as (_ & F).
  apply F; [reflexivity|repeat constructor].
Defined.

Lemma listed_twice_uploaded_twice_witness :
  exists i j,
    i < j /\
    In {| ref := i; file := file (Demo.archive 0) |} (q_tasks Samples.twice) /\
    In {| ref := j; file := file (Demo.archive 0) |} (q_tasks Samples.twice).
Proof.
  assert (U : @uploadPaths Demo.steady Demo.ready Demo.config Demo.disk
                "/data" "" "task1"
                ([] ++ "all.zip"%string :: [] ++ "all.zip"%string :: []) true
              = Queued Samples.twice) by by_evaluation.
  assert (I : In (file (Demo.archive 0))
                 (@spec_tasks Demo.steady Demo.disk "/data" "task1" "all.zip")).
  { vm_compute. left. reflexivity. }
  exact (@listed_twice_uploaded_twice Demo.steady Demo.ready Demo.config
           Demo.disk "/data" "" "task1" true _ _ _ _ _ _ U I).
Defined.

Lemma content_type_by_extension_witness :
  @getContentType Demo.steady "/data/ORTHO.TIF" = "image/tiff"%string.
Proof.
  destruct (@content_type_by_extension Demo.steady "/data/ORTHO.TIF")
    as (T & _).
  apply (T ".tif"%string).
  - left. reflexivity.
  - by_evaluation.
Defined.

Lemma abort_closes_the_queue_witness :
  (exists s',
      step (H := Demo.steady) Demo.disk Demo.config true
           (List.length (q_tasks Demo.reports)) (StreamError 0 "reset")
           (Samples.report_after
              (Immediate :: StreamError 1 "reset" :: Demo.failing 5))
      = Some (Goes s') /\
      q_tasks s' = [] /\
      timers s' = [(2000%Z, Samples.stats 1)] /\
      callbacks (trace s') =
      [Some ("Failed to upload " +:+
             @path_basename Demo.steady "task1/odm_report/report.pdf" +:+
             " after 5 retries: " +:+ "reset")]) /\
  (forall r,
      r < List.length (q_tasks Demo.reports) ->
      In r (started
              (before_abort
                 (trace (Samples.report_after
                           (Samples.aborted ++ [TimerFires 1])))))) /\
  (forall t opts,
      In (CreateWriteStream t opts)
         (match after_abort
                  (trace (Samples.report_after
                            (Samples.aborted ++ [TimerFires 1]))) with
          | Some post => post
          | None => []
          end) ->
      0 < retries (file t)).
Proof.
  assert (U : @uploadPaths Demo.steady Demo.ready Demo.config Demo.disk
                "/data" "" "task1" ["odm_report"%string] true
              = Queued Demo.reports) by by_evaluation.
  split.
  - assert (R : @batch_run Demo.steady Demo.disk Demo.config true Demo.reports
                  (Immediate :: StreamError 1 "reset" :: Demo.failing 5)
                = Some (Samples.report_after
                          (Immediate :: StreamError 1 "reset" ::
                           Demo.failing 5))) by by_evaluation.
    assert (T : take 0 (streams (Samples.report_after
                                   (Immediate :: StreamError 1 "reset" ::
                                    Demo.failing 5)))
                = Some ({| ref := 0;
                           file := {| src := "/data/odm_report/report.pdf";
                                      dest := "task1/odm_report/report.pdf";
                                      relativePath := "odm_report/report.pdf";
                                      retries := 5 |} |}, []))
      by by_evaluation.
    assert (C0 : callbacks (trace (Samples.report_after
                                     (Immediate :: StreamError 1 "reset" ::
                                      Demo.failing 5))) = [])
      by by_evaluation.
    assert (Tm : timers (Samples.report_after
                           (Immediate :: StreamError 1 "reset" ::
                            Demo.failing 5))
                 = [(2000%Z, Samples.stats 1)]) by by_evaluation.
    destruct (@abort_closes_the_queue Demo.steady Demo.ready Demo.config
                Demo.disk "/data" "" "task1" ["odm_report"%string] true
                _ _ _ U R) as [A _].
    destruct (A 0 "reset"%string _ _ T) as (s' & St & Q & _ & Ts & _ & C & _).
    + cbn. unfold MAX_RETRIES. lia.
    + exact C0.
    + exists s'. split; [exact St|]. split; [exact Q|].
      split; [rewrite Ts; exact Tm|exact C].
  - assert (R : @batch_run Demo.steady Demo.disk Demo.config true Demo.reports
                  (Samples.aborted ++ [TimerFires 1])
                = Some (Samples.report_after
                          (Samples.aborted ++ [TimerFires 1])))
      by by_evaluation.
    assert (S : trace (Samples.report_after
                         (Samples.aborted ++ [TimerFires 1])) =
                before_abort
                  (trace (Samples.report_after
                            (Samples.aborted ++ [TimerFires 1]))) ++
                Cb (Some "Failed to upload report.pdf after 5 retries: reset"%string)
                :: match after_abort
                           (trace (Samples.report_after
                                     (Samples.aborted ++ [TimerFires 1]))) with
                   | Some post => post
                   | None => []
                   end) by by_evaluation.
    destruct (@abort_closes_the_queue Demo.steady Demo.ready Demo.config
                Demo.disk "/data" "" "task1" ["odm_report"%string] true
                _ _ _ U R) as [_ B].
    destruct (B _ _ _ S) as (_ & X & Y). split; [exact X|exact Y].
Defined.

(** C3, as the claim has it, fails: of the two files of the report, the
    first fails for good while the second waits for its first retry; when
    the timer of the second fires, after the completion callback has
    received the error, the pool takes the task from the queue and hands
    it to a new write stream. *)
Lemma retry_is_dispatched_after_the_abort :
  callbacks (trace (Samples.report_after (Samples.aborted ++ [TimerFires 1])))
  = [Some "Failed to upload report.pdf after 5 retries: reset"%string] /\
  option_map started
    (after_abort
       (trace (Samples.report_after (Samples.aborted ++ [TimerFires 1]))))
  = Some [1] /\
  ~ closed_after_abort
      (trace (Samples.report_after (Samples.aborted ++ [TimerFires 1]))).
Proof.
  split; [by_evaluation|]. split; [by_evaluation|].
  intros C.
  pose proof (C (match after_abort
                         (trace (Samples.report_after
                                   (Samples.aborted ++ [TimerFires 1]))) with
                 | Some post => post
                 | None => []
                 end)) as X.
  assert (A : after_abort
                (trace (Samples.report_after
                          (Samples.aborted ++ [TimerFires 1]))) =
              Some (match after_abort
                            (trace (Samples.report_after
                                      (Samples.aborted ++ [TimerFires 1]))) with
                    | Some post => post
                    | None => []
                    end)) by by_evaluation.
  specialize (X A). vm_compute in X. discriminate X.
Qed.

Lemma at_most_six_streams_for_a_file_witness :
  count_occ Nat.eq_dec
            (started (trace (Samples.report_after
                               [Immediate; StreamError 1 "reset";
                                TimerFires 1]))) 1 <= 6.
Proof.
  assert (U : @uploadPaths Demo.steady Demo.ready Demo.config Demo.disk
                "/data" "" "task1" ["odm_report"%string] true
              = Queued Demo.reports) by by_evaluation.
  assert (R : @batch_run Demo.steady Demo.disk Demo.config true Demo.reports
                [Immediate; StreamError 1 "reset"; TimerFires 1]
              = Some (Samples.report_after
                        [Immediate; StreamError 1 "reset"; TimerFires 1]))
    by by_evaluation.
  destruct (@at_most_six_streams_for_a_file Demo.steady Demo.ready Demo.config
              Demo.disk "/data" "" "task1" ["odm_report"%string] true _ _ _
              U R) as (B & _).
  exact (B 1).
Defined.

(** ** The options of ODM *)

Section Lookups.

Import OdmInfo.

Context {numbers : Numbers} {host : Host}.



Lemma describe_name (option : string) (values : Values) :
  name (fst (describe option values)) = strip_dashes option.
Proof.
  unfold describe.
  destruct (_ || _)%bool; [|destruct (_ || _)%bool];
    (destruct (v_default values) as [d|];
     [destruct (String.eqb d "True"); [|destruct (String.eqb d "False")]|]);
    destruct (parse_choices (v_choices values)) as [[|items] warnings];
    reflexivity.
Qed.

Lemma describe_domain (option : string) (values : Values) :
  match domain (fst (describe option values)) with
  | DomainList choices =>
      type (fst (describe option values)) = TEnum /\
      In (JStr (value (fst (describe option values)))) choices
  | DomainText _ => type (fst (describe option values)) <> TEnum
  end.
Proof.
  assert (E : forall v items,
             In (JStr v) (if existsb (strict_eq (JStr v)) items then items
                          else JStr v :: items)).
  { intros v items. destruct (existsb (strict_eq (JStr v)) items) eqn:X;
      [|left; reflexivity].
    apply existsb_exists in X. destruct X as (x & Ix & Sx).
    destruct x; try discriminate Sx. cbn in Sx.
    apply String.eqb_eq in Sx. subst. exact Ix. }
  unfold describe.
  destruct (_ || _)%bool; [|destruct (_ || _)%bool];
    (destruct (v_default values) as [d|];
     [destruct (String.eqb d "True"); [|destruct (String.eqb d "False")]|]);
    destruct (parse_choices (v_choices values)) as [[|items] warnings];
    cbn [fst domain type value]; try discriminate;
    (split; [reflexivity|apply E]).
Qed.

Lemma describe_all_names (json : list (string * Values)) :
  map name (fst (describe_all json)) =
  map strip_dashes
      (filter (fun option => negb (is_hidden option)) (map fst json)).
Proof.
  induction json as [|[option values] json IH]; [reflexivity|].
  cbn [describe_all map filter fst].
  destruct (is_hidden option); cbn [negb]; [exact IH|].
  pose proof (describe_name option values) as N.
  destruct (describe option values) as [o warnings].
  destruct (describe_all json) as [os warnings'].
  cbn [fst map] in *. rewrite N, IH. reflexivity.
Qed.

Lemma describe_all_domains (json : list (string * Values)) :
  Forall (fun o =>
            match domain o with
            | DomainList choices =>
                type o = TEnum /\ In (JStr (value o)) choices
            | DomainText _ => type o <> TEnum
            end) (fst (describe_all json)).
Proof.
  induction json as [|[option values] json IH]; [constructor|].
  cbn [describe_all fst].
  destruct (is_hidden option); [exact IH|].
  pose proof (describe_domain option values) as D.
  destruct (describe option values) as [o warnings].
  destruct (describe_all json) as [os warnings'].
  cbn [fst] in *. constructor; assumption.
Qed.

(** X18.  [getOptions] lists one option for each key of the runner's
    object that is not hidden, in the order of the object, under the key's
    name without its two leading dashes.  An option gets the type [enum]
    exactly when its choices parse as an array, and the array that it
    keeps as its domain contains its default value. *)
Theorem options_are_listed_in_order :
  forall json,
    map name (fst (describe_all json)) =
    map strip_dashes
        (filter (fun option => negb (is_hidden option)) (map fst json)) /\
    Forall (fun o =>
              match domain o with
              | DomainList choices =>
                  type o = TEnum /\ In (JStr (value o)) choices
              | DomainText _ => type o <> TEnum
              end) (fst (describe_all json)).
Proof.
  intros json. split; [apply describe_all_names|apply describe_all_domains].
Qed.

(** X19.  [supportsOption] given [true] for a name exactly when the
    runner reports, under a key that is not hidden, an option of that name
    (the key without its two leading dashes); an error of [getOptions] is
    passed on.  An option that is hidden is not supported, whatever ODM
    does with it. *)
Theorem supported_means_listed :
  forall m json optName,
    (exists b,
        supportsOption_callback optName
          (snd (getOptions_callback (inr json) m)) = inr b /\
        (b = true <->
         exists option,
           In option (map fst json) /\ is_hidden option = false /\
           strip_dashes option = optName)) /\
    (forall e,
        supportsOption_callback optName
          (snd (getOptions_callback (inl e) m)) = inl e).
Proof.
  intros m json optName. split; [|reflexivity].
  unfold getOptions_callback.
  pose proof (describe_all_names json) as N.
  destruct (describe_all json) as [os warnings]. cbn [fst snd] in *.
  unfold supportsOption_callback. eexists. split; [reflexivity|].
  rewrite existsb_exists. split.
  - intros (o & Io & E). apply String.eqb_eq in E.
    apply (in_map name) in Io. rewrite N in Io.
    apply in_map_iff in Io. destruct Io as (option & S & If).
    apply filter_In in If. destruct If as [If Hd].
    exists option. split; [exact If|]. split; [|congruence].
    destruct (is_hidden option); [discriminate|reflexivity].
  - intros (option & Io & Hd & S).
    assert (I : In optName (map name os)).
    { rewrite N, <- S. apply in_map. apply filter_In.
      split; [exact Io|]. rewrite Hd. reflexivity. }
    apply in_map_iff in I. destruct I as (o & E & Il).
    exists o. split; [exact Il|]. apply String.eqb_eq. exact E.
Qed.

(** X20.  [initialize] calls [done] exactly once, whichever answer of the
    runner comes first.  It does so without an error exactly when the
    options are known already or the runner delivers them: an error of the
    lookup of the version is never reported.  The order of the two given
    changes neither the variables of the module, nor the warnings, nor the
    error. *)
Theorem initialize_reports_once :
  forall m runner_options runner_version arrival,
    let '(m', warnings, p) :=
      initialize m runner_options runner_version arrival in
    (exists err rs,
        calls p = [(err, rs)] /\
        (err = None <->
         odmOptions m <> None \/ exists json, runner_options = inr json) /\
        (err = None ->
         exists options version,
           rs = (Some options, Some version) /\
           odmOptions m' = Some options)) /\
    (forall arrival',
        let '(m'', warnings', p') :=
          initialize m runner_options runner_version arrival' in
        m'' = m' /\ warnings' = warnings /\
        map fst (calls p') = map fst (calls p)).
Proof.
  intros m ro [verr v] arrival. unfold initialize, getOptions, getVersion.
  destruct m as [[os|] ver eng]; cbn [odmOptions odmVersion];
    destruct (truthy ver); cbn [getVersion_callback fst snd];
    (destruct ro as [e|json]; cbn [getOptions_callback];
     [|destruct (describe_all json) as [os' warnings]]);
    destruct arrival;
    cbn [getVersion_callback complete results completed calls fst snd
         Nat.eqb app odmOptions];
    (split;
     [eexists; eexists; (split; [reflexivity|]);
      (split;
       [first [ split; [intros _; first [left; discriminate|right; eauto]
                       |reflexivity]
              | split; [discriminate
                       |intros [X|[j X]];
                        [exfalso; apply X; reflexivity|discriminate]] ]
       |first [ discriminate
              | intros _; eexists; eexists; split; reflexivity ]])
     |intros []; cbn [getVersion_callback complete results completed calls
                      fst snd Nat.eqb app]; rewrite ?app_nil_r; auto]).
Qed.

End Lookups.

Section Filter.

Import OdmInfo.

Context {numbers : Numbers} {host : Host}.

Variable limits : Limits.

(** The scan reads a request through [options.find] alone. *)
Lemma scan_ext (l l' : list Json) (os : list OdmOption) :
  (forall o, In o os -> find_option (name o) l = find_option (name o) l') ->
  forall sc, scan limits l os sc = scan limits l' os sc.
Proof.
  induction os as [|o os IH]; intros E sc; [reflexivity|].
  cbn [scan]. unfold scan_option. rewrite (E o) by (left; reflexivity).
  destruct (find_option (name o) l') as [e|[opt|]]; [reflexivity| |];
    [destruct (accept limits o opt)|]; apply IH; intros; apply E; right;
    assumption.
Qed.

Lemma filterOptions_ext (m : Vars) (l l' : list Json) :
  (forall os o, odmOptions m = Some os -> In o os ->
                find_option (name o) l = find_option (name o) l') ->
  filterOptions m limits (JArr l) = filterOptions m limits (JArr l').
Proof.
  intros E. unfold filterOptions.
  destruct (odmOptions m) as [os|]; [|reflexivity].
  cbn [request]. rewrite (scan_ext l l' os); [reflexivity|].
  intros o Io. apply (E os); auto.
Qed.

Lemma find_option_drop (n : string) (o : Json) (before after : list Json) :
  o <> JNull -> o <> JUndefined ->
  strict_eq (property "name" o) (JStr n) = false ->
  find_option n (before ++ o :: after) = find_option n (before ++ after).
Proof.
  intros N U S. induction before as [|x before IH]; cbn [app find_option].
  - rewrite S. destruct o; try reflexivity; congruence.
  - rewrite IH. reflexivity.
Qed.

(** X21.  An element of a request that names no option of ODM is
    ignored: [filterOptions] does with the request what it does without
    that element, and reports no error for it. *)
Theorem unknown_options_are_ignored :
  forall m before o after,
    o <> JNull -> o <> JUndefined ->
    (forall os odmOption,
        odmOptions m = Some os -> In odmOption os ->
        strict_eq (property "name" o) (JStr (name odmOption)) = false) ->
    filterOptions m limits (JArr (before ++ o :: after)) =
    filterOptions m limits (JArr (before ++ after)).
Proof.
  intros m before o after N U S. apply filterOptions_ext.
  intros os x E Ix. apply find_option_drop; eauto.
Qed.

Lemma find_option_named (n : string) (l : list Json) :
  Forall (fun o => named o <> None) l ->
  (exists o, find_option n l = inr (Some o) /\ In o l /\ named o = Some n) \/
  (find_option n l = inr None /\ forall o, In o l -> named o <> Some n).
Proof.
  induction 1 as [|x l Nx _ IH]; [right; split; [reflexivity|intros o []]|].
  cbn [find_option]. unfold named in Nx.
  destruct x as [| | | | | |fields]; try (exfalso; apply Nx; reflexivity).
  cbn [property].
  destruct (field "name" fields) as [| | | |s| |] eqn:F;
    try (exfalso; apply Nx; reflexivity).
  cbn [strict_eq]. destruct (String.eqb_spec s n) as [->|D].
  - left. exists (JObj fields). split; [reflexivity|].
    split; [left; reflexivity|]. unfold named. rewrite F. reflexivity.
  - destruct IH as [(o & E & Io & No)|[E No]].
    + left. exists o. split; [exact E|]. split; [right; exact Io|exact No].
    + right. split; [exact E|]. intros o [<-|Io]; [|auto].
      unfold named. rewrite F. congruence.
Qed.

Lemma NoDup_map_eq {A B : Type} (f : A -> B) (l : list A) :
  NoDup (map f l) ->
  forall x y, In x l -> In y l -> f x = f y -> x = y.
Proof.
  induction l as [|a l IH]; cbn [map]; intros N x y Ix Iy E; [destruct Ix|].
  inversion N as [|? ? Na Nl]; subst.
  destruct Ix as [<-|Ix]; destruct Iy as [<-|Iy]; auto.
  - exfalso. apply Na. rewrite E. apply in_map. exact Iy.
  - exfalso. apply Na. rewrite <- E. apply in_map. exact Ix.
Qed.

(** X22.  [filterOptions] follows the order of the options of ODM, not
    the order of the request: when the elements of a request are objects
    with distinct names, any rearrangement of the request gives the same
    outcome. *)
Theorem order_of_the_request_is_irrelevant :
  forall m l l',
    Permutation l l' ->
    Forall (fun o => named o <> None) l ->
    NoDup (map named l) ->
    filterOptions m limits (JArr l) = filterOptions m limits (JArr l').
Proof.
  intros m l l' P F N. apply filterOptions_ext. intros os x _ _.
  assert (F' : Forall (fun o => named o <> None) l')
    by (eapply Permutation_Forall; eassumption).
  destruct (find_option_named (name x) l F) as [(o & E & Io & No)|[E No]];
    destruct (find_option_named (name x) l' F')
    as [(o' & E' & Io' & No')|[E' No']]; rewrite E, E'.
  - f_equal. f_equal. apply (NoDup_map_eq named l N).
    + exact Io.
    + eapply Permutation_in; [symmetry; exact P|exact Io'].
    + congruence.
  - exfalso. apply (No' o); [eapply Permutation_in; eassumption|exact No].
  - exfalso. apply (No o');
      [eapply Permutation_in; [symmetry; exact P|exact Io']|exact No'].
  - reflexivity.
Qed.

Lemma flag_mark (X n : string) (f : Flags) :
  In X five -> flag X (mark n f) = String.eqb n X || flag X f.
Proof.
  intros I. unfold five in I. cbn [In] in I.
  repeat (destruct I as [<-|I];
          [cbn; destruct (String.eqb n _); reflexivity|]).
  destruct I.
Qed.

Lemma flag_none (X : string) : flag X no_flag = false.
Proof.
  unfold flag, no_flag. cbn.
  repeat match goal with |- context [if ?b then _ else _] => destruct b end;
    reflexivity.
Qed.

(** What the loop leaves: the entries accepted, in the order of the
    options of ODM, and the flags. *)
Lemma scan_spec (l : list Json) (os : list OdmOption) :
  forall sc sc',
    scan limits l os sc = inr sc' ->
    exists added mask,
      result sc' = result sc ++ added /\
      map fst added = pick mask (map name os) /\
      (forall e, In e added ->
                 exists o opt,
                   In o os /\ find_option (name o) l = inr (Some opt) /\
                   accept limits o opt = inr e) /\
      (forall X, In X five ->
                 flag X (isAnOption sc') =
                 existsb (fun o => String.eqb (name o) X) os ||
                 flag X (isAnOption sc)) /\
      (forall X, In X five ->
                 flag X (found sc') =
                 existsb (fun e => String.eqb (fst e) X) added ||
                 flag X (found sc)).
Proof.
  induction os as [|o os IH]; intros sc sc' E.
  - inversion E; subst sc'. exists [], []. rewrite app_nil_r.
    repeat split; auto. intros e [].
  - cbn [scan] in E. unfold scan_option in E.
    destruct (find_option (name o) l) as [e|[opt|]] eqn:Fo; [discriminate| |].
    + destruct (accept limits o opt) as [e|entry] eqn:Ac.
      * destruct (IH _ _ E) as (added & mask & R & M & A & Fa & Ff).
        cbn [result isAnOption found] in *.
        exists added, (false :: mask). split; [exact R|].
        split; [exact M|]. split.
        -- intros x Ix. destruct (A x Ix) as (o' & opt' & Io & X).
           exists o', opt'. split; [right; exact Io|exact X].
        -- split; [|exact Ff]. intros X IX.
           rewrite (Fa X IX), flag_mark by exact IX. cbn [existsb].
           rewrite orb_assoc. f_equal. apply orb_comm.
      * destruct (IH _ _ E) as (added & mask & R & M & A & Fa & Ff).
        cbn [result isAnOption found] in *.
        assert (Ne : fst entry = name o).
        { unfold accept in Ac.
          destruct (typeConversion (type o) (property "value" opt));
            [discriminate|].
          destruct (if has_domain (domain o) then _ else None);
            [discriminate|].
          inversion Ac; subst. reflexivity. }
        exists (entry :: added), (true :: mask).
        split; [rewrite R, <- app_assoc; reflexivity|].
        split; [cbn [map pick]; rewrite M, Ne; reflexivity|]. split.
        -- intros x [<-|Ix].
           ++ exists o, opt. split; [left; reflexivity|]. auto.
           ++ destruct (A x Ix) as (o' & opt' & Io & X).
              exists o', opt'. split; [right; exact Io|exact X].
        -- split; intros X IX.
           ++ rewrite (Fa X IX), flag_mark by exact IX. cbn [existsb].
              rewrite orb_assoc. f_equal. apply orb_comm.
           ++ rewrite (Ff X IX), flag_mark by exact IX. cbn [existsb].
              rewrite Ne, orb_assoc. f_equal. apply orb_comm.
    + destruct (IH _ _ E) as (added & mask & R & M & A & Fa & Ff).
      cbn [result isAnOption found] in *.
      exists added, (false :: mask). split; [exact R|].
      split; [exact M|]. split.
      * intros x Ix. destruct (A x Ix) as (o' & opt' & Io & X).
        exists o', opt'. split; [right; exact Io|exact X].
      * split; [|exact Ff]. intros X IX.
        rewrite (Fa X IX), flag_mark by exact IX. cbn [existsb].
        rewrite orb_assoc. f_equal. apply orb_comm.
Qed.


Lemma map_fst_update_entry (n : string) (f : Json -> Json)
      (r : list (string * Json)) :
  map fst (update_entry n f r) = map fst r.
Proof.
  induction r as [|[n' v] r IH]; [reflexivity|].
  cbn [update_entry]. destruct (String.eqb n' n); cbn [map fst];
    [|rewrite IH]; reflexivity.
Qed.

Lemma update_entry_other (n : string) (f : Json -> Json)
      (r : list (string * Json)) (n' : string) (v : Json) :
  n' <> n -> In (n', v) r -> In (n', v) (update_entry n f r).
Proof.
  intros D. induction r as [|[k u] r IH]; [intros []|].
  cbn [update_entry]. destruct (String.eqb_spec k n) as [->|K].
  - intros [E|I]; [inversion E; congruence|right; exact I].
  - intros [E|I]; [left; exact E|right; auto].
Qed.

Lemma update_entry_same (n : string) (f : Json -> Json)
      (r : list (string * Json)) (v : Json) :
  In (n, v) (update_entry n f r) ->
  exists u, In (n, u) r /\ (v = f u \/ v = u).
Proof.
  induction r as [|[k u] r IH]; [intros []|].
  cbn [update_entry]. destruct (String.eqb_spec k n) as [->|K].
  - intros [E|I].
    + inversion E; subst. exists u. split; [left; reflexivity|auto].
    + exists v. split; [right; exact I|auto].
  - intros [E|I]; [inversion E; congruence|].
    destruct (IH I) as (x & Ix & X). exists x. split; [right; exact Ix|exact X].
Qed.

(** Lines 359-400, by cases. *)
Lemma settle_concurrency_spec (sc : Scan) :
  fst (settle_concurrency limits sc) = result sc \/
  (flag "max-concurrency" (found sc) = false /\
   flag "max-concurrency" (isAnOption sc) = true /\
   exists c,
     fst (settle_concurrency limits sc) =
     result sc ++ [("max-concurrency"%string, JNum c)] /\
     forall cap, positive_limit limits = Some cap -> c = cap) \/
  (flag "max-concurrency" (found sc) = true /\
   exists cap,
     positive_limit limits = Some cap /\
     fst (settle_concurrency limits sc) =
     update_entry "max-concurrency"
                  (fun v => JNum (num_min (to_number v) cap)) (result sc)).
Proof.
  unfold settle_concurrency.
  change (flag "max-concurrency" (found sc))
    with (f_maxConcurrency (found sc)).
  change (flag "max-concurrency" (isAnOption sc))
    with (f_maxConcurrency (isAnOption sc)).
  destruct (f_maxConcurrency (found sc));
    destruct (f_maxConcurrency (isAnOption sc)); cbn [negb andb].
  - destruct (positive_limit limits) as [cap|]; [|left; reflexivity].
    right. right. split; [reflexivity|]. exists cap. auto.
  - destruct (positive_limit limits) as [cap|]; [|left; reflexivity].
    right. right. split; [reflexivity|]. exists cap. auto.
  - destruct (positive_limit limits) as [cap|].
    + cbn [fst]. destruct (num_truthy cap); [|left; reflexivity].
      right. left. split; [reflexivity|]. split; [reflexivity|].
      exists cap. split; [reflexivity|]. intros c E. congruence.
    + match goal with
      | |- context [num_truthy ?c] => destruct (num_truthy c) eqn:T
      end; cbn [fst]; [|left; reflexivity].
      right. left. split; [reflexivity|]. split; [reflexivity|].
      eexists. split; [reflexivity|]. discriminate.
  - left. reflexivity.
Qed.

(** Lines 402-432: each of the four defaults is appended when its option
    is one of ODM and the request has not set it. *)
Lemma fill_defaults_spec (sc : Scan) (r : list (string * Json)) :
  fill_defaults sc r =
  r ++ flat_map (fun d => if negb (flag (fst d) (found sc)) &&
                             flag (fst d) (isAnOption sc)
                          then [d] else []) defaults.
Proof.
  unfold fill_defaults, defaults. cbn [flat_map fst].
  change (flag "tiles" (found sc)) with (f_tiles (found sc)).
  change (flag "tiles" (isAnOption sc)) with (f_tiles (isAnOption sc)).
  change (flag "cog" (found sc)) with (f_cog (found sc)).
  change (flag "cog" (isAnOption sc)) with (f_cog (isAnOption sc)).
  change (flag "matcher-neighbors" (found sc))
    with (f_matcherNeighbors (found sc)).
  change (flag "matcher-neighbors" (isAnOption sc))
    with (f_matcherNeighbors (isAnOption sc)).
  change (flag "orthophoto-resolution" (found sc))
    with (f_orthophotoResolution (found sc)).
  change (flag "orthophoto-resolution" (isAnOption sc))
    with (f_orthophotoResolution (isAnOption sc)).
  destruct (negb (f_tiles (found sc)) && f_tiles (isAnOption sc));
    destruct (negb (f_cog (found sc)) && f_cog (isAnOption sc));
    destruct (negb (f_matcherNeighbors (found sc)) &&
              f_matcherNeighbors (isAnOption sc));
    destruct (negb (f_orthophotoResolution (found sc)) &&
              f_orthophotoResolution (isAnOption sc));
    cbn [app]; rewrite <- ?app_assoc; cbn [app]; rewrite ?app_nil_r;
    reflexivity.
Qed.

(** A result of [filterOptions], by its parts. *)
Lemma filterOptions_result (m : Vars) (options : Json) (info : list string)
      (res : list (string * Json)) :
  filterOptions m limits options = Done info (inr res) ->
  exists os l sc,
    odmOptions m = Some os /\ request options = inr l /\
    scan limits l os {| result := []; errors := [];
                        isAnOption := no_flag; found := no_flag |} = inr sc /\
    res = fill_defaults sc (fst (settle_concurrency limits sc)).
Proof.
  unfold filterOptions.
  destruct (odmOptions m) as [os|]; [|discriminate].
  destruct (request options) as [e|l]; [discriminate|].
  destruct (scan limits l os _) as [e|sc] eqn:S; [discriminate|].
  destruct (settle_concurrency limits sc) as [r i] eqn:St.
  destruct (errors sc); [|discriminate].
  intros E. inversion E; subst. exists os, l, sc.
  split; [reflexivity|]. split; [reflexivity|]. split; [exact S|].
  rewrite St. reflexivity.
Qed.

(** X23.  A result of [filterOptions] switches on what the request leaves
    out: when ODM has the option [tiles], [cog], [matcher-neighbors] or
    [orthophoto-resolution], the result has an entry of that name, and
    when the request has no element of that name the entry is the default
    ([true], [true], 8 and 0.1). *)
Theorem defaults_are_filled_in :
  forall m options info res os X v,
    filterOptions m limits options = Done info (inr res) ->
    odmOptions m = Some os ->
    In (X, v) defaults ->
    In X (map name os) ->
    (exists u, In (X, u) res) /\
    (forall l, request options = inr l -> find_option X l = inr None ->
               In (X, v) res).
Proof.
  intros m options info res os X v E O D I.
  destruct (filterOptions_result _ _ _ _ E) as (os' & l & sc & O' & Rq & S & ->).
  rewrite O in O'. inversion O'; subst os'. clear O'.
  destruct (scan_spec l os _ _ S) as (added & mask & R & _ & A & Fa & Ff).
  cbn [result app] in R.
  assert (X5 : In X five /\ X <> "max-concurrency"%string).
  { unfold defaults in D. cbn [In] in D.
    repeat (destruct D as [D|D];
            [inversion D; subst X; split; [cbn; tauto|discriminate]|]).
    destruct D. }
  destruct X5 as [X5 Xm].
  assert (Is : flag X (isAnOption sc) = true).
  { rewrite (Fa X X5). apply orb_true_iff. left. apply existsb_exists.
    apply in_map_iff in I. destruct I as (o & <- & Io).
    exists o. split; [exact Io|apply String.eqb_refl]. }
  assert (Keep : forall u, In (X, u) (result sc) ->
                           In (X, u) (fst (settle_concurrency limits sc))).
  { intros u Iu.
    destruct (settle_concurrency_spec sc)
      as [->|[(_ & _ & c & -> & _)|(_ & cap & _ & ->)]];
      [exact Iu|apply in_app_iff; left; exact Iu|].
    apply update_entry_other; assumption. }
  rewrite fill_defaults_spec.
  assert (Fd : flag X (found sc) = false ->
               In (X, v)
                  (flat_map (fun d => if negb (flag (fst d) (found sc)) &&
                                         flag (fst d) (isAnOption sc)
                                      then [d] else []) defaults)).
  { intros Fo. apply in_flat_map. exists (X, v). split; [exact D|].
    cbn [fst]. rewrite Fo, Is. left. reflexivity. }
  split.
  - destruct (flag X (found sc)) eqn:Fo.
    + rewrite (Ff X X5), flag_none, orb_false_r in Fo.
      apply existsb_exists in Fo. destruct Fo as ([n u] & Iu & Eu).
      cbn [fst] in Eu. apply String.eqb_eq in Eu. subst n.
      exists u. apply in_app_iff. left. apply Keep. rewrite R. exact Iu.
    + exists v. apply in_app_iff. right. apply Fd. reflexivity.
  - intros l' Rq' No. rewrite Rq in Rq'. inversion Rq'; subst l'.
    apply in_app_iff. right. apply Fd.
    rewrite (Ff X X5), flag_none, orb_false_r.
    destruct (existsb _ added) eqn:Ex; [|reflexivity].
    apply existsb_exists in Ex. destruct Ex as (e & Ie & Ee).
    apply String.eqb_eq in Ee.
    destruct (A e Ie) as (o & opt & _ & Fo & Ac).
    assert (Ne : fst e = name o).
    { unfold accept in Ac.
      destruct (typeConversion (type o) (property "value" opt));
        [discriminate|].
      destruct (if has_domain (domain o) then _ else None); [discriminate|].
      inversion Ac; subst. reflexivity. }
    rewrite <- Ne, Ee, No in Fo. discriminate.
Qed.

(** X24.  A result of [filterOptions] lists the options in the order of
    ODM, whatever the order of the request: the entries that the request
    sets, in the order of [odmOptions], and then those that the function
    adds, in the order [max-concurrency], [tiles], [cog],
    [matcher-neighbors], [orthophoto-resolution]. *)
Theorem result_follows_the_order_of_odm :
  forall m options info res,
    filterOptions m limits options = Done info (inr res) ->
    exists os mask added,
      odmOptions m = Some os /\
      map fst res = pick mask (map name os) ++ pick added five.
Proof.
  intros m options info res E.
  destruct (filterOptions_result _ _ _ _ E) as (os & l & sc & O & Rq & S & ->).
  destruct (scan_spec l os _ _ S) as (added & mask & R & M & _).
  cbn [result app] in R.
  exists os, mask. rewrite fill_defaults_spec, map_app.
  assert (D : exists b1 b2 b3 b4,
             map fst (flat_map
                        (fun d => if negb (flag (fst d) (found sc)) &&
                                     flag (fst d) (isAnOption sc)
                                  then [d] else []) defaults) =
             pick [b1; b2; b3; b4] (tl five)).
  { unfold defaults, five. cbn [flat_map fst tl].
    exists (negb (flag "tiles" (found sc)) && flag "tiles" (isAnOption sc)),
           (negb (flag "cog" (found sc)) && flag "cog" (isAnOption sc)),
           (negb (flag "matcher-neighbors" (found sc)) &&
            flag "matcher-neighbors" (isAnOption sc)),
           (negb (flag "orthophoto-resolution" (found sc)) &&
            flag "orthophoto-resolution" (isAnOption sc)).
    destruct (negb (flag "tiles" (found sc)) && flag "tiles" (isAnOption sc));
      destruct (negb (flag "cog" (found sc)) && flag "cog" (isAnOption sc));
      destruct (negb (flag "matcher-neighbors" (found sc)) &&
                flag "matcher-neighbors" (isAnOption sc));
      destruct (negb (flag "orthophoto-resolution" (found sc)) &&
                flag "orthophoto-resolution" (isAnOption sc));
      reflexivity. }
  destruct D as (b1 & b2 & b3 & b4 & ->).
  destruct (settle_concurrency_spec sc)
    as [->|[(_ & _ & c & -> & _)|(_ & cap & _ & ->)]].
  - exists (false :: [b1; b2; b3; b4]). split; [exact O|].
    rewrite R, M. reflexivity.
  - exists (true :: [b1; b2; b3; b4]). split; [exact O|].
    rewrite map_app, R, M, <- app_assoc. reflexivity.
  - exists (false :: [b1; b2; b3; b4]). split; [exact O|].
    rewrite map_fst_update_entry, R, M. reflexivity.
Qed.

(** X25.  With a positive limit in the configuration, no result of
    [filterOptions] asks for more: every entry [max-concurrency] of a
    result is the limit itself or [Math.min] of some number and the
    limit. *)
Theorem max_concurrency_is_capped :
  forall m options info res cap v,
    positive_limit limits = Some cap ->
    filterOptions m limits options = Done info (inr res) ->
    In ("max-concurrency"%string, v) res ->
    v = JNum cap \/ exists x, v = JNum (num_min x cap).
Proof.
  intros m options info res cap v Pl E Iv.
  destruct (filterOptions_result _ _ _ _ E) as (os & l & sc & O & Rq & S & ->).
  destruct (scan_spec l os _ _ S) as (added & mask & R & _ & A & _).
  cbn [result app] in R.
  assert (Cap : maxConcurrency limits = Some cap /\ num_truthy cap = true).
  { unfold positive_limit in Pl.
    destruct (maxConcurrency limits) as [c|]; [|discriminate].
    destruct (num_truthy c) eqn:Tc; cbn [andb] in Pl; [|discriminate].
    destruct (num_ltb (lit "0") c); [|discriminate].
    inversion Pl; subst. split; [reflexivity|exact Tc]. }
  destruct Cap as [Mc Tc].
  assert (Sc : forall u, In ("max-concurrency"%string, u) (result sc) ->
                         exists x, u = JNum (num_min x cap)).
  { intros u Iu. rewrite R in Iu.
    destruct (A _ Iu) as (o & opt & _ & _ & Ac).
    unfold accept in Ac.
    destruct (typeConversion (type o) (property "value" opt)) as [e|x];
      [discriminate|].
    destruct (if has_domain (domain o) then _ else None); [discriminate|].
    inversion Ac as [[N V]]. rewrite N, String.eqb_refl.
    unfold capped. rewrite Mc, Tc. eauto. }
  rewrite fill_defaults_spec in Iv. apply in_app_iff in Iv.
  destruct Iv as [Iv|Iv].
  - destruct (settle_concurrency_spec sc)
      as [X|[(_ & _ & c & X & C)|(_ & cap' & Pl' & X)]]; rewrite X in Iv.
    + right. apply Sc. exact Iv.
    + apply in_app_iff in Iv. destruct Iv as [Iv|[Iv|[]]].
      * right. apply Sc. exact Iv.
      * left. inversion Iv; subst. rewrite (C cap Pl). reflexivity.
    + rewrite Pl in Pl'. inversion Pl'; subst cap'.
      apply update_entry_same in Iv. destruct Iv as (u & Iu & [->| ->]).
      * right. eauto.
      * right. apply Sc. exact Iu.
  - exfalso. apply in_flat_map in Iv. destruct Iv as ([n d] & Id & Iv).
    cbn [fst] in Iv.
    destruct (negb (flag n (found sc)) && flag n (isAnOption sc));
      [|destruct Iv].
    destruct Iv as [Iv|[]]. inversion Iv; subst n d.
    unfold defaults in Id. cbn [In] in Id.
    repeat (destruct Id as [Id|Id]; [discriminate Id|]). destruct Id.
Qed.


Lemma find_option_total (n : string) (l : list Json) :
  Forall (fun o => o <> JNull /\ o <> JUndefined) l ->
  exists r, find_option n l = inr r.
Proof.
  induction 1 as [|o l [N U] _ [r IH]]; [exists None; reflexivity|].
  cbn [find_option].
  destruct o; try congruence;
    (destruct (strict_eq _ _); [eexists; reflexivity|exists r; exact IH]).
Qed.

Lemma scan_errors (l : list Json) (os : list OdmOption) :
  Forall (fun o => o <> JNull /\ o <> JUndefined) l ->
  forall sc,
    exists sc',
      scan limits l os sc = inr sc' /\
      errors sc' = errors sc ++ refusals limits l os.
Proof.
  intros F. induction os as [|o os IH]; intros sc.
  - exists sc. split; [reflexivity|]. cbn. rewrite app_nil_r. reflexivity.
  - cbn [scan]. unfold scan_option, refusals. cbn [flat_map].
    fold (refusals limits l os).
    destruct (find_option_total (name o) l F) as [[opt|] ->].
    + destruct (accept limits o opt) as [e|entry];
        match goal with
        | |- context [scan limits l os ?s1] =>
            destruct (IH s1) as (sc' & -> & E)
        end; exists sc'; (split; [reflexivity|]); rewrite E;
        cbn [errors]; rewrite <- ?app_assoc; reflexivity.
    + match goal with
      | |- context [scan limits l os ?s1] =>
          destruct (IH s1) as (sc' & -> & E)
      end. exists sc'. split; [reflexivity|]. rewrite E. reflexivity.
Qed.

(** X27.  For a request that is an array without a [null], [filterOptions]
    reports an error exactly when the request sets an option of ODM to a
    value that is refused, and the error then lists every such option, in
    the order of ODM, with the message of its refusal: none is lost, and
    the first does not hide the others. *)
Theorem every_refused_option_is_reported :
  forall m os l,
    odmOptions m = Some os ->
    Forall (fun o => o <> JNull /\ o <> JUndefined) l ->
    (refusals limits l os = [] ->
     exists info res, filterOptions m limits (JArr l) = Done info (inr res)) /\
    (refusals limits l os <> [] ->
     exists info,
       filterOptions m limits (JArr l) =
       Done info (inl (JSON_stringify_errors (refusals limits l os)))).
Proof.
  intros m os l O F. unfold filterOptions. rewrite O. cbn [request].
  destruct (scan_errors l os F {| result := []; errors := [];
                                  isAnOption := no_flag; found := no_flag |})
    as (sc & -> & E).
  cbn [errors app] in E. rewrite <- E.
  destruct (settle_concurrency limits sc) as [r info].
  destruct (errors sc) as [|e errs].
  - split; [eauto|]. intros X. destruct X. reflexivity.
  - split; [discriminate|]. eauto.
Qed.

Lemma span_class_run (lower rest : string) :
  all_class lower = true ->
  span_class (lower +:+ String " " rest) = (lower, String " " rest).
Proof.
  induction lower as [|c lower IH]; cbn [all_class String.append span_class].
  - intros _. reflexivity.
  - intros A. apply andb_true_iff in A. destruct A as [Ac Al].
    rewrite Ac, (IH Al). reflexivity.
Qed.

Lemma after_prefix_append (p s : string) : after_prefix p (p +:+ s) = Some s.
Proof.
  induction p as [|c p IH]; cbn [after_prefix String.append];
    [destruct s; reflexivity|].
  rewrite Ascii.eqb_refl. exact IH.
Qed.

Lemma find_check_range (is_float : bool) (lower upper : string) :
  lower <> EmptyString -> upper <> EmptyString ->
  all_class lower = true -> all_class upper = true ->
  find_check ((if is_float then "float" else "integer") +:+ ": " +:+ lower +:+
              " <= x <= " +:+ upper)
  = Some (Range is_float lower upper).
Proof.
  intros Nl Nu Al Au. unfold find_check.
  assert (M : match_range ((if is_float then "float" else "integer") +:+
                           ": " +:+ lower +:+ " <= x <= " +:+ upper)
              = Some (Range is_float lower upper)).
  { unfold match_range, after_kind.
    destruct is_float.
    - change ("float" +:+ ": " +:+ lower +:+ " <= x <= " +:+ upper)
        with (("float" +:+ ": ") +:+ lower +:+ " <= x <= " +:+ upper).
      rewrite after_prefix_append.
      change (lower +:+ " <= x <= " +:+ upper)
        with (lower +:+ String " " ("<= x <= " +:+ upper)).
      rewrite (span_class_run _ _ Al).
      change (String " " ("<= x <= " +:+ upper))
        with (" <= x <= " +:+ upper).
      rewrite after_prefix_append.
      destruct lower; [congruence|]. destruct upper; [congruence|].
      rewrite Au. reflexivity.
    - change (after_prefix ("float" +:+ ": ")
                           ("integer" +:+ ": " +:+ lower +:+ " <= x <= " +:+
                            upper)) with (@None string).
      change ("integer" +:+ ": " +:+ lower +:+ " <= x <= " +:+ upper)
        with (("integer" +:+ ": ") +:+ lower +:+ " <= x <= " +:+ upper).
      rewrite after_prefix_append.
      change (lower +:+ " <= x <= " +:+ upper)
        with (lower +:+ String " " ("<= x <= " +:+ upper)).
      rewrite (span_class_run _ _ Al).
      change (String " " ("<= x <= " +:+ upper))
        with (" <= x <= " +:+ upper).
      rewrite after_prefix_append.
      destruct lower; [congruence|]. destruct upper; [congruence|].
      rewrite Au. reflexivity. }
  rewrite M.
  destruct is_float; reflexivity.
Qed.

(** X26.  A domain written [float: L <= x <= U] or [integer: L <= x <= U]
    is enforced as the closed interval between the two bounds, read with
    [parseFloat] or with [parseInt]: a value is accepted exactly when it
    is at least the lower bound and at most the upper one, and refused
    as out of range otherwise. *)
Theorem range_domain_is_enforced :
  forall (is_float : bool) (lower upper : string) (value : Json),
    lower <> EmptyString -> upper <> EmptyString ->
    all_class lower = true -> all_class upper = true ->
    let parseFunc : string -> Num :=
      if is_float then parseFloat else parseInt in
    checkDomain
      (DomainText ((if is_float then "float" else "integer") +:+ ": " +:+
                   lower +:+ " <= x <= " +:+ upper)) value =
    if num_leb (parseFunc lower) (to_number value) &&
       num_leb (to_number value) (parseFunc upper)
    then None
    else Some ("Invalid value " +:+ to_string value +:+ " (out of range)").
Proof.
  intros is_float lower upper value Nl Nu Al Au. cbn zeta.
  unfold checkDomain. rewrite (find_check_range _ _ _ Nl Nu Al Au).
  reflexivity.
Qed.

Lemma flat_map_nil {A B : Type} (f : A -> list B) (l : list A) :
  (forall x, In x l -> f x = []) -> flat_map f l = [].
Proof.
  induction l as [|a l IH]; intros E; [reflexivity|].
  cbn [flat_map]. rewrite (E a (or_introl eq_refl)), IH; [reflexivity|].
  intros x Ix. apply E. right. exact Ix.
Qed.

(** The try block accepts the default of an option of the type [enum]. *)
Lemma accept_default (json : list (string * Values)) (o : OdmOption)
      (opt : Json) :
  In o (fst (describe_all json)) ->
  type o = TEnum ->
  property "value" opt = JStr (value o) ->
  exists entry, accept limits o opt = inr entry.
Proof.
  intros Io T V.
  pose proof (describe_all_domains json) as D.
  rewrite Forall_forall in D. specialize (D o Io).
  unfold accept. rewrite T, V. cbn [typeConversion].
  destruct (domain o) as [text|choices]; [destruct (D T)|].
  destruct D as [_ Ic]. cbn [has_domain checkDomain].
  assert (X : existsb (strict_eq (JStr (value o))) choices = true).
  { apply existsb_exists. exists (JStr (value o)). split; [exact Ic|].
    apply String.eqb_refl. }
  rewrite X. eexists. reflexivity.
Qed.

(** X29.  What [getOptions] reports as the default of an option of the
    type [enum] is a value that [filterOptions] accepts for it: when the
    names of the options are distinct, the request that sets such an
    option to its default, and nothing else, is answered with a result
    and no error. *)
Theorem default_of_an_enum_is_accepted :
  forall m json os o,
    snd (getOptions_callback (inr json) m) = inr os ->
    NoDup (map name os) ->
    In o os ->
    type o = TEnum ->
    exists info res,
      filterOptions (fst (fst (getOptions_callback (inr json) m))) limits
                    (JArr [JObj [("name"%string, JStr (name o));
                                 ("value"%string, JStr (value o))]]) =
      Done info (inr res).
Proof.
  intros m json os o G N Io T.
  unfold getOptions_callback in *.
  destruct (describe_all json) as [os' warnings] eqn:Da.
  cbn [fst snd] in *. inversion G; subst os'. clear G.
  unfold filterOptions. cbn [odmOptions request].
  set (req := JObj [("name"%string, JStr (name o));
                    ("value"%string, JStr (value o))]).
  assert (F : Forall (fun x : Json => x <> JNull /\ x <> JUndefined) [req]).
  { constructor; [split; discriminate|constructor]. }
  destruct (scan_errors [req] os F {| result := []; errors := [];
                                      isAnOption := no_flag;
                                      found := no_flag |})
    as (sc & -> & E).
  assert (R : refusals limits [req] os = []).
  { unfold refusals. apply flat_map_nil. intros o' Io'.
    unfold req. cbn [find_option property field strict_eq].
    change (String.eqb "name" "name") with true. cbn iota.
    cbn [strict_eq].
    destruct (String.eqb_spec (name o) (name o')) as [Eq|Ne]; [|reflexivity].
    assert (o = o') by (eapply NoDup_map_eq; eassumption). subst o'.
    destruct (accept_default json o
                (JObj [("name"%string, JStr (name o));
                       ("value"%string, JStr (value o))])) as [entry ->].
    - rewrite Da. exact Io.
    - exact T.
    - reflexivity.
    - reflexivity. }
  rewrite R in E. cbn [errors app] in E.
  destruct (settle_concurrency limits sc) as [r info].
  rewrite E. eauto.
Qed.

End Filter.

(** ** The theorems on the options at work on the small host *)

Section OptionsAtWork.

Import OdmInfo.

#[local] Existing Instance Host1.thousandths.
#[local] Existing Instance Host1.host.


Lemma known_options :
  odmOptions Host1.informed =
  Some [ {| name := "tiles"; type := TBool; value := "false";
            domain := DomainText ""; help := "Generate static tiles" |};
         {| name := "max-concurrency"; type := TInt; value := "4";
            domain := DomainText "positive integer";
            help := "The maximum number of processes" |};
         {| name := "feature-type"; type := TEnum; value := "sift";
            domain := DomainList [JStr "akaze"; JStr "orb"; JStr "sift"];
            help := "Choose the algorithm for extracting keypoints" |} ].
Proof. reflexivity. Qed.

Lemma unknown_options_are_ignored_witness :
  filterOptions Host1.informed Host1.limits
                (JArr ([] ++ Host1.setting "bogus" (JBool true) ::
                       [Host1.setting "feature-type" (JStr "orb")])) =
  filterOptions Host1.informed Host1.limits
                (JArr ([] ++ [Host1.setting "feature-type" (JStr "orb")])).
Proof.
  apply unknown_options_are_ignored; [discriminate|discriminate|].
  intros os o E I. rewrite known_options in E. inversion E; subst os.
  cbn [In] in I.
  repeat (destruct I as [<-|I]; [reflexivity|]). destruct I.
Defined.

Lemma order_of_the_request_is_irrelevant_witness :
  filterOptions Host1.informed Host1.limits
                (JArr [Host1.setting "tiles" (JStr "0");
                       Host1.setting "feature-type" (JStr "orb")]) =
  filterOptions Host1.informed Host1.limits
                (JArr [Host1.setting "feature-type" (JStr "orb");
                       Host1.setting "tiles" (JStr "0")]).
Proof.
  apply order_of_the_request_is_irrelevant.
  - apply perm_swap.
  - repeat constructor; discriminate.
  - repeat constructor; cbn; intuition discriminate.
Defined.

Lemma answer_to_an_empty_request :
  filterOptions Host1.informed Host1.limits (JArr []) =
  Done [] (inr [("max-concurrency"%string, JNum (Some 2000%Z : Num));
                ("tiles"%string, JBool true)]).
Proof. reflexivity. Qed.

Lemma defaults_are_filled_in_witness :
  In ("tiles"%string, JBool true)
     [("max-concurrency"%string, JNum (Some 2000%Z : Num));
      ("tiles"%string, JBool true)].
Proof.
  assert (D : In ("tiles"%string, JBool true) defaults)
    by (left; reflexivity).
  assert (I : In "tiles"%string
                 (map name [ {| name := "tiles"; type := TBool;
                                value := "false"; domain := DomainText "";
                                help := "Generate static tiles" |};
         {| name := "max-concurrency"; type := TInt; value := "4";
            domain := DomainText "positive integer";
            help := "The maximum number of processes" |};
         {| name := "feature-type"; type := TEnum; value := "sift";
            domain := DomainList [JStr "akaze"; JStr "orb"; JStr "sift"];
            help := "Choose the algorithm for extracting keypoints" |} ]))
    by (left; reflexivity).
  destruct (defaults_are_filled_in Host1.limits _ _ _ _ _ _ _
              answer_to_an_empty_request known_options D I) as (_ & F).
  apply (F []); reflexivity.
Defined.

Lemma result_follows_the_order_of_odm_witness :
  exists os mask added,
    odmOptions Host1.informed = Some os /\
    map fst [("max-concurrency"%string, JNum (Some 2000%Z : Num));
             ("tiles"%string, JBool true)] =
    pick mask (map name os) ++ pick added five.
Proof.
  exact (result_follows_the_order_of_odm Host1.limits _ _ _ _
           answer_to_an_empty_request).
Defined.

Lemma max_concurrency_is_capped_witness :
  JNum (Some 2000%Z : Num) = JNum (Some 2000%Z : Num) \/
  exists x, JNum (Some 2000%Z : Num) = JNum (num_min x (Some 2000%Z : Num)).
Proof.
  assert (P : positive_limit Host1.limits = Some (Some 2000%Z : Num))
    by reflexivity.
  assert (I : In ("max-concurrency"%string, JNum (Some 2000%Z : Num))
                 [("max-concurrency"%string, JNum (Some 2000%Z : Num));
                  ("tiles"%string, JBool true)])
    by (left; reflexivity).
  exact (max_concurrency_is_capped Host1.limits _ _ _ _ _ _ P
           answer_to_an_empty_request I).
Defined.

Lemma every_refused_option_is_reported_witness :
  exists info,
    filterOptions Host1.informed Host1.limits
                  (JArr [Host1.setting "feature-type" (JStr "surf");
                         Host1.setting "tiles" (JStr "maybe")]) =
    Done info
         (inl "tiles: Cannot convert maybe to boolean; feature-type: Invalid value surf (not in enum)"%string).
Proof.
  assert (F : Forall (fun o : Json => o <> JNull /\ o <> JUndefined)
                     [Host1.setting "feature-type" (JStr "surf");
                      Host1.setting "tiles" (JStr "maybe")]).
  { repeat constructor; discriminate. }
  destruct (every_refused_option_is_reported Host1.limits _ _ _
              known_options F) as (_ & R).
  destruct R as (info & E); [discriminate|].
  exists info. exact E.
Defined.

Lemma range_domain_is_enforced_witness :
  checkDomain (DomainText ("float" +:+ ": " +:+ "0.5" +:+ " <= x <= " +:+ "10"))
              (JNum (Some 5000%Z : Num)) = None.
Proof.
  rewrite (range_domain_is_enforced true "0.5"%string "10"%string);
    [reflexivity|discriminate|discriminate|reflexivity|reflexivity].
Defined.

Lemma default_of_an_enum_is_accepted_witness :
  exists info res,
    filterOptions Host1.informed Host1.limits
                  (JArr [Host1.setting "feature-type" (JStr "sift")]) =
    Done info (inr res).
Proof.
  refine (default_of_an_enum_is_accepted Host1.limits Host1.unset
            Host1.reported _
            {| name := "feature-type"; type := TEnum; value := "sift";
               domain := DomainList [JStr "akaze"; JStr "orb"; JStr "sift"];
               help := "Choose the algorithm for extracting keypoints" |}
            eq_refl _ _ eq_refl).
  - repeat constructor; cbn; intuition discriminate.
  - right. right. left. reflexivity.
Defined.

End OptionsAtWork.
